(** * Animated interpolation: the scripting-tier range mapper, the native
    re-implementation, and the interpolation node's graph protocol.

    Sources embedded here:
    - [Libraries/Animated/src/nodes/AnimatedInterpolation.js]
    - [ReactAndroid/.../animated/InterpolationAnimatedNode.java]

    JavaScript numbers and Java doubles are both IEEE 754 binary64 values
    with round-to-nearest-even arithmetic; they are embedded as Rocq's
    primitive [float], whose operations are exactly those. *)

From Stdlib Require Import Floats ZArith String Ascii List Lia Bool DecimalString.
From stdpp Require Import base option list gmap.

Set Default Proof Using "Type".
Set Warnings "-register-all".

(** ** Outcomes of fallible code *)

Inductive error : Type :=
| InvariantViolation (msg : string)   (* fbjs [invariant(false, msg)] *)
| TypeError (msg : string)            (* a JS runtime TypeError *)
| JavaException (cls msg : string).   (* a Java exception of class [cls] *)

Inductive outcome (A : Type) : Type :=
| Ok (a : A)
| Throw (e : error).
Arguments Ok {A} a.
Arguments Throw {A} e.

#[global] Instance outcome_ret : MRet outcome := fun A a => Ok a.
#[global] Instance outcome_bind : MBind outcome := fun A B k r =>
  match r with
  | Ok a => k a
  | Throw e => Throw e
  end.

Definition is_ok {A} (r : outcome A) : bool :=
  match r with Ok _ => true | Throw _ => false end.

(** [invariant(condition, message)] of fbjs: throws when the condition is
    falsy, does nothing otherwise. *)
Definition invariant (condition : bool) (msg : string) : outcome unit :=
  if condition then Ok tt else Throw (InvariantViolation msg).

(** ** JavaScript numbers *)

Module JS.

(** [a < b], [a > b], [a <= b], [a >= b], [a === b], [a !== b] on numbers.
    Every comparison with NaN is false, and [0 === -0]. *)
Definition lt (a b : float) : bool := PrimFloat.ltb a b.
Definition gt (a b : float) : bool := PrimFloat.ltb b a.
Definition le (a b : float) : bool := PrimFloat.leb a b.
Definition ge (a b : float) : bool := PrimFloat.leb b a.
Definition strict_eq (a b : float) : bool := PrimFloat.eqb a b.
Definition strict_ne (a b : float) : bool := negb (PrimFloat.eqb a b).

Definition Infinity : float := infinity.
Definition neg_Infinity : float := neg_infinity.
Definition NaN : float := nan.

Definition neg (a : float) : float := PrimFloat.opp a.
Definition add (a b : float) : float := PrimFloat.add a b.
Definition sub (a b : float) : float := PrimFloat.sub a b.
Definition mul (a b : float) : float := PrimFloat.mul a b.
Definition div (a b : float) : float := PrimFloat.div a b.

(** *** Conversions between numbers and decimal text

    The built-in conversions are those of ECMAScript: text denotes the
    binary64 value nearest to the decimal it spells (ties to even), and a
    number prints as the shortest decimal that reads back as itself. *)

(** The binary64 value nearest to [(-1)^neg * num / den]. *)
Definition ofRatio (neg : bool) (num : Z) (den : positive) : float :=
  match num with
  | Zpos n => SF2Prim (SFdiv prec emax (S754_finite neg n 0) (S754_finite false den 0))
  | _ => if neg then (-0)%float else 0%float
  end.

(** The binary64 value nearest to [(-1)^neg * m * 10^e]. *)
Definition ofDecimal (neg : bool) (m : Z) (e : Z) : float :=
  match e with
  | Zneg p => ofRatio neg m (10 ^ p)%positive
  | _ => ofRatio neg (m * 10 ^ e) 1
  end.

Definition ofZ (z : Z) : float := ofRatio (z <? 0)%Z (Z.abs z) 1.

Definition isDigit (c : ascii) : bool :=
  let n := nat_of_ascii c in (48 <=? n)%nat && (n <=? 57)%nat.

Definition digitValue (c : ascii) : Z := Z.of_nat (nat_of_ascii c) - 48.

(** The longest prefix of decimal digits: its value, its length, and the
    rest of the text. *)
Fixpoint scanDigits (acc : Z) (count : nat) (s : string) : Z * nat * string :=
  match s with
  | String c rest =>
    if isDigit c then scanDigits (10 * acc + digitValue c) (S count) rest
    else (acc, count, s)
  | EmptyString => (acc, count, s)
  end.

Definition startsWith (s prefix : string) : bool := String.prefix prefix s.

Fixpoint dropPrefix (n : nat) (s : string) : string :=
  match n, s with
  | S n', String _ rest => dropPrefix n' rest
  | _, _ => s
  end.

Definition endsWith (s suffix : string) : bool :=
  (String.length suffix <=? String.length s)%nat
  && String.eqb (dropPrefix (String.length s - String.length suffix) s) suffix.

(** StrWhiteSpaceChar, for text in the ASCII range: TAB, LF, VT, FF, CR
    and SPACE. *)
Definition isWhiteSpace (c : ascii) : bool :=
  let n := nat_of_ascii c in
  ((9 <=? n)%nat && (n <=? 13)%nat) || (n =? 32)%nat.

Fixpoint trimStart (s : string) : string :=
  match s with
  | String c rest => if isWhiteSpace c then trimStart rest else s
  | EmptyString => s
  end.

(** An optional sign. *)
Definition scanSign (s : string) : bool * string :=
  match s with
  | String "-"%char rest => (true, rest)
  | String "+"%char rest => (false, rest)
  | _ => (false, s)
  end.

(** An optional ExponentPart [e|E [+|-] digits]; without digits the
    letter is not part of the literal. *)
Definition scanExponent (s : string) : Z * string :=
  match s with
  | String c rest =>
    if Ascii.eqb c "e" || Ascii.eqb c "E" then
      let '(neg, rest') := scanSign rest in
      let '(e, count, rest'') := scanDigits 0 0 rest' in
      match count with
      | O => (0%Z, s)
      | _ => ((if neg then - e else e)%Z, rest'')
      end
    else (0%Z, s)
  | EmptyString => (0%Z, s)
  end.

(** The longest StrUnsignedDecimalLiteral at the start of [s], without
    the [Infinity] alternative: mantissa, decimal exponent and the rest,
    or [None] when [s] starts with none. *)
Definition scanUnsignedDecimal (s : string) : option (Z * Z * string) :=
  let '(ip, icount, s1) := scanDigits 0 0 s in
  let '(m, fcount, s2) :=
    match s1 with
    | String "."%char rest => scanDigits ip 0 rest
    | _ => (ip, O, s1)
    end in
  match icount, fcount with
  | O, O => None
  | _, _ =>
    let '(e, s3) := scanExponent s2 in
    Some (m, (e - Z.of_nat fcount)%Z, s3)
  end.

(** [parseFloat(string)]. *)
Definition parseFloat (s : string) : float :=
  let '(neg, s1) := scanSign (trimStart s) in
  if startsWith s1 "Infinity" then (if neg then neg_Infinity else Infinity)
  else match scanUnsignedDecimal s1 with
       | Some (m, e, _) => ofDecimal neg m e
       | None => NaN
       end.

Fixpoint trimEnd_aux (s : string) : string :=
  match s with
  | String c rest =>
    match trimEnd_aux rest with
    | EmptyString => if isWhiteSpace c then EmptyString else String c EmptyString
    | rest' => String c rest'
    end
  | EmptyString => EmptyString
  end.

(** ToNumber applied to a string whose StringNumericLiteral, if any, is
    decimal (no [0x], [0o] or [0b] prefix): unary [+] on a string. *)
Definition stringToNumber (s : string) : float :=
  let t := trimEnd_aux (trimStart s) in
  match t with
  | EmptyString => 0%float
  | _ =>
    let '(neg, s1) := scanSign t in
    if String.eqb s1 "Infinity" then (if neg then neg_Infinity else Infinity)
    else match scanUnsignedDecimal s1 with
         | Some (m, e, EmptyString) => ofDecimal neg m e
         | _ => NaN
         end
  end.

(** [Math.round(x)]: the integer nearest to [x], ties towards +Infinity,
    keeping the sign of a zero result of a negative argument. *)
Definition Math_round (x : float) : float :=
  match Prim2SF x with
  | S754_finite neg m (Zneg p) =>
    let sm := if neg then Zneg m else Zpos m in
    let r := ((2 * sm + 2 ^ Zpos p) / 2 ^ (Zpos p + 1))%Z in
    if (r =? 0)%Z then (if neg then (-0)%float else 0%float) else ofZ r
  | _ => x
  end.

Definition Math_PI : float := 0x1.921fb54442d18p+1%float.

(** Number::toString(x) in radix 10.  For finite positive [x] = [num/den]:
    [n] is the integer with [10^(n-1) <= x < 10^n]; [k] is the least digit
    count for which some [s] with [10^(k-1) <= s < 10^k] has
    [s * 10^(n-k)] read back as [x]; of two such [s] the nearer to [x]. *)
Definition exactRatio (m : positive) (e : Z) : Z * positive :=
  match e with
  | Zneg p => (Zpos m, (2 ^ p)%positive)
  | _ => ((Zpos m * 2 ^ e)%Z, 1%positive)
  end.

(** [num/den < 10^n]. *)
Definition below_pow10 (num : Z) (den : positive) (n : Z) : bool :=
  match n with
  | Zneg p => (num * 10 ^ Zpos p <? Zpos den)%Z
  | _ => (num <? 10 ^ n * Zpos den)%Z
  end.

Fixpoint decimalExponent_from (fuel : nat) (num : Z) (den : positive) (n : Z) : Z :=
  match fuel with
  | O => n
  | S fuel' =>
    if below_pow10 num den n then n
    else decimalExponent_from fuel' num den (n + 1)
  end.

Definition decimalExponent (num : Z) (den : positive) : Z :=
  decimalExponent_from 700 num den (-330).

(** [floor (num/den * 10^j)]. *)
Definition scaledFloor (num : Z) (den : positive) (j : Z) : Z :=
  match j with
  | Zneg p => (num / (Zpos den * 10 ^ Zpos p))%Z
  | _ => (num * 10 ^ j / Zpos den)%Z
  end.

(** Is [s] nearer to [num/den * 10^j] than [s + 1] (or as near and even)? *)
Definition lowerIsNearer (num : Z) (den : positive) (j s : Z) : bool :=
  let '(a, b) := match j with
                 | Zneg p => (num, (Zpos den * 10 ^ Zpos p)%Z)
                 | _ => ((num * 10 ^ j)%Z, Zpos den)
                 end in
  (* compare a/b - s with s + 1 - a/b *)
  match (2 * a ?= (2 * s + 1) * b)%Z with
  | Lt => true
  | Eq => Z.even s
  | Gt => false
  end.

Fixpoint shortestDigits_from (fuel : nat) (x : float) (num : Z) (den : positive)
    (n k : Z) : Z * Z * Z :=
  match fuel with
  | O => (scaledFloor num den (k - n), k, n)
  | S fuel' =>
    let lo := scaledFloor num den (k - n) in
    let hi := (lo + 1)%Z in
    let okLo := PrimFloat.eqb (ofDecimal false lo (n - k)) x in
    let okHi := PrimFloat.eqb (ofDecimal false hi (n - k)) x in
    let pick (s : Z) :=
      if (s =? 10 ^ k)%Z then (10 ^ (k - 1), k, n + 1)%Z else (s, k, n) in
    if okLo && okHi then
      pick (if lowerIsNearer num den (k - n) lo then lo else hi)
    else if okLo then pick lo
    else if okHi then pick hi
    else shortestDigits_from fuel' x num den n (k + 1)
  end.

Definition digitsOf (z : Z) : string :=
  DecimalString.NilZero.string_of_uint (N.to_uint (Z.to_N z)).

Fixpoint zeros (n : nat) : string :=
  match n with
  | O => EmptyString
  | S n' => String "0" (zeros n')
  end.

Fixpoint takePrefix (n : nat) (s : string) : string :=
  match n, s with
  | S n', String c rest => String c (takePrefix n' rest)
  | _, _ => EmptyString
  end.

(** Strip the trailing zeros of a digit count: [s] has [k] digits. *)
Fixpoint stripZeros (fuel : nat) (s k : Z) : Z * Z :=
  match fuel with
  | O => (s, k)
  | S fuel' =>
    if (1 <? k)%Z && (s mod 10 =? 0)%Z then stripZeros fuel' (s / 10) (k - 1)
    else (s, k)
  end.

Definition formatPositive (s k n : Z) : string :=
  let digits := digitsOf s in
  if (k <=? n)%Z && (n <=? 21)%Z then
    (digits ++ zeros (Z.to_nat (n - k)))%string
  else if (0 <? n)%Z && (n <=? 21)%Z then
    (takePrefix (Z.to_nat n) digits ++ "." ++ dropPrefix (Z.to_nat n) digits)%string
  else if (-6 <? n)%Z && (n <=? 0)%Z then
    ("0." ++ zeros (Z.to_nat (- n)) ++ digits)%string
  else
    let e := (n - 1)%Z in
    let exponent := ((if (e <? 0)%Z then "-" else "+") ++ digitsOf (Z.abs e))%string in
    if (k =? 1)%Z then (digits ++ "e" ++ exponent)%string
    else (takePrefix 1 digits ++ "." ++ dropPrefix 1 digits ++ "e" ++ exponent)%string.

Definition numberToString (x : float) : string :=
  match Prim2SF x with
  | S754_nan => "NaN"
  | S754_zero _ => "0"
  | S754_infinity neg => if neg then "-Infinity" else "Infinity"
  | S754_finite neg m e =>
    let '(num, den) := exactRatio m e in
    let n := decimalExponent num den in
    let '(s, k, n) := shortestDigits_from 17 (PrimFloat.abs x) num den n 1 in
    let '(s, k) := stripZeros 17 s k in
    ((if neg then "-" else "") ++ formatPositive s k n)%string
  end.

(** [x || 0] for a number [x]: NaN and both zeros are falsy. *)
Definition orZero (x : float) : float :=
  if PrimFloat.eqb x x && negb (PrimFloat.eqb x 0) then x else 0%float.

(** [String.prototype.concat] of a list of parts. *)
Definition concat (parts : list string) : string :=
  fold_right String.append EmptyString parts.

(** *** 32-bit integer operators on integral numbers *)

Definition toInt32 (z : Z) : Z := ((z + 2 ^ 31) mod 2 ^ 32 - 2 ^ 31)%Z.
Definition toUint32 (z : Z) : Z := (z mod 2 ^ 32)%Z.

(** [a & b] *)
Definition bitand (a b : Z) : Z := toInt32 (Z.land (toInt32 a) (toInt32 b)).
(** [a >>> b] *)
Definition ushr (a b : Z) : Z := Z.shiftr (toUint32 a) (toUint32 b mod 32).

(** *** Numbers and strings under the operators

    A value of type [number | string], and the operators [interpolate]
    applies to one: ToNumber, [a === b], and [x + v] for a number [x],
    which concatenates when [v] is a string. *)

Inductive Primitive : Type :=
| PNumber (x : float)
| PString (s : string).

(** ToNumber: unary [+], and the operands of [-]. *)
Definition ToNumber (v : Primitive) : float :=
  match v with
  | PNumber x => x
  | PString s => stringToNumber s
  end.

(** [a === b]: values of different types are never strictly equal. *)
Definition strict_eq_values (a b : Primitive) : bool :=
  match a, b with
  | PNumber x, PNumber y => strict_eq x y
  | PString s, PString t => String.eqb s t
  | _, _ => false
  end.

(** [v === x] for a number [x]. *)
Definition strict_eq_number (v : Primitive) (x : float) : bool :=
  match v with
  | PNumber y => strict_eq y x
  | PString _ => false
  end.

(** [x + v] for a number [x]. *)
Definition add_value (x : float) (v : Primitive) : Primitive :=
  match v with
  | PNumber y => PNumber (add x y)
  | PString s => PString (numberToString x ++ s)
  end.

End JS.

(** ** AnimatedInterpolation.js: the range mapper *)

Module AnimatedInterpolation.

(** [type ExtrapolateType = 'extend' | 'identity' | 'clamp']; the code
    compares the strings, so they stay strings here. *)
Definition ExtrapolateType : Type := string.

(** [const linear = t => t;] *)
Definition linear (t : float) : float := t.

(** The early [return result;] inside the two extrapolation blocks of
    [interpolate]: a block either returns from the function or falls
    through with the (possibly reassigned) local [result]. *)
Inductive flow : Type :=
| Return (r : float)
| Next (result : float).

(** Lines 126-134: [if (result < inputMin) { ... }]. *)
Definition extrapolateLeftStep (result inputMin : float)
    (extrapolateLeft : ExtrapolateType) : flow :=
  if JS.lt result inputMin then
    if String.eqb extrapolateLeft "identity" then Return result
    else if String.eqb extrapolateLeft "clamp" then Next inputMin
    else if String.eqb extrapolateLeft "extend" then Next result (* noop *)
    else Next result
  else Next result.

(** Lines 136-144: [if (result > inputMax) { ... }]. *)
Definition extrapolateRightStep (result inputMax : float)
    (extrapolateRight : ExtrapolateType) : flow :=
  if JS.gt result inputMax then
    if String.eqb extrapolateRight "identity" then Return result
    else if String.eqb extrapolateRight "clamp" then Next inputMax
    else if String.eqb extrapolateRight "extend" then Next result (* noop *)
    else Next result
  else Next result.

(** Lines 146-178: everything after the extrapolation blocks.  [input] is
    the function's parameter, [result] the local after extrapolation. *)
Definition mapSegment (input result inputMin inputMax outputMin outputMax : float)
    (easing : float -> float) : float :=
  if JS.strict_eq outputMin outputMax then outputMin
  else if JS.strict_eq inputMin inputMax then
    if JS.le input inputMin then outputMin else outputMax
  else
    (* Input Range *)
    let result :=
      if JS.strict_eq inputMin JS.neg_Infinity then JS.neg result
      else if JS.strict_eq inputMax JS.Infinity then JS.sub result inputMin
      else JS.div (JS.sub result inputMin) (JS.sub inputMax inputMin) in
    (* Easing *)
    let result := easing result in
    (* Output Range *)
    let result :=
      if JS.strict_eq outputMin JS.neg_Infinity then JS.neg result
      else if JS.strict_eq outputMax JS.Infinity then JS.add result outputMin
      else JS.add (JS.mul result (JS.sub outputMax outputMin)) outputMin in
    result.

(** [function interpolate(input, inputMin, inputMax, outputMin, outputMax,
    easing, extrapolateLeft, extrapolateRight)]. *)
Definition interpolate (input inputMin inputMax outputMin outputMax : float)
    (easing : float -> float)
    (extrapolateLeft extrapolateRight : ExtrapolateType) : float :=
  let result := input in
  match extrapolateLeftStep result inputMin extrapolateLeft with
  | Return r => r
  | Next result =>
    match extrapolateRightStep result inputMax extrapolateRight with
    | Return r => r
    | Next result =>
      mapSegment input result inputMin inputMax outputMin outputMax easing
    end
  end.

(** [interpolate] called with the output bounds an output node may
    yield, a number or a string each: lines 146-178, then the whole
    function, with [===], [-] and [+] on [outputMin] and [outputMax] as
    JavaScript applies them to values.  On two numbers these are the
    operators on numbers, and the two definitions are [mapSegment] and
    [interpolate]. *)
Definition mapSegmentValues (input result inputMin inputMax : float)
    (outputMin outputMax : JS.Primitive) (easing : float -> float) : JS.Primitive :=
  if JS.strict_eq_values outputMin outputMax then outputMin
  else if JS.strict_eq inputMin inputMax then
    if JS.le input inputMin then outputMin else outputMax
  else
    (* Input Range *)
    let result :=
      if JS.strict_eq inputMin JS.neg_Infinity then JS.neg result
      else if JS.strict_eq inputMax JS.Infinity then JS.sub result inputMin
      else JS.div (JS.sub result inputMin) (JS.sub inputMax inputMin) in
    (* Easing *)
    let result := easing result in
    (* Output Range *)
    if JS.strict_eq_number outputMin JS.neg_Infinity then JS.PNumber (JS.neg result)
    else if JS.strict_eq_number outputMax JS.Infinity then JS.add_value result outputMin
    else JS.add_value
           (JS.mul result (JS.sub (JS.ToNumber outputMax) (JS.ToNumber outputMin)))
           outputMin.

Definition interpolateValues (input inputMin inputMax : float)
    (outputMin outputMax : JS.Primitive) (easing : float -> float)
    (extrapolateLeft extrapolateRight : ExtrapolateType) : JS.Primitive :=
  let result := input in
  match extrapolateLeftStep result inputMin extrapolateLeft with
  | Return r => JS.PNumber r
  | Next result =>
    match extrapolateRightStep result inputMax extrapolateRight with
    | Return r => JS.PNumber r
    | Next result =>
      mapSegmentValues input result inputMin inputMax outputMin outputMax easing
    end
  end.

(** [function findRange(input, inputRange)]: the loop
    [for (i = 1; i < inputRange.length - 1; ++i) if (inputRange[i] >= input) break;]
    with [fuel] bounding the number of iterations, then [return i - 1]. *)
Fixpoint findRange_loop (fuel : nat) (i : nat) (input : float)
    (inputRange : list float) : nat :=
  match fuel with
  | O => i
  | S fuel' =>
    if (Z.of_nat i <? Z.of_nat (length inputRange) - 1)%Z then
      match inputRange !! i with
      | Some r =>
        if JS.ge r input then i (* break *)
        else findRange_loop fuel' (S i) input inputRange
      | None => findRange_loop fuel' (S i) input inputRange
      end
    else i
  end.

Definition findRange (input : float) (inputRange : list float) : nat :=
  findRange_loop (length inputRange) 1 input inputRange - 1.

(** *** Values and configurations *)

Section Config.

(** The graph nodes ([AnimatedNode] instances) an output range may hold;
  [AnimatedNode.js] is not part of the sources, a node is an opaque
  handle whose current value is read with [__getValue()]: the call may
  throw (line 345, when the node is an interpolation node) and yields a
  number or a string (line 343). *)
Context {Node : Type}.
Variable __getValue : Node -> outcome JS.Primitive.

(** A JavaScript value as far as the output range is concerned:
  [number | string | AnimatedNode], and the values of other types that
  the type annotation does not keep out at run time. *)
Inductive JSValue : Type :=
| VNumber (x : float)
| VString (s : string)
| VNode (n : Node)
| VUndefined
| VNull
| VBoolean (b : bool).

(** [outputRange: Array<number> | Array<string> | Array<AnimatedNode>]. *)
Inductive OutputRange : Type :=
| Numbers (l : list float)
| Strings (l : list string)
| Nodes (l : list Node).

Definition toValues (r : OutputRange) : list JSValue :=
match r with
| Numbers l => map VNumber l
| Strings l => map VString l
| Nodes l => map VNode l
end.

(** [InterpolationConfigType]; an absent optional field is [None]. *)
Record InterpolationConfigType : Type := {
inputRange : list float;
outputRange : OutputRange;
easing : option (float -> float);
extrapolate : option ExtrapolateType;
extrapolateLeft : option ExtrapolateType;
extrapolateRight : option ExtrapolateType;
}.

(** [v !== x] for a value [v] and a number [x]: values of another type
  are never strictly equal to a number. *)
Definition value_strict_ne (v : option JSValue) (x : float) : bool :=
match v with
| Some (VNumber y) => JS.strict_ne y x
| _ => true
end.

(** [function checkInfiniteRange(name, arr: Array<any>)]. *)
Definition checkInfiniteRange (name : string) (arr : list JSValue) : outcome unit :=
_ ← invariant (2 <=? length arr)%nat (name ++ " must have at least 2 elements")%string;
invariant
  (negb (length arr =? 2)%nat
   || value_strict_ne (arr !! 0%nat) JS.neg_Infinity
   || value_strict_ne (arr !! 1%nat) JS.Infinity)
  (name ++ "cannot be ]-infinity;+infinity[ ")%string.

(** [arr[i] >= arr[i-1]]; a comparison that involves an absent slot
  ([undefined], hence NaN) is false. *)
Definition ge_at (arr : list float) (i j : nat) : bool :=
match arr !! i, arr !! j with
| Some a, Some b => JS.ge a b
| _, _ => false
end.

(** The body of a [for (let i = 1; i < n; ++i)] loop run for every [i],
  stopping at the first exception. *)
Fixpoint for_each (body : nat -> outcome unit) (indices : list nat) : outcome unit :=
match indices with
| [] => Ok tt
| i :: rest => _ ← body i; for_each body rest
end.

(** [function checkValidInputRange(arr)]. *)
Definition checkValidInputRange (arr : list float) : outcome unit :=
_ ← invariant (2 <=? length arr)%nat "inputRange must have at least 2 elements";
for_each
  (fun i => invariant (ge_at arr i (i - 1))
                      "inputRange must be monotonically increasing ")
  (seq 1 (length arr - 1)).

(** The entry [outputRange[k]] resolved as
  [x instanceof AnimatedNode ? x.__getValue() : x] (lines 92-99): the
  call of a node may throw; an absent slot ([undefined]) is [None]. *)
Definition outputValueAt (r : OutputRange) (k : nat) : outcome (option JS.Primitive) :=
match r with
| Numbers l => Ok (JS.PNumber <$> l !! k)
| Strings l => Ok (JS.PString <$> l !! k)
| Nodes l =>
  match l !! k with
  | Some n => v ← __getValue n; Ok (Some v)
  | None => Ok None
  end
end.

(** The compiled mapper of the non-string branch (lines 85-110): the two
  output values are resolved first, in order, then [interpolate] is
  called.  An operand read from an absent array slot is reported as
  [None]. *)
Definition numericMapper (inputRange : list float) (outputRange : OutputRange)
  (easing : float -> float) (extrapolateLeft extrapolateRight : ExtrapolateType)
  (input : float) : outcome (option JS.Primitive) :=
let range := findRange input inputRange in
outputStartValue ← outputValueAt outputRange range;
outputEndValue ← outputValueAt outputRange (range + 1);
Ok (outputStartValue ← outputStartValue;
    outputEndValue ← outputEndValue;
    inputMin ← inputRange !! range;
    inputMax ← inputRange !! (range + 1)%nat;
    Some (interpolateValues input inputMin inputMax outputStartValue outputEndValue
            easing extrapolateLeft extrapolateRight)).

(** Lines 71-83: the extrapolation settings. *)
Definition resolveExtrapolate (own shared : option ExtrapolateType) : ExtrapolateType :=
match own with
| Some e => e
| None => match shared with Some e => e | None => "extend"%string end
end.

(** [createInterpolation] after its first [if]: lines 53-110. *)
Definition createNumericInterpolation (config : InterpolationConfigType)
  : outcome (float -> outcome (option JS.Primitive)) :=
let outputRange := config.(outputRange) in
_ ← checkInfiniteRange "outputRange" (toValues outputRange);
let inputRange := config.(inputRange) in
_ ← checkInfiniteRange "inputRange" (map VNumber inputRange);
_ ← checkValidInputRange inputRange;
_ ← invariant (length inputRange =? length (toValues outputRange))%nat
      "inputRange and outputRange must have the same length";
let easing := default linear config.(easing) in
let extrapolateLeft := resolveExtrapolate config.(extrapolateLeft) config.(extrapolate) in
let extrapolateRight := resolveExtrapolate config.(extrapolateRight) config.(extrapolate) in
Ok (numericMapper inputRange outputRange easing extrapolateLeft extrapolateRight).

(** *** String output ranges *)

(** [function colorToRgba(input)].  [normalizeColor] is an external
  module: it yields a packed [0xRRGGBBAA] integer, or [null] ([None])
  for text that is not a colour. *)
Variable normalizeColor : string -> option Z.

Definition colorToRgba (input : string) : string :=
match normalizeColor input with
| None => input
| Some int32Color =>
  (* int32Color = int32Color || 0, a no-op on an integer *)
  let r := JS.ushr (JS.bitand int32Color 0xff000000) 24 in
  let g := JS.ushr (JS.bitand int32Color 0x00ff0000) 16 in
  let b := JS.ushr (JS.bitand int32Color 0x0000ff00) 8 in
  let a := JS.div (JS.ofZ (JS.bitand int32Color 0x000000ff)) 255 in
  JS.concat ["rgba("; JS.numberToString (JS.ofZ r); ", ";
             JS.numberToString (JS.ofZ g); ", ";
             JS.numberToString (JS.ofZ b); ", ";
             JS.numberToString a; ")"]%string
end.

(** [const stringShapeRegex = /[0-9\.-]+/g;]: the characters of the
  class, and a text cut into its matches (maximal runs of such
  characters, left to right) and the characters between them. *)
Definition isShapeChar (c : ascii) : bool :=
JS.isDigit c || Ascii.eqb c "." || Ascii.eqb c "-".

Inductive piece : Type :=
| Literal (c : ascii)
| Match (m : string).

Fixpoint shapePieces (s : string) : list piece :=
match s with
| EmptyString => []
| String c rest =>
  if isShapeChar c then
    match shapePieces rest with
    | Match m :: pieces => Match (String c m) :: pieces
    | pieces => Match (String c EmptyString) :: pieces
    end
  else Literal c :: shapePieces rest
end.

Definition matchesOf (pieces : list piece) : list string :=
omap (fun p => match p with Match m => Some m | Literal _ => None end) pieces.

(** [s.match(stringShapeRegex)]: every match, or [null] when there is
  none. *)
Definition matchShape (s : string) : option (list string) :=
match matchesOf (shapePieces s) with
| [] => None
| ms => Some ms
end.

(** [s.replace(stringShapeRegex, '')]. *)
Definition removeShape (s : string) : string :=
JS.concat (omap (fun p => match p with
                          | Literal c => Some (String c EmptyString)
                          | Match _ => None
                          end) (shapePieces s)).

(** [s.replace(stringShapeRegex, replacer)] for a [replacer] closure that
  owns a counter [i]: the counter is threaded through the calls, made
  once per match from left to right; a call that throws ends the
  replacement, [None] once a call has failed. *)
Fixpoint replacePieces (replacer : nat -> outcome (option (nat * string))) (i : nat)
  (pieces : list piece) : outcome (option string) :=
match pieces with
| [] => Ok (Some EmptyString)
| Literal c :: rest =>
  tail ← replacePieces replacer i rest;
  Ok (String c <$> (tail : option string))
| Match _ :: rest =>
  replaced ← replacer i;
  match replaced with
  | Some (i', text) =>
    tail ← replacePieces replacer i' rest;
    Ok (String.append text <$> (tail : option string))
  | None => Ok None
  end
end.

(** [function checkPattern(arr)]. *)
Definition checkPattern (arr : list string) : outcome unit :=
match arr !! 0%nat with
| None => Throw (TypeError "Cannot read property 'replace' of undefined")
| Some first =>
  let pattern := removeShape first in
  for_each
    (fun i => match arr !! i with
              | Some s => invariant (String.eqb pattern (removeShape s)) "invalid pattern "
              | None => Ok tt
              end)
    (seq 1 (length arr - 1))
end.

(** [outputRanges[i].push(x)]; a [TypeError] when [outputRanges[i]] is
  [undefined]. *)
Definition pushAt (outputRanges : list (list float)) (i : nat) (x : float)
  : outcome (list (list float)) :=
match outputRanges !! i with
| Some channel => Ok (<[i := channel ++ [x]]> outputRanges)
| None => Throw (TypeError "Cannot read property 'push' of undefined")
end.

(** [matches.forEach((number, i) => { outputRanges[i].push(+number); })]
  from index [i] on. *)
Fixpoint pushMatches (outputRanges : list (list float)) (i : nat)
  (matches : list string) : outcome (list (list float)) :=
match matches with
| [] => Ok outputRanges
| number :: rest =>
  outputRanges' ← pushAt outputRanges i (JS.stringToNumber number);
  pushMatches outputRanges' (S i) rest
end.

(** Lines 227-234: [outputRange.forEach(value => { value.match(...).forEach(...) })]. *)
Fixpoint collectChannels (outputRanges : list (list float))
  (outputRange : list string) : outcome (list (list float)) :=
match outputRange with
| [] => Ok outputRanges
| value :: rest =>
  match matchShape value with
  | None => Throw (TypeError "Cannot read property 'forEach' of null")
  | Some matches =>
    outputRanges' ← pushMatches outputRanges 0 matches;
    collectChannels outputRanges' rest
  end
end.

(** [xs.map(f)] for an [f] that may throw. *)
Fixpoint mapM {A B} (f : A -> outcome B) (xs : list A) : outcome (list B) :=
match xs with
| [] => Ok []
| x :: rest => y ← f x; ys ← mapM f rest; Ok (y :: ys)
end.

(** [function isRgbOrRgba(range)] on a string. *)
Definition isRgbOrRgba (range : string) : bool := JS.startsWith range "rgb".

(** The callback of the final [replace] (lines 257-262), with its
  counter: [i] before the call, [i + 1] after. *)
Definition replaceMatch (interpolations : list (float -> outcome (option JS.Primitive)))
  (shouldRound : bool) (input : float) (i : nat) : outcome (option (nat * string)) :=
match interpolations !! i with
| Some interpolation =>
  let i := S i in
  value ← interpolation input;
  Ok (val ← JS.ToNumber <$> value;
      let rounded :=
        if shouldRound && (i <? 4)%nat then JS.Math_round val
        else JS.div (JS.Math_round (JS.mul val 1000)) 1000 in
      Some (i, JS.numberToString rounded))
| None => Ok None
end.

(** The mapper returned for a string output range (lines 252-263). *)
Definition stringMapper (template : string)
  (interpolations : list (float -> outcome (option JS.Primitive))) (shouldRound : bool)
  (input : float) : outcome (option string) :=
replacePieces (replaceMatch interpolations shouldRound input) 0
  (shapePieces template).

(** [{...config, outputRange: range}]. *)
Definition withOutputRange (config : InterpolationConfigType) (range : OutputRange)
  : InterpolationConfigType :=
{| inputRange := config.(inputRange);
   outputRange := range;
   easing := config.(easing);
   extrapolate := config.(extrapolate);
   extrapolateLeft := config.(extrapolateLeft);
   extrapolateRight := config.(extrapolateRight) |}.

(** [function createInterpolationFromStringOutputRange(config)].  The
  inner [createInterpolation] calls receive arrays of numbers, so they
  run the non-string branch. *)
Definition createInterpolationFromStringOutputRange
  (config : InterpolationConfigType) (outputRange : list string)
  : outcome (float -> outcome (option string)) :=
_ ← invariant (2 <=? length outputRange)%nat "Bad output range";
let outputRange := map colorToRgba outputRange in
_ ← checkPattern outputRange;
match head outputRange with
| None => Throw (TypeError "Cannot read property 'match' of undefined")
| Some first =>
  match matchShape first with
  | None => Throw (TypeError "Cannot read property 'map' of null")
  | Some firstMatches =>
    let outputRanges := map (fun _ => []) firstMatches in
    outputRanges ← collectChannels outputRanges outputRange;
    interpolations ←
      mapM (fun channel =>
              createNumericInterpolation (withOutputRange config (Numbers channel)))
           outputRanges;
    let shouldRound := isRgbOrRgba first in
    Ok (stringMapper first interpolations shouldRound)
  end
end.

(** A number or a string among the values. *)
Definition ofPrimitive (v : JS.Primitive) : JSValue :=
match v with
| JS.PNumber x => VNumber x
| JS.PString s => VString s
end.

(** [function createInterpolation(config)]: the first [if] sends a range
  whose first entry is a string to the string branch.  The mapper it
  returns throws what a call it makes throws. *)
Definition createInterpolation (config : InterpolationConfigType)
  : outcome (float -> outcome (option JSValue)) :=
match config.(outputRange) with
| Strings (first :: rest) =>
  mapper ← createInterpolationFromStringOutputRange config (first :: rest);
  Ok (fun input : float => value ← mapper input; Ok (VString <$> (value : option string)))
| _ =>
  mapper ← createNumericInterpolation config;
  Ok (fun input : float =>
        value ← mapper input; Ok (ofPrimitive <$> (value : option JS.Primitive)))
end.

(** *** The [AnimatedInterpolation] class: export *)

(** [value.__getNativeTag()] of [AnimatedNode.js]: it may throw, and
  yields the node's tag, or nothing ([None]) when there is none. *)
Variable __getNativeTag : Node -> outcome (option Z).

(** The callback of [__transformOutputRange] (lines 376-398). *)
Definition transformOutputValue (value : JSValue) : outcome float :=
match value with
| VString s =>
  if JS.endsWith s "deg" then
    let degrees := JS.orZero (JS.parseFloat s) in
    (* Radians. *)
    Ok (JS.div (JS.mul degrees JS.Math_PI) 180)
  else
    (* Assume radians. *)
    Ok (JS.orZero (JS.parseFloat s))
| VNumber x =>
  (* Just a plain number value. *)
  Ok x
| VNode n =>
  (* Animated node. *)
  tag ← __getNativeTag n;
  match tag with
  | Some t =>
    _ ← invariant (negb (t =? 0)%Z) "There must be a native tag for this value.";
    Ok (JS.ofZ t)
  | None => Throw (InvariantViolation "There must be a native tag for this value.")
  end
| _ =>
  _ ← invariant true "Incompatible type passed to outputRange.";
  Ok 0%float
end.

(** [__transformOutputRange(range)]. *)
Definition __transformOutputRange (range : list JSValue) : outcome (list float) :=
mapM transformOutputValue range.

(** The object [__getNativeConfig()] returns. *)
Record NativeConfig : Type := {
native_parent : option Z;
native_inputRange : list float;
native_outputRange : list float;
isOutputRangeAnimations : bool;
native_extrapolateLeft : string;
native_extrapolateRight : string;
native_type : string;
}.

(** [a || b || 'extend'] on optional strings: absent and empty are falsy. *)
Definition orExtend (a b : option ExtrapolateType) : ExtrapolateType :=
match a with
| Some (String c s) => String c s
| _ => match b with
       | Some (String c s) => String c s
       | _ => "extend"%string
       end
end.

(** [__DEV__], and [NativeAnimatedHelper.validateInterpolation] of a
  module that is not part of the sources: it returns, or throws. *)
Variable __DEV__ : bool.
Variable validateInterpolation : InterpolationConfigType -> outcome unit.

(** [__getNativeConfig()] of a node with parent [_parent] and
  configuration [_config]. *)
Definition __getNativeConfig (_parent : Node) (_config : InterpolationConfigType)
  : outcome NativeConfig :=
_ ← (if __DEV__ then validateInterpolation _config else Ok tt);
parentTag ← __getNativeTag _parent;
range ← __transformOutputRange (toValues _config.(outputRange));
Ok {| native_parent := parentTag;
      native_inputRange := _config.(inputRange);
      native_outputRange := range;
      isOutputRangeAnimations :=
        match head (toValues _config.(outputRange)) with
        | Some (VNode _) => true
        | _ => false
        end;
      native_extrapolateLeft := orExtend _config.(extrapolateLeft) _config.(extrapolate);
      native_extrapolateRight := orExtend _config.(extrapolateRight) _config.(extrapolate);
      native_type := "interpolation" |}.

(** [createInterpolation(config)(input)]: a mapper is built, then asked
    for one value. *)
Definition evaluate (config : InterpolationConfigType) (input : float)
    : outcome (option JSValue) :=
  mapper ← createInterpolation config;
  mapper input.

(** [__getValue()] of the class (lines 343-350), given the mapper the
    constructor stored in [_interpolation] and what
    [this._parent.__getValue()] returned. *)
Definition interpolation__getValue (_interpolation : float -> outcome (option JSValue))
    (parentValue : JSValue) : outcome (option JSValue) :=
  match parentValue with
  | VNumber x => _interpolation x
  | _ => Throw (InvariantViolation "Cannot interpolate an input which is not a number.")
  end.

End Config.

(** *** The [AnimatedInterpolation] class: promotion *)

(** The object graph [__makeNative] walks.  A node has an identity [id];
    an interpolation node holds its [_parent] and its [_config], whose
    output range may hold further nodes.  Nodes of the other classes
    have no dependencies of their own here. *)
Inductive AnimatedNode : Type :=
| OtherAnimatedNode (id : nat)
| AnimatedInterpolationNode (id : nat) (_parent : AnimatedNode)
    (_config : @InterpolationConfigType AnimatedNode).

Definition node_id (n : AnimatedNode) : nat :=
  match n with
  | OtherAnimatedNode id => id
  | AnimatedInterpolationNode id _ _ => id
  end.

(** [this._config.outputRange.filter(isAnimatedNode)]. *)
Definition nodeEntries {Node} (r : @OutputRange Node) : list Node :=
  match r with
  | Nodes l => l
  | _ => []
  end.

(** The native counterparts constructed so far, oldest first, each named
    by the identity of its node. *)
Definition NativeGraph : Type := list nat.

(** Modelled from the spec: [super.__makeNative()], the method of the base
    class in [AnimatedWithChildren.js], which is not among the sources.
    It constructs this node's native counterpart, and a node that is
    visited again is not promoted again: promotion is deduplicated by node
    identity. *)
Definition super__makeNative (id : nat) (g : NativeGraph) : NativeGraph :=
  if decide (id ∈ g) then g else g ++ [id].

(** [__makeNative()]:
    [this._parent.__makeNative();
     this._config.outputRange.filter(isAnimatedNode).forEach(value => value.__makeNative());
     super.__makeNative();] *)
Fixpoint __makeNative (n : AnimatedNode) (g : NativeGraph) : NativeGraph :=
  match n with
  | OtherAnimatedNode id => super__makeNative id g
  | AnimatedInterpolationNode id _parent _config =>
    let g := __makeNative _parent g in
    let g :=
      match _config.(outputRange) with
      | Nodes l =>
        (fix forEach (values : list AnimatedNode) (g : NativeGraph) : NativeGraph :=
           match values with
           | [] => g
           | value :: rest => forEach rest (__makeNative value g)
           end) l g
      | _ => g
      end in
    super__makeNative id g
  end.

End AnimatedInterpolation.

(** ** InterpolationAnimatedNode.java: the native evaluator *)

Module InterpolationAnimatedNode.

Definition EXTRAPOLATE_TYPE_IDENTITY : string := "identity"%string.
Definition EXTRAPOLATE_TYPE_CLAMP : string := "clamp"%string.
Definition EXTRAPOLATE_TYPE_EXTEND : string := "extend"%string.

Import AnimatedInterpolation.

(** One [switch] over the extrapolation type. *)
Definition extrapolateSwitch (result bound : float) (extrapolate side : string)
    : outcome flow :=
  if String.eqb extrapolate EXTRAPOLATE_TYPE_IDENTITY then Ok (Return result)
  else if String.eqb extrapolate EXTRAPOLATE_TYPE_CLAMP then Ok (Next bound)
  else if String.eqb extrapolate EXTRAPOLATE_TYPE_EXTEND then Ok (Next result)
  else Throw (JavaException "JSApplicationIllegalArgumentException"
                ("Invalid extrapolation type " ++ extrapolate ++ "for " ++ side ++ " extrapolation")%string).

(** [private static double interpolate(value, inputMin, inputMax,
    outputMin, outputMax, extrapolateLeft, extrapolateRight)]. *)
Definition interpolate (value inputMin inputMax outputMin outputMax : float)
    (extrapolateLeft extrapolateRight : string) : outcome float :=
  let result := value in
  (* Extrapolate *)
  l ← (if PrimFloat.ltb result inputMin
       then extrapolateSwitch result inputMin extrapolateLeft "left"
       else Ok (Next result));
  match l with
  | Return r => Ok r
  | Next result =>
    r ← (if PrimFloat.ltb inputMax result
         then extrapolateSwitch result inputMax extrapolateRight "right"
         else Ok (Next result));
    match r with
    | Return r => Ok r
    | Next result =>
      Ok (PrimFloat.add outputMin
            (PrimFloat.div
               (PrimFloat.mul (PrimFloat.sub outputMax outputMin)
                              (PrimFloat.sub result inputMin))
               (PrimFloat.sub inputMax inputMin)))
    end
  end.

(** [private static int findRangeIndex(double value, double[] ranges)]. *)
Fixpoint findRangeIndex_loop (fuel : nat) (index : nat) (value : float)
    (ranges : list float) : outcome nat :=
  match fuel with
  | O => Ok index
  | S fuel' =>
    if (Z.of_nat index <? Z.of_nat (length ranges) - 1)%Z then
      match ranges !! index with
      | Some r =>
        if PrimFloat.leb value r then Ok index (* break *)
        else findRangeIndex_loop fuel' (S index) value ranges
      | None => Throw (JavaException "ArrayIndexOutOfBoundsException" "")
      end
    else Ok index
  end.

Definition findRangeIndex (value : float) (ranges : list float) : outcome nat :=
  index ← findRangeIndex_loop (length ranges) 1 value ranges;
  Ok (index - 1)%nat.

(** A Java array read [a[i]]. *)
Definition aget {A} (a : list A) (i : nat) : outcome A :=
  match a !! i with
  | Some x => Ok x
  | None => Throw (JavaException "ArrayIndexOutOfBoundsException" "")
  end.

(** What [nativeAnimatedNodesManager.getNodeById(id)] yields: [null], a
    node that is not a [ValueAnimatedNode], or a [ValueAnimatedNode] with
    its [getValue()]. *)
Inductive NativeNode : Type :=
| NullNode
| OtherNode
| ValueNode (value : float).

(** [static double interpolate(value, inputRange, outputRange,
    outputRangeAnimations, extrapolateLeft, extrapolateRight, manager)];
    a [null] array is [None]. *)
Definition interpolateRanges (value : float) (inputRange : list float)
    (outputRange : option (list float)) (outputRangeAnimations : option (list Z))
    (extrapolateLeft extrapolateRight : string)
    (getNodeById : Z -> NativeNode) : outcome float :=
  rangeIndex ← findRangeIndex value inputRange;
  ends ← match outputRangeAnimations with
         | Some animations =>
           startId ← aget animations rangeIndex;
           endId ← aget animations (rangeIndex + 1);
           match getNodeById startId, getNodeById endId with
           | ValueNode s, ValueNode e => Ok (s, e)
           | _, _ => Throw (JavaException "JSApplicationCausedNativeException"
                        "Illegal node ID set in outputRange of Animated.interpolate node")
           end
         | None =>
           match outputRange with
           | Some outputRange =>
             s ← aget outputRange rangeIndex;
             e ← aget outputRange (rangeIndex + 1);
             Ok (s, e)
           | None => Throw (JavaException "NullPointerException" "")
           end
         end;
  inputMin ← aget inputRange rangeIndex;
  inputMax ← aget inputRange (rangeIndex + 1);
  interpolate value inputMin inputMax ends.1 ends.2 extrapolateLeft extrapolateRight.

(** The Java cast [(int) d] of a double, as [ReadableArray.getInt]
    performs it: truncation towards zero, saturating, with NaN sent to 0. *)
Definition toInt (d : float) : Z :=
  match Prim2SF d with
  | S754_zero _ | S754_nan => 0%Z
  | S754_infinity neg => if neg then (- 2 ^ 31)%Z else (2 ^ 31 - 1)%Z
  | S754_finite neg m e =>
    let magnitude := match e with
                     | Zneg p => Z.shiftr (Zpos m) (Zpos p)
                     | _ => Z.shiftl (Zpos m) e
                     end in
    Z.max (- 2 ^ 31) (Z.min (2 ^ 31 - 1) (if neg then - magnitude else magnitude))
  end.

(** The constructor followed by [update()]: the node's new [mValue], or
    [None] when [update] leaves it alone because the parent is [null]. *)
Definition update (config : NativeConfig) (getNodeById : Z -> NativeNode)
    : outcome (option float) :=
  match config.(native_parent) with
  | None => Throw (JavaException "NoSuchKeyException" "parent")
  | Some parentTag =>
    let mInputRange := config.(native_inputRange) in
    let mOutputRangeAnimations :=
      if config.(isOutputRangeAnimations)
      then Some (map toInt config.(native_outputRange)) else None in
    let mOutputRange :=
      if config.(isOutputRangeAnimations)
      then None else Some config.(native_outputRange) in
    match getNodeById parentTag with
    | NullNode => Ok None
    | OtherNode => Throw (JavaException "ClassCastException" "")
    | ValueNode parentValue =>
      mValue ← interpolateRanges parentValue mInputRange mOutputRange
                 mOutputRangeAnimations
                 config.(native_extrapolateLeft) config.(native_extrapolateRight)
                 getNodeById;
      Ok (Some mValue)
    end
  end.

End InterpolationAnimatedNode.

Local Open Scope string_scope.
Local Open Scope list_scope.

(** ** Reference definitions

    The notions the statements below are phrased with: the segment rule in
    the specification's words, the channels of a string output range, the
    rewriting of a template, the extrapolation blocks taken together, and a
    few concrete configurations. *)

Module RangeSearch.
Import AnimatedInterpolation.

(** [inputRange[i] >= x], false at an absent position. *)
Definition geAt (inputRange : list float) (x : float) (i : nat) : bool :=
  match inputRange !! i with
  | Some r => JS.ge r x
  | None => false
  end.

(** The rule in the specification's words: scanning the positions
    [1, ..., n-2] in order, the first [i] with [inputRange[i] >= x],
    else [n-1]. *)
Definition firstGe_spec (x : float) (inputRange : list float) : nat :=
  default (length inputRange - 1)
    (List.find (geAt inputRange x) (seq 1 (length inputRange - 2))).

End RangeSearch.

Module StringShape.
Import AnimatedInterpolation.

(** The numbers channel [j] receives: the [j]-th match of every string
    that has one, in the order of the strings. *)
Definition channelAt (j : nat) (strings : list string) : list float :=
  omap (fun s => JS.stringToNumber <$> matchesOf (shapePieces s) !! j) strings.

(** What [pushMatches] appends to channel [j]. *)
Definition pushed (i : nat) (matches : list string) (j : nat) : list float :=
  if decide (i <= j)
  then option_list (JS.stringToNumber <$> matches !! (j - i))
  else [].

End StringShape.

Module StringOutput.
Import AnimatedInterpolation.

(** A template with its matches replaced, in order, by the given texts. *)
Fixpoint substitute (pieces : list piece) (texts : list string) : string :=
  match pieces with
  | [] => EmptyString
  | Literal c :: rest => String c (substitute rest texts)
  | Match _ :: rest =>
    match texts with
    | text :: texts' => String.append text (substitute rest texts')
    | [] => substitute rest []
    end
  end.

(** The rounding of channel [j] (counted from 0): to an integer for the
    first three channels of an rgb template, else to three decimals. *)
Definition roundChannel (rgb : bool) (j : nat) (v : float) : float :=
  if rgb && (j <? 3)%nat then JS.Math_round v
  else JS.div (JS.Math_round (JS.mul v 1000)) 1000.

Definition formatChannel (rgb : bool) (j : nat) (v : float) : string :=
  JS.numberToString (roundChannel rgb j v).

End StringOutput.

Module Extrapolation.
Import AnimatedInterpolation.

(** The two extrapolation blocks of [interpolate] in sequence. *)
Definition extrapolated (x inputMin inputMax : float)
    (extrapolateLeft extrapolateRight : ExtrapolateType) : flow :=
  match extrapolateLeftStep x inputMin extrapolateLeft with
  | Return r => Return r
  | Next result => extrapolateRightStep result inputMax extrapolateRight
  end.

End Extrapolation.

Module Validity.
Import AnimatedInterpolation.

(** [arr[i] >= arr[i-1]] at every position [i] from 1 on. *)
Definition nonDecreasing (arr : list float) : Prop :=
  forall i, 1 <= i < length arr -> ge_at arr i (i - 1) = true.

(** The range is the sole two-element span [(-Infinity, +Infinity)]. *)
Definition fullyInfinite {Node} (arr : list (@JSValue Node)) : bool :=
  (length arr =? 2)%nat
  && negb (value_strict_ne (arr !! 0%nat) JS.neg_Infinity)
  && negb (value_strict_ne (arr !! 1%nat) JS.Infinity).

(** The non-numeric skeleton and the numeric tokens of an output string,
    after colour normalization. *)
Definition skeleton (normalizeColor : string -> option Z) (s : string) : string :=
  removeShape (colorToRgba normalizeColor s).

Definition tokens (normalizeColor : string -> option Z) (s : string) : list string :=
  matchesOf (shapePieces (colorToRgba normalizeColor s)).

Section Conditions.
Context {Node : Type}.
Variable normalizeColor : string -> option Z.
Variable config : @InterpolationConfigType Node.

(** The conditions a configuration has to meet. *)
Definition wellFormed : Prop :=
  2 <= length config.(inputRange)
  /\ length config.(inputRange) = length (toValues config.(outputRange))
  /\ nonDecreasing config.(inputRange)
  /\ fullyInfinite (map (@VNumber Node) config.(inputRange)) = false
  /\ fullyInfinite (toValues config.(outputRange)) = false
  /\ forall l s t, config.(outputRange) = Strings l -> s ∈ l -> t ∈ l ->
       skeleton normalizeColor s = skeleton normalizeColor t.

(** A configuration that breaks one of them. *)
Definition malformed : Prop :=
  length config.(inputRange) < 2
  \/ length config.(inputRange) <> length (toValues config.(outputRange))
  \/ (exists i, 1 <= i < length config.(inputRange)
                /\ ge_at config.(inputRange) i (i - 1) = false)
  \/ fullyInfinite (map (@VNumber Node) config.(inputRange)) = true
  \/ fullyInfinite (toValues config.(outputRange)) = true
  \/ (exists l s t, config.(outputRange) = Strings l /\ s ∈ l /\ t ∈ l
                    /\ skeleton normalizeColor s <> skeleton normalizeColor t).

End Conditions.

End Validity.

Module Promotion.
Import AnimatedInterpolation.

(** The nodes a node promotes before itself: its parent, then the
    node-valued entries of its output range. *)
Definition dependencies (n : AnimatedNode) : list AnimatedNode :=
  match n with
  | OtherAnimatedNode _ => []
  | AnimatedInterpolationNode _ _parent _config =>
    _parent :: nodeEntries _config.(outputRange)
  end.

(** Every node reachable from [n] along dependencies, [n] included. *)
Fixpoint reachable (n : AnimatedNode) : list AnimatedNode :=
  n :: match n with
       | OtherAnimatedNode _ => []
       | AnimatedInterpolationNode _ _parent _config =>
         reachable _parent
         ++ match _config.(outputRange) with
            | Nodes l =>
              (fix each (values : list AnimatedNode) : list AnimatedNode :=
                 match values with
                 | [] => []
                 | value :: rest => reachable value ++ each rest
                 end) l
            | _ => []
            end
       end.

(** In a graph of objects an identity names one object: two reachable
    nodes with the same identity are the same node. *)
Definition identified (root : AnimatedNode) : Prop :=
  forall m1 m2, m1 ∈ reachable root -> m2 ∈ reachable root ->
    node_id m1 = node_id m2 -> m1 = m2.

(** [a] was constructed before [b]. *)
Definition precedes (a b : nat) (g : NativeGraph) : Prop :=
  exists before after, g = before ++ b :: after /\ a ∈ before.

(** Every promoted node reachable from [root] had its dependencies
    promoted earlier. *)
Definition ordered (root : AnimatedNode) (g : NativeGraph) : Prop :=
  forall m d, m ∈ reachable root -> d ∈ dependencies m -> node_id m ∈ g ->
    precedes (node_id d) (node_id m) g.

End Promotion.

Module Tokens.
Import AnimatedInterpolation.

(** The text a piece stands for. *)
Definition pieceText (p : piece) : string :=
  match p with
  | Literal c => String c EmptyString
  | Match m => m
  end.

(** The characters of [s] that satisfy [keep], in order. *)
Fixpoint keepChars (keep : ascii -> bool) (s : string) : string :=
  match s with
  | EmptyString => EmptyString
  | String c rest => if keep c then String c (keepChars keep rest) else keepChars keep rest
  end.

(** Every character of [s] satisfies [p]. *)
Fixpoint allChars (p : ascii -> bool) (s : string) : bool :=
  match s with
  | EmptyString => true
  | String c rest => p c && allChars p rest
  end.

(** A literal is a character outside the class; a match is a non-empty
    run of characters of the class. *)
Definition wellShaped (p : piece) : bool :=
  match p with
  | Literal c => negb (isShapeChar c)
  | Match m => negb (String.eqb m EmptyString) && allChars isShapeChar m
  end.

(** No two matches are adjacent: every match is a maximal run. *)
Fixpoint separated (pieces : list piece) : bool :=
  match pieces with
  | [] => true
  | p :: rest =>
    match p, rest with
    | Match _, Match _ :: _ => false
    | _, _ => true
    end && separated rest
  end.

End Tokens.

Module Colors.
Import AnimatedInterpolation Tokens.

(** The byte of [c] that starts at bit [shift]. *)
Definition byte (c shift : Z) : Z := ((c / 2 ^ shift) mod 2 ^ 8)%Z.

(** How [colorToRgba] prints a red, green or blue byte, and the alpha
    byte. *)
Definition byteText (b : Z) : string := JS.numberToString (JS.ofZ b).
Definition alphaText (b : Z) : string := JS.numberToString (JS.div (JS.ofZ b) 255).

(** [x] is a zero, or positive with [1/1000 <= x < 1000]: read off the
    exact value of [x]. *)
Definition moderate (x : float) : bool :=
  match Prim2SF x with
  | S754_zero _ => true
  | S754_finite false m e =>
    let '(num, den) := JS.exactRatio m e in
    (Zpos den <=? 1000 * num)%Z && (num <? 1000 * Zpos den)%Z
  | _ => false
  end.

Definition moderateByte (n : nat) : bool :=
  moderate (JS.ofZ (Z.of_nat n)) && moderate (JS.div (JS.ofZ (Z.of_nat n)) 255).

End Colors.

Module Native.
Import AnimatedInterpolation.

(** A known extrapolation type. *)
Definition knownType (e : string) : Prop :=
  e = "identity" \/ e = "clamp" \/ e = "extend".

(** The last line of the native [interpolate]. *)
Definition nativeFormula (result inputMin inputMax outputMin outputMax : float) : float :=
  PrimFloat.add outputMin
    (PrimFloat.div
       (PrimFloat.mul (PrimFloat.sub outputMax outputMin) (PrimFloat.sub result inputMin))
       (PrimFloat.sub inputMax inputMin)).

End Native.

Module Samples.
Import AnimatedInterpolation.

(** A colour normalizer that knows two colours. *)
Definition twoColors (s : string) : option Z :=
  if String.eqb s "rgba(0,0,0,0)" then Some 0%Z
  else if String.eqb s "rgba(255,255,255,1)" then Some 0xffffffff%Z
  else None.

(** Output nodes that all read 0. *)
Definition zeroNodes (n : unit) : outcome JS.Primitive := Ok (JS.PNumber 0).

(** Output nodes that are interpolation nodes over a parent whose value
    is a string: their [__getValue()] throws at line 345. *)
Definition textParented (n : unit) : outcome JS.Primitive :=
  Throw (InvariantViolation "Cannot interpolate an input which is not a number.").

(** A configuration without easing and without the shared [extrapolate]. *)
Definition config {Node} (input : list float) (output : @OutputRange Node)
    (left right : option ExtrapolateType) : InterpolationConfigType :=
  {| inputRange := input; outputRange := output; easing := None;
     extrapolate := None; extrapolateLeft := left; extrapolateRight := right |}.

Definition fadeStrings : list string := ["rgba(0,0,0,0)"; "rgba(255,255,255,1)"].

Definition fade : @InterpolationConfigType unit :=
  config [0; 1]%float (Strings fadeStrings) None None.

(** Two equal strings without a numeric token. *)
Definition plain : @InterpolationConfigType unit :=
  config [0; 1]%float (Strings ["a"; "a"]) None None.

(** Strings of different units. *)
Definition mixedUnits : @InterpolationConfigType unit :=
  config [0; 1]%float (Strings ["1px"; "2deg"]) None None.

(** A node whose output range references two interpolation nodes that
    share their parent with it. *)
Definition source : AnimatedNode := OtherAnimatedNode 1.

Definition left : AnimatedNode :=
  AnimatedInterpolationNode 2 source (config [0; 1]%float (Numbers [0; 1]%float) None None).

Definition right : AnimatedNode :=
  AnimatedInterpolationNode 3 source (config [0; 1]%float (Numbers [1; 0]%float) None None).

Definition blend : AnimatedNode :=
  AnimatedInterpolationNode 4 source (config [0; 1]%float (Nodes [left; right]) None None).

Definition tenfold : @InterpolationConfigType unit :=
  config [0; 1]%float (Numbers [0; 10]%float) None None.

End Samples.

(** * Properties *)


(** ** Facts about comparisons of binary64 values *)

Module FloatFacts.

Lemma SFcompare_refl (x : spec_float) :
  x <> S754_nan -> SFcompare x x = Some Eq.
Proof.
  destruct x as [s|s| |s m e]; intros Hx; try congruence.
  - destruct s; reflexivity.
  - destruct s; reflexivity.
  - cbn. destruct s; rewrite Z.compare_refl; cbn;
      rewrite Pos.compare_cont_refl; reflexivity.
Qed.

Lemma SFcompare_some_l (x y : spec_float) (c : comparison) :
  SFcompare x y = Some c -> x <> S754_nan.
Proof. destruct x; cbn; congruence. Qed.

Lemma SFcompare_some_r (x y : spec_float) (c : comparison) :
  SFcompare x y = Some c -> y <> S754_nan.
Proof. destruct x, y; cbn; congruence. Qed.

Lemma SFcompare_antisym (x y : spec_float) :
  SFcompare y x = option_map CompOpp (SFcompare x y).
Proof.
  destruct x as [s|s| |s m e], y as [s'|s'| |s' m' e']; cbn;
    try destruct s; try destruct s'; cbn; try reflexivity.
  - rewrite (Z.compare_antisym e' e). destruct (e' ?= e)%Z; cbn; try reflexivity.
    rewrite (Pos.compare_cont_antisym m m' Eq). reflexivity.
  - rewrite (Z.compare_antisym e' e). destruct (e' ?= e)%Z; cbn; try reflexivity.
    rewrite (Pos.compare_cont_antisym m m' Eq). reflexivity.
Qed.

(** [x < y] implies [x <= y]. *)
Lemma lt_le (x y : float) : JS.lt x y = true -> JS.le x y = true.
Proof.
  unfold JS.lt, JS.le. rewrite ltb_spec, leb_spec. unfold SFltb, SFleb.
  destruct (SFcompare _ _) as [[]|]; congruence.
Qed.

(** Nothing is below itself. *)
Lemma lt_irrefl (x : float) : JS.lt x x = false.
Proof.
  unfold JS.lt. rewrite ltb_spec. unfold SFltb.
  destruct (SFcompare _ _) as [[]|] eqn:E; try reflexivity.
  rewrite SFcompare_refl in E by eauto using SFcompare_some_l. congruence.
Qed.

(** The right operand of a true comparison is a number, hence [y <= y]. *)
Lemma lt_le_refl_r (x y : float) : JS.lt x y = true -> JS.le y y = true.
Proof.
  unfold JS.lt, JS.le. rewrite ltb_spec, leb_spec. unfold SFltb, SFleb.
  destruct (SFcompare (Prim2SF x) _) as [c|] eqn:E; [|congruence].
  intros _. rewrite SFcompare_refl by eauto using SFcompare_some_r. reflexivity.
Qed.

(** [x > y] excludes [x <= y]. *)
Lemma gt_not_le (x y : float) : JS.gt x y = true -> JS.le x y = false.
Proof.
  unfold JS.gt, JS.le. rewrite ltb_spec, leb_spec. unfold SFltb, SFleb.
  rewrite (SFcompare_antisym (Prim2SF y) (Prim2SF x)).
  destruct (SFcompare (Prim2SF y) _) as [[]|]; cbn; congruence.
Qed.

(** [x <= y] excludes [x > y]. *)
Lemma le_not_gt (x y : float) : JS.le x y = true -> JS.gt x y = false.
Proof.
  intros H. destruct (JS.gt x y) eqn:E; [|reflexivity].
  apply gt_not_le in E. congruence.
Qed.

Lemma SFcompare_lt_le_trans (x y z : spec_float) :
  SFcompare x y = Some Lt ->
  (SFcompare y z = Some Lt \/ SFcompare y z = Some Eq) ->
  SFcompare x z = Some Lt.
Proof.
  destruct x as [s1|s1| |s1 m1 e1], y as [s2|s2| |s2 m2 e2], z as [s3|s3| |s3 m3 e3];
    cbn; try destruct s1; try destruct s2; try destruct s3; cbn;
    try congruence; try (intros _ [?|?]; congruence); try (intros ? [?|?]; congruence).
  all: repeat match goal with
       | |- context [PosDef.Pos.compare_cont Eq ?p ?q] =>
         change (PosDef.Pos.compare_cont Eq p q) with (Pos.compare p q)
       end.
  all: intros H1 H2.
  all: destruct (Z.compare_spec e1 e2), (Z.compare_spec e2 e3), (Z.compare_spec e1 e3);
    subst; try lia; try (destruct H2; congruence); try congruence.
  all: destruct (Pos.compare_spec m1 m2), (Pos.compare_spec m2 m3), (Pos.compare_spec m1 m3);
    subst; cbn in *; try lia; try (destruct H2; congruence); try congruence.
Qed.

(** [x < a] and [a <= b] give [x < b]. *)
Lemma lt_le_trans (x a b : float) :
  JS.lt x a = true -> JS.le a b = true -> JS.lt x b = true.
Proof.
  unfold JS.lt, JS.le. rewrite !ltb_spec, leb_spec. unfold SFltb, SFleb.
  intros Hxa Hab.
  rewrite (SFcompare_lt_le_trans (Prim2SF x) (Prim2SF a) (Prim2SF b)); [reflexivity| |].
  - destruct (SFcompare (Prim2SF x) (Prim2SF a)) as [[]|]; congruence.
  - destruct (SFcompare (Prim2SF a) (Prim2SF b)) as [[]|]; auto; congruence.
Qed.

(** A value below a segment [a <= b] is not above it. *)
Lemma below_not_above (x a b : float) :
  JS.lt x a = true -> JS.le a b = true -> JS.gt x b = false.
Proof.
  intros Hxa Hab. apply le_not_gt, lt_le. eauto using lt_le_trans.
Qed.

(** [a < b] excludes [a === b]. *)
Lemma lt_not_eq (a b : float) : JS.lt a b = true -> JS.strict_eq a b = false.
Proof.
  unfold JS.lt, JS.strict_eq. rewrite ltb_spec, FloatAxioms.eqb_spec. unfold SFltb, SFeqb.
  destruct (SFcompare _ _) as [[]|]; congruence.
Qed.

(** A value above [b] is not at or below a bound [a === b]. *)
Lemma above_equal_bound (x a b : float) :
  JS.strict_eq a b = true -> JS.gt x b = true -> JS.le x a = false.
Proof.
  intros Heq Hgt. destruct (JS.le x a) eqn:Hle; [|reflexivity].
  pose proof (lt_le_trans b x a Hgt Hle) as Hlt.
  revert Heq Hlt. unfold JS.lt, JS.strict_eq. rewrite ltb_spec, FloatAxioms.eqb_spec.
  unfold SFltb, SFeqb. rewrite (SFcompare_antisym (Prim2SF a) (Prim2SF b)).
  destruct (SFcompare (Prim2SF a) _) as [[]|]; cbn; congruence.
Qed.

End FloatFacts.

(** ** Segment search *)

Module RangeSearchLoop.
Import AnimatedInterpolation RangeSearch.

Section Loop.
Variables (x : float) (inputRange : list float).
Let n := length inputRange.

(** The loop started at [i] with enough fuel stops where the scan of
    the remaining positions [i, ..., n-2] does. *)
Lemma findRange_loop_scan (fuel i : nat) :
  1 <= i -> i <= n - 1 -> n - 1 <= i + fuel ->
  findRange_loop fuel i x inputRange
  = default (n - 1) (List.find (geAt inputRange x) (seq i (n - 1 - i))).
Proof.
  revert i. induction fuel as [|fuel IH]; intros i Hi Hle Hfuel.
  - replace (n - 1 - i) with 0 by lia. cbn. lia.
  - cbn [findRange_loop]. fold n.
    destruct (Z.ltb_spec (Z.of_nat i) (Z.of_nat n - 1)) as [Hlt|Hge].
    + replace (n - 1 - i) with (S (n - 1 - S i)) by lia.
      cbn [seq List.find]. unfold geAt at 1.
      destruct (inputRange !! i) as [r|] eqn:Hr.
      * destruct (JS.ge r x); [reflexivity|]. apply IH; lia.
      * apply lookup_ge_None in Hr. fold n in Hr. lia.
    + replace (n - 1 - i) with 0 by lia. cbn. lia.
Qed.

(** More fuel than [n - 2] iterations changes nothing. *)
Lemma findRange_loop_fuel (fuel : nat) :
  2 <= n -> n - 2 <= fuel ->
  findRange_loop fuel 1 x inputRange = findRange_loop n 1 x inputRange.
Proof.
  intros Hn Hfuel. rewrite !findRange_loop_scan by lia. reflexivity.
Qed.

Lemma findRange_scan :
  2 <= n -> findRange x inputRange = firstGe_spec x inputRange - 1.
Proof.
  intros Hn. unfold findRange, firstGe_spec. fold n.
  rewrite findRange_loop_scan by lia.
  replace (n - 1 - 1) with (n - 2) by lia. reflexivity.
Qed.

Lemma firstGe_spec_range : 2 <= n -> 1 <= firstGe_spec x inputRange <= n - 1.
Proof.
  intros Hn. unfold firstGe_spec. fold n.
  destruct (List.find _ _) as [i|] eqn:Hfind; cbn; [|lia].
  apply find_some in Hfind as [Hin _]. apply in_seq in Hin. lia.
Qed.

Lemma findRange_bound : 2 <= n -> findRange x inputRange <= n - 2.
Proof.
  intros Hn. rewrite findRange_scan by assumption.
  pose proof (firstGe_spec_range Hn). lia.
Qed.

End Loop.

End RangeSearchLoop.

Module RangeSearchFacts.
Import AnimatedInterpolation RangeSearch.

Lemma find_seq_first (P : nat -> bool) (len start i : nat) :
  start <= i < start + len -> P i = true ->
  (forall j, start <= j < i -> P j = false) ->
  List.find P (seq start len) = Some i.
Proof.
  revert start. induction len as [|len IH]; intros start Hi HP Hbefore; [lia|].
  cbn. destruct (decide (start = i)) as [->|Hne].
  - now rewrite HP.
  - rewrite Hbefore by lia. apply IH; [lia|assumption|].
    intros j Hj. apply Hbefore. lia.
Qed.

Lemma find_seq_none (P : nat -> bool) (len start : nat) :
  (forall j, start <= j < start + len -> P j = false) ->
  List.find P (seq start len) = None.
Proof.
  revert start. induction len as [|len IH]; intros start HP; [reflexivity|].
  cbn. rewrite HP by lia. apply IH. intros j Hj. apply HP. lia.
Qed.

End RangeSearchFacts.

(** C2. For an input range of length [n >= 2] the selected segment is the
    first position [i] of the scan over [1, ..., n-2] with
    [inputRange[i] >= x], else [n-1], minus one: a tie or a low value stops
    the scan at the first such position, a value above every scanned
    position selects the last segment [n-2].  For [inputRange = [0,1,2]] and
    [outputRange = [10,20,30]] the input [1] selects segment [0] and maps to
    [20]. *)
Theorem segment_selection (x : float) (inputRange : list float) :
  2 <= length inputRange ->
  AnimatedInterpolation.findRange x inputRange
    = RangeSearch.firstGe_spec x inputRange - 1
  /\ (forall i, 1 <= i <= length inputRange - 2 ->
        RangeSearch.geAt inputRange x i = true ->
        (forall j, 1 <= j < i -> RangeSearch.geAt inputRange x j = false) ->
        AnimatedInterpolation.findRange x inputRange = i - 1)
  /\ ((forall j, 1 <= j <= length inputRange - 2 ->
         RangeSearch.geAt inputRange x j = false) ->
      AnimatedInterpolation.findRange x inputRange = length inputRange - 2)
  /\ AnimatedInterpolation.findRange 1 [0; 1; 2]%float = 0
  /\ (forall (Node : Type) (getValue : Node -> outcome JS.Primitive),
        AnimatedInterpolation.numericMapper getValue [0; 1; 2]%float
          (AnimatedInterpolation.Numbers [10; 20; 30]%float)
          AnimatedInterpolation.linear "extend" "extend" 1%float
        = Ok (Some (JS.PNumber 20))).
Proof.
  intros Hn. pose proof (RangeSearchLoop.findRange_scan x inputRange Hn) as Hscan.
  split; [exact Hscan|]. split; [|split; [|split]].
  - intros i Hi Hge Hbefore. rewrite Hscan. unfold RangeSearch.firstGe_spec.
    rewrite (RangeSearchFacts.find_seq_first _ _ 1 i); cbn; auto; lia.
  - intros Hnone. rewrite Hscan. unfold RangeSearch.firstGe_spec.
    rewrite RangeSearchFacts.find_seq_none; cbn; [lia|].
    intros j Hj. apply Hnone. lia.
  - vm_compute. reflexivity.
  - intros Node getValue. vm_compute. reflexivity.
Qed.

Lemma segment_selection_witness :
  AnimatedInterpolation.findRange 1 [0; 1; 2]%float
    = RangeSearch.firstGe_spec 1 [0; 1; 2]%float - 1.
Proof.
  apply (segment_selection 1 [0; 1; 2]%float). cbn. lia.
Defined.

(** ** Construction and evaluation of mappers *)

Module Construction.
Import AnimatedInterpolation.

Lemma bind_Ok {A B} (r : outcome A) (k : A -> outcome B) (b : B) :
  r ≫= k = Ok b -> exists a, r = Ok a /\ k a = Ok b.
Proof. destruct r as [a|e]; cbn; [eauto|discriminate]. Qed.

Lemma bind_Throw {A B} (r : outcome A) (k : A -> outcome B) (e : error) :
  r = Throw e -> r ≫= k = Throw e.
Proof. now intros ->. Qed.

Lemma invariant_Ok (c : bool) (msg : string) (u : unit) :
  invariant c msg = Ok u -> c = true.
Proof. destruct c; [reflexivity|discriminate]. Qed.

Lemma invariant_true (msg : string) : invariant true msg = Ok tt.
Proof. reflexivity. Qed.

Ltac inv_bind H :=
  let a := fresh "a" in
  let Ha := fresh "H" a in
  apply bind_Ok in H as (a & Ha & H).

Lemma checkInfiniteRange_length {Node} (name : string) (arr : list (@JSValue Node)) (u : unit) :
  checkInfiniteRange name arr = Ok u -> 2 <= length arr.
Proof.
  unfold checkInfiniteRange. intros H. inv_bind H.
  apply invariant_Ok in Ha. now apply Nat.leb_le in Ha.
Qed.

Lemma length_toValues {Node} (r : @OutputRange Node) :
  length (toValues r) = match r with
                        | Numbers l => length l
                        | Strings l => length l
                        | Nodes l => length l
                        end.
Proof. destruct r; cbn; now rewrite length_map. Qed.

(** On two numbers [interpolateValues] is [interpolate]. *)
Lemma interpolateValues_numbers (x a b oa ob : float) (easing : float -> float)
    (eL eR : ExtrapolateType) :
  interpolateValues x a b (JS.PNumber oa) (JS.PNumber ob) easing eL eR
  = JS.PNumber (interpolate x a b oa ob easing eL eR).
Proof.
  unfold interpolateValues, interpolate.
  destruct (extrapolateLeftStep x a eL) as [r|result]; [reflexivity|].
  destruct (extrapolateRightStep result b eR) as [r|result']; [reflexivity|].
  unfold mapSegmentValues, mapSegment.
  cbn [JS.strict_eq_values JS.strict_eq_number JS.add_value JS.ToNumber].
  repeat match goal with
         | |- context [if ?c then _ else _] => destruct c
         end; reflexivity.
Qed.

(** A validated mapper reads inside its arrays on every input: the
    entries of the selected segment exist, and the mapper is
    [interpolateValues] on the values the two output entries resolve to. *)
Lemma numericMapper_reads {Node} (getValue : Node -> outcome JS.Primitive)
    (inputRange : list float) (outputRange : OutputRange)
    (easing : float -> float) (eL eR : ExtrapolateType) (x : float) :
  2 <= length inputRange ->
  length inputRange = length (toValues outputRange) ->
  let i := findRange x inputRange in
  exists a b,
    inputRange !! i = Some a /\ inputRange !! (i + 1) = Some b
    /\ match outputRange with
       | Numbers l =>
         exists oa ob,
           l !! i = Some oa /\ l !! (i + 1) = Some ob
           /\ numericMapper getValue inputRange outputRange easing eL eR x
              = Ok (Some (JS.PNumber (interpolate x a b oa ob easing eL eR)))
       | Strings l =>
         exists s t,
           l !! i = Some s /\ l !! (i + 1) = Some t
           /\ numericMapper getValue inputRange outputRange easing eL eR x
              = Ok (Some (interpolateValues x a b (JS.PString s) (JS.PString t)
                            easing eL eR))
       | Nodes l =>
         exists n n',
           l !! i = Some n /\ l !! (i + 1) = Some n'
           /\ numericMapper getValue inputRange outputRange easing eL eR x
              = (oa ← getValue n; ob ← getValue n';
                 Ok (Some (interpolateValues x a b oa ob easing eL eR)))
       end.
Proof.
  intros Hn Hlen i.
  pose proof (RangeSearchLoop.findRange_bound x inputRange Hn) as Hi. fold i in Hi.
  rewrite length_toValues in Hlen.
  destruct (lookup_lt_is_Some_2 inputRange i) as [a Ha]; [lia|].
  destruct (lookup_lt_is_Some_2 inputRange (i + 1)) as [b Hb]; [lia|].
  exists a, b. split; [assumption|]. split; [assumption|].
  unfold numericMapper. fold i.
  destruct outputRange as [l|l|l].
  - destruct (lookup_lt_is_Some_2 l i) as [oa Hoa]; [lia|].
    destruct (lookup_lt_is_Some_2 l (i + 1)) as [ob Hob]; [lia|].
    exists oa, ob. split; [assumption|]. split; [assumption|].
    cbn [outputValueAt]. rewrite Hoa, Hob, Ha, Hb.
    cbn [mbind outcome_bind option_bind fmap option_fmap option_map].
    now rewrite interpolateValues_numbers.
  - destruct (lookup_lt_is_Some_2 l i) as [s Hs]; [lia|].
    destruct (lookup_lt_is_Some_2 l (i + 1)) as [t Ht]; [lia|].
    exists s, t. split; [assumption|]. split; [assumption|].
    cbn [outputValueAt]. rewrite Hs, Ht, Ha, Hb. reflexivity.
  - destruct (lookup_lt_is_Some_2 l i) as [n Hn1]; [lia|].
    destruct (lookup_lt_is_Some_2 l (i + 1)) as [n' Hn2]; [lia|].
    exists n, n'. split; [assumption|]. split; [assumption|].
    cbn [outputValueAt]. rewrite Hn1, Hn2, Ha, Hb.
    destruct (getValue n) as [oa|e]; [|reflexivity].
    destruct (getValue n') as [ob|e]; reflexivity.
Qed.

(** No operand of a validated mapper is read from an absent slot. *)
Lemma numericMapper_total {Node} (getValue : Node -> outcome JS.Primitive)
    (inputRange : list float) (outputRange : OutputRange)
    (easing : float -> float) (eL eR : ExtrapolateType) (x : float) :
  2 <= length inputRange ->
  length inputRange = length (toValues outputRange) ->
  numericMapper getValue inputRange outputRange easing eL eR x <> Ok None.
Proof.
  intros Hn Hlen.
  destruct (numericMapper_reads getValue inputRange outputRange easing eL eR x Hn Hlen)
    as (a & b & _ & _ & H).
  destruct outputRange as [l|l|l].
  - destruct H as (oa & ob & _ & _ & ->). discriminate.
  - destruct H as (s & t & _ & _ & ->). discriminate.
  - destruct H as (n & n' & _ & _ & ->).
    destruct (getValue n) as [oa|e]; [|discriminate].
    destruct (getValue n') as [ob|e]; discriminate.
Qed.

(** Over numbers it yields a number, and never throws. *)
Lemma numericMapper_number {Node} (getValue : Node -> outcome JS.Primitive)
    (inputRange l : list float)
    (easing : float -> float) (eL eR : ExtrapolateType) (x : float) :
  2 <= length inputRange ->
  length inputRange = length l ->
  exists v, numericMapper getValue inputRange (Numbers l) easing eL eR x
            = Ok (Some (JS.PNumber v)).
Proof.
  intros Hn Hlen.
  destruct (numericMapper_reads getValue inputRange (Numbers l) easing eL eR x Hn)
    as (a & b & _ & _ & oa & ob & _ & _ & ->); [cbn; now rewrite length_map|].
  eauto.
Qed.

Lemma createNumericInterpolation_Ok {Node} (getValue : Node -> outcome JS.Primitive)
    (config : InterpolationConfigType)
    (mapper : float -> outcome (option JS.Primitive)) :
  createNumericInterpolation getValue config = Ok mapper ->
  2 <= length config.(inputRange)
  /\ length config.(inputRange) = length (toValues config.(outputRange))
  /\ mapper = numericMapper getValue config.(inputRange) config.(outputRange)
                (default linear config.(easing))
                (resolveExtrapolate config.(extrapolateLeft) config.(extrapolate))
                (resolveExtrapolate config.(extrapolateRight) config.(extrapolate)).
Proof.
  unfold createNumericInterpolation. intros H.
  inv_bind H. inv_bind H. inv_bind H. inv_bind H.
  apply checkInfiniteRange_length in Ha0. rewrite length_map in Ha0.
  apply invariant_Ok, Nat.eqb_eq in Ha2.
  injection H as <-. auto.
Qed.

End Construction.

Module StringShapeFacts.
Import AnimatedInterpolation Construction StringShape.

Lemma mapM_Ok {A B} (f : A -> outcome B) (xs : list A) (ys : list B) :
  mapM f xs = Ok ys <-> Forall2 (fun x y => f x = Ok y) xs ys.
Proof.
  revert ys. induction xs as [|x xs IH]; intros ys; cbn.
  - split; [intros [= <-]; constructor|intros H; inversion H; reflexivity].
  - split.
    + intros H. inv_bind H. inv_bind H. injection H as <-.
      constructor; [assumption|now apply IH].
    + intros H. inversion H as [|? y ? ys' Hy Hys]; subst.
      rewrite Hy. cbn. apply IH in Hys. rewrite Hys. reflexivity.
Qed.

Lemma pushAt_Ok (ors ors' : list (list float)) (i : nat) (x : float) :
  pushAt ors i x = Ok ors' ->
  length ors' = length ors
  /\ i < length ors
  /\ forall j, ors' !! j
       = (fun ch => if decide (j = i) then ch ++ [x] else ch) <$> ors !! j.
Proof.
  unfold pushAt. destruct (ors !! i) as [ch|] eqn:Hi; [|discriminate].
  intros [= <-]. pose proof (lookup_lt_Some _ _ _ Hi) as Hlt.
  rewrite length_insert. split; [reflexivity|]. split; [assumption|].
  intros j. destruct (decide (j = i)) as [->|Hne].
  - rewrite list_lookup_insert_eq by assumption. now rewrite Hi.
  - rewrite list_lookup_insert_ne by congruence.
    destruct (ors !! j); reflexivity.
Qed.

Lemma pushMatches_Ok (matches : list string) :
  forall (ors ors' : list (list float)) (i : nat),
  pushMatches ors i matches = Ok ors' ->
  length ors' = length ors
  /\ i + length matches <= max i (length ors)
  /\ forall j, ors' !! j = (fun ch => ch ++ pushed i matches j) <$> ors !! j.
Proof.
  induction matches as [|m ms IH]; intros ors ors' i H; cbn in H.
  - injection H as <-. split; [reflexivity|]. split; [cbn; lia|].
    intros j. unfold pushed. destruct (ors !! j) as [ch|]; cbn; [|reflexivity].
    destruct (decide _); cbn; rewrite ?lookup_nil; cbn; now rewrite app_nil_r.
  - inv_bind H. apply pushAt_Ok in Ha as (Hlen & Hi & Hget).
    apply IH in H as (Hlen' & Hbound & Hget').
    split; [congruence|]. split; [cbn; lia|].
    intros j. rewrite Hget', Hget. destruct (ors !! j) as [ch|]; cbn; [|reflexivity].
    f_equal. unfold pushed.
    destruct (decide (j = i)) as [->|Hne].
    + rewrite decide_False by lia. rewrite decide_True by lia.
      rewrite Nat.sub_diag. cbn. now rewrite app_nil_r.
    + f_equal. destruct (decide (S i <= j)) as [Hle|Hgt].
      * rewrite decide_True by lia.
        replace (j - i) with (S (j - S i)) by lia. reflexivity.
      * destruct (decide (i <= j)); [lia|reflexivity].
Qed.

Lemma pushMatches_succeeds (matches : list string) :
  forall (ors : list (list float)) (i : nat),
  i + length matches <= length ors ->
  exists ors', pushMatches ors i matches = Ok ors'.
Proof.
  induction matches as [|m ms IH]; intros ors i Hle; cbn; [eauto|].
  cbn in Hle. unfold pushAt.
  destruct (lookup_lt_is_Some_2 ors i) as [ch ->]; [lia|]. cbn.
  apply IH. rewrite length_insert. lia.
Qed.

Lemma collectChannels_Ok (values : list string) :
  forall (ors ors' : list (list float)),
  collectChannels ors values = Ok ors' ->
  length ors' = length ors
  /\ Forall (fun s => exists ms, matchShape s = Some ms /\ length ms <= length ors) values
  /\ forall j, ors' !! j = (fun ch => ch ++ channelAt j values) <$> ors !! j.
Proof.
  induction values as [|s values IH]; intros ors ors' H; cbn in H.
  - injection H as <-. split; [reflexivity|]. split; [constructor|].
    intros j. destruct (ors !! j); cbn; now rewrite ?app_nil_r.
  - destruct (matchShape s) as [ms|] eqn:Hms; [|discriminate].
    inv_bind H. apply pushMatches_Ok in Ha as (Hlen & Hbound & Hget).
    apply IH in H as (Hlen' & Hall & Hget').
    assert (matchesOf (shapePieces s) = ms) as Hms'.
    { unfold matchShape in Hms. destruct (matchesOf _); congruence. }
    assert (ms <> []) as Hne.
    { unfold matchShape in Hms. destruct (matchesOf _); congruence. }
    split; [congruence|]. split.
    + constructor.
      * exists ms. split; [assumption|].
        destruct ms; [congruence|]. cbn in *. lia.
      * eapply Forall_impl; [exact Hall|]. cbn. intros ? (ms' & ? & ?).
        exists ms'. split; [assumption|lia].
    + intros j. rewrite Hget', Hget.
      destruct (ors !! j) as [ch|]; cbn; [|reflexivity].
      f_equal. rewrite <- app_assoc. f_equal.
      unfold channelAt, pushed. cbn [omap]. fold (channelAt j values).
      rewrite Hms'. rewrite decide_True by lia. rewrite Nat.sub_0_r.
      destruct (ms !! j); reflexivity.
Qed.

Lemma collectChannels_succeeds (values : list string) :
  forall (ors : list (list float)),
  Forall (fun s => matchesOf (shapePieces s) <> []
                   /\ length (matchesOf (shapePieces s)) <= length ors) values ->
  exists ors', collectChannels ors values = Ok ors'.
Proof.
  induction values as [|s values IH]; intros ors Hall; cbn; [eauto|].
  inversion Hall as [|? ? [Hne Hle] Hall']; subst.
  unfold matchShape. destruct (matchesOf (shapePieces s)) as [|m ms] eqn:Hms; [congruence|].
  destruct (pushMatches_succeeds (m :: ms) ors 0) as [ors1 Hpush]; [cbn in *; lia|].
  rewrite Hpush. cbn.
  apply IH. apply pushMatches_Ok in Hpush as (Hlen & _ & _). now rewrite Hlen.
Qed.

End StringShapeFacts.

Module StringOutputFacts.
Import AnimatedInterpolation Construction StringShape StringOutput.

Lemma replaceMatch_Some
    (interpolations : list (float -> outcome (option JS.Primitive)))
    (rgb : bool) (x : float) (i : nat)
    (f : float -> outcome (option JS.Primitive)) (v : float) :
  interpolations !! i = Some f -> f x = Ok (Some (JS.PNumber v)) ->
  replaceMatch interpolations rgb x i = Ok (Some (S i, formatChannel rgb i v)).
Proof.
  intros Hf Hfx. unfold replaceMatch. rewrite Hf. cbv zeta. rewrite Hfx. reflexivity.
Qed.

(** A replacer that, with its counter at [i + j], yields the text of the
    [j]-th value and steps its counter rewrites the matches in order. *)
Lemma replacePieces_texts (replacer : nat -> outcome (option (nat * string)))
    (text : nat -> float -> string) (pieces : list piece) :
  forall (i : nat) (vals : list float),
  length vals = length (matchesOf pieces) ->
  (forall j v, vals !! j = Some v ->
     replacer (i + j) = Ok (Some (S (i + j), text (i + j) v))) ->
  replacePieces replacer i pieces
  = Ok (Some (substitute pieces (imap (fun j => text (i + j)) vals))).
Proof.
  induction pieces as [|[c|m] pieces IH]; intros i vals Hlen Hvals.
  - reflexivity.
  - cbn [replacePieces substitute]. rewrite (IH i vals) by assumption. reflexivity.
  - destruct vals as [|v vals]; [discriminate|]. cbn in Hlen.
    cbn [replacePieces].
    pose proof (Hvals 0 v eq_refl) as Hv. rewrite Nat.add_0_r in Hv.
    rewrite Hv. cbn [mbind outcome_bind].
    assert (imap (fun j => text (i + j)) (v :: vals)
            = text i v :: imap (fun j => text (S i + j)) vals) as ->.
    { cbn [imap]. rewrite Nat.add_0_r. f_equal.
      apply imap_ext. intros j v' _. unfold compose.
      now rewrite Nat.add_succ_r. }
    rewrite (IH (S i) vals).
    + reflexivity.
    + injection Hlen as Hlen. exact Hlen.
    + intros j v' Hj. pose proof (Hvals (S j) v' Hj) as Hj'.
      rewrite Nat.add_succ_r in Hj'. exact Hj'.
Qed.

(** The replacer of the source with its counter at [i] rewrites the
    remaining matches with the formatted values of the channels [i],
    [i+1], ... *)
Lemma replacePieces_substitute
    (interpolations : list (float -> outcome (option JS.Primitive)))
    (rgb : bool) (x : float) (pieces : list piece) :
  forall (i : nat) (vals : list float),
  length vals = length (matchesOf pieces) ->
  (forall j v, vals !! j = Some v ->
     exists f, interpolations !! (i + j) = Some f /\ f x = Ok (Some (JS.PNumber v))) ->
  replacePieces (replaceMatch interpolations rgb x) i pieces
  = Ok (Some (substitute pieces (imap (fun j => formatChannel rgb (i + j)) vals))).
Proof.
  intros i vals Hlen Hvals. apply replacePieces_texts; [assumption|].
  intros j v Hj. destruct (Hvals j v Hj) as (f & Hf & Hfx).
  apply (replaceMatch_Some _ _ _ _ _ _ Hf Hfx).
Qed.

End StringOutputFacts.

Module StringConstruction.
Import AnimatedInterpolation Construction StringShape StringShapeFacts.
Import StringOutput StringOutputFacts.

Section WithEnvironment.
Context {Node : Type} (getValue : Node -> outcome JS.Primitive)
        (normalizeColor : string -> option Z).

Lemma matchShape_Some (s : string) (ms : list string) :
  matchShape s = Some ms <-> matchesOf (shapePieces s) = ms /\ ms <> [].
Proof.
  unfold matchShape. destruct (matchesOf (shapePieces s)) as [|m ms']; split.
  - discriminate.
  - intros [H1 H2]. congruence.
  - intros [= <-]. split; [reflexivity|discriminate].
  - intros [H1 H2]. congruence.
Qed.

(** What a successful construction over a string output range has
    established and built. *)
Lemma createInterpolationFromStringOutputRange_Ok
    (config : InterpolationConfigType) (strings : list string)
    (mapper : float -> outcome (option string)) :
  createInterpolationFromStringOutputRange getValue normalizeColor config strings
    = Ok mapper ->
  let normalized := map (colorToRgba normalizeColor) strings in
  2 <= length strings
  /\ checkPattern normalized = Ok tt
  /\ exists template interpolations,
       head normalized = Some template
       /\ matchesOf (shapePieces template) <> []
       /\ length interpolations = length (matchesOf (shapePieces template))
       /\ (forall j f, interpolations !! j = Some f ->
             createNumericInterpolation getValue
               (withOutputRange config (Numbers (channelAt j normalized))) = Ok f)
       /\ mapper = stringMapper template interpolations (isRgbOrRgba template).
Proof.
  intros H normalized. unfold createInterpolationFromStringOutputRange in H.
  inv_bind H. apply invariant_Ok, Nat.leb_le in Ha.
  inv_bind H. destruct a0. fold normalized in Ha0, H.
  split; [assumption|]. split; [assumption|].
  destruct (head normalized) as [template|] eqn:Hhead; [|discriminate].
  destruct (matchShape template) as [firstMatches|] eqn:Hfirst; [|discriminate].
  apply matchShape_Some in Hfirst as [Hfirst Hne].
  inv_bind H. inv_bind H. injection H as <-.
  rename a0 into outputRanges, a1 into interpolations.
  apply collectChannels_Ok in Ha1 as (Hlen & _ & Hget).
  apply mapM_Ok in Ha2.
  exists template, interpolations. split; [reflexivity|].
  split; [congruence|]. split.
  - rewrite <- (Forall2_length _ _ _ Ha2), Hlen, length_map. congruence.
  - split; [|reflexivity]. intros j f Hj.
    destruct (Forall2_lookup_r _ _ _ _ _ Ha2 Hj) as (channel & Hchannel & Hf).
    rewrite Hget in Hchannel. rewrite list_lookup_fmap in Hchannel.
    destruct (firstMatches !! j); cbn in Hchannel; [|discriminate].
    injection Hchannel as <-. exact Hf.
Qed.

(** Every channel mapper of a successful construction answers. *)
Lemma channel_values (config : InterpolationConfigType)
    (normalized : list string)
    (interpolations : list (float -> outcome (option JS.Primitive)))
    (x : float) :
  (forall j f, interpolations !! j = Some f ->
     createNumericInterpolation getValue
       (withOutputRange config (Numbers (channelAt j normalized))) = Ok f) ->
  exists vals,
    length vals = length interpolations
    /\ forall j v, vals !! j = Some v ->
         exists f, interpolations !! j = Some f
           /\ f x = Ok (Some (JS.PNumber v))
           /\ f = numericMapper getValue config.(inputRange)
                    (Numbers (channelAt j normalized))
                    (default linear config.(easing))
                    (resolveExtrapolate config.(extrapolateLeft) config.(extrapolate))
                    (resolveExtrapolate config.(extrapolateRight) config.(extrapolate)).
Proof.
  revert normalized.
  induction interpolations as [|f fs IH] using rev_ind; intros normalized Hall.
  - exists []. split; [reflexivity|]. intros j v Hj. now rewrite lookup_nil in Hj.
  - destruct (IH normalized) as (vals & Hlen & Hvals).
    { intros j g Hj. apply Hall. rewrite lookup_app_l; [assumption|].
      eauto using lookup_lt_Some. }
    pose proof (Hall (length fs) f) as Hf.
    rewrite list_lookup_middle in Hf by reflexivity. specialize (Hf eq_refl).
    apply createNumericInterpolation_Ok in Hf as (Hn & Hlens & Hf). cbn in *.
    rewrite length_map in Hlens.
    destruct (numericMapper_number getValue config.(inputRange)
                (channelAt (length fs) normalized)
                (default linear config.(easing))
                (resolveExtrapolate config.(extrapolateLeft) config.(extrapolate))
                (resolveExtrapolate config.(extrapolateRight) config.(extrapolate))
                x Hn Hlens) as [v Hv].
    exists (vals ++ [v]). split; [rewrite !length_app; cbn; lia|].
    intros j w Hj. destruct (decide (j < length vals)) as [Hlt|Hge].
    + rewrite lookup_app_l in Hj by assumption.
      destruct (Hvals j w Hj) as (g & Hg & Hgx & Heq).
      exists g. rewrite lookup_app_l by lia. auto.
    + rewrite lookup_app_r in Hj by lia.
      destruct (j - length vals) as [|k] eqn:Hk; cbn in Hj; [|discriminate].
      injection Hj as <-. assert (j = length fs) as -> by lia.
      exists f. rewrite list_lookup_middle by reflexivity.
      split; [reflexivity|]. split; [|assumption]. now rewrite Hf.
Qed.

End WithEnvironment.

End StringConstruction.


Module StringEvaluation.
Import AnimatedInterpolation.

(** The value of a mapper built over a string output range. *)
Lemma stringMapper_evaluates :
  forall (Node : Type) (getValue : Node -> outcome JS.Primitive)
         (normalizeColor : string -> option Z)
         (config : InterpolationConfigType)
         (strings : list string) (mapper : float -> outcome (option string)),
  createInterpolationFromStringOutputRange getValue normalizeColor config strings
    = Ok mapper ->
  let normalized := map (colorToRgba normalizeColor) strings in
  exists template,
    head normalized = Some template
    /\ forall x, exists vals,
         length vals = length (matchesOf (shapePieces template))
         /\ (forall j v, vals !! j = Some v ->
               numericMapper getValue config.(inputRange)
                 (Numbers (StringShape.channelAt j normalized))
                 (default linear config.(easing))
                 (resolveExtrapolate config.(extrapolateLeft) config.(extrapolate))
                 (resolveExtrapolate config.(extrapolateRight) config.(extrapolate))
                 x = Ok (Some (JS.PNumber v)))
         /\ mapper x
            = Ok (Some (StringOutput.substitute (shapePieces template)
                          (imap (StringOutput.formatChannel (isRgbOrRgba template))
                                vals))).
Proof.
  intros Node getValue normalizeColor config strings mapper H normalized.
  apply StringConstruction.createInterpolationFromStringOutputRange_Ok in H
    as (_ & _ & template & interpolations & Hhead & _ & Hlen & Hall & ->).
  exists template. split; [exact Hhead|]. intros x.
  destruct (StringConstruction.channel_values getValue config _ interpolations x Hall)
    as (vals & Hvals & Hget).
  exists vals. split; [congruence|]. split.
  - intros j v Hj. destruct (Hget j v Hj) as (f & _ & Hfx & ->). exact Hfx.
  - unfold stringMapper.
    rewrite (StringOutputFacts.replacePieces_substitute _ _ _ _ 0 vals).
    + reflexivity.
    + congruence.
    + intros j v Hj. destruct (Hget j v Hj) as (f & Hf & Hfx & _). eauto.
Qed.

End StringEvaluation.

(** C6. A mapper built over a string output range rewrites the first
    colour-normalized template: every numeric token, from left to right, is
    replaced by the value its channel's mapper gives, rounded to an integer
    for the first three channels when the template starts with [rgb] and to
    three decimals otherwise, and printed.  Over [inputRange = [0,1]] the
    range [["rgba(0,0,0,0)", "rgba(255,255,255,1)"]] maps [0.5] to
    ["rgba(128, 128, 128, 0.5)"]. *)
Theorem string_output_evaluation :
  (forall (Node : Type) (getValue : Node -> outcome JS.Primitive)
          (normalizeColor : string -> option Z)
          (config : AnimatedInterpolation.InterpolationConfigType)
          (strings : list string) (mapper : float -> outcome (option string)),
     AnimatedInterpolation.createInterpolationFromStringOutputRange
       getValue normalizeColor config strings = Ok mapper ->
     let normalized := map (AnimatedInterpolation.colorToRgba normalizeColor) strings in
     exists template,
       head normalized = Some template
       /\ forall x, exists vals,
            length vals
              = length (AnimatedInterpolation.matchesOf
                          (AnimatedInterpolation.shapePieces template))
            /\ (forall j v, vals !! j = Some v ->
                  AnimatedInterpolation.numericMapper getValue
                    config.(AnimatedInterpolation.inputRange)
                    (AnimatedInterpolation.Numbers (StringShape.channelAt j normalized))
                    (default AnimatedInterpolation.linear
                       config.(AnimatedInterpolation.easing))
                    (AnimatedInterpolation.resolveExtrapolate
                       config.(AnimatedInterpolation.extrapolateLeft)
                       config.(AnimatedInterpolation.extrapolate))
                    (AnimatedInterpolation.resolveExtrapolate
                       config.(AnimatedInterpolation.extrapolateRight)
                       config.(AnimatedInterpolation.extrapolate))
                    x = Ok (Some (JS.PNumber v)))
            /\ mapper x
               = Ok (Some (StringOutput.substitute
                             (AnimatedInterpolation.shapePieces template)
                             (imap (StringOutput.formatChannel
                                      (AnimatedInterpolation.isRgbOrRgba template))
                                   vals))))
  /\ (forall (Node : Type) (getValue : Node -> outcome JS.Primitive)
             (normalizeColor : string -> option Z),
        normalizeColor "rgba(0,0,0,0)" = Some 0%Z ->
        normalizeColor "rgba(255,255,255,1)" = Some 0xffffffff%Z ->
        AnimatedInterpolation.evaluate getValue normalizeColor
          (Samples.config [0; 1]%float
             (AnimatedInterpolation.Strings ["rgba(0,0,0,0)"; "rgba(255,255,255,1)"])
             None None)
          0.5%float
        = Ok (Some (AnimatedInterpolation.VString "rgba(128, 128, 128, 0.5)"))).
Proof.
  split; [exact StringEvaluation.stringMapper_evaluates|].
  intros Node getValue normalizeColor Hblack Hwhite.
  assert (AnimatedInterpolation.colorToRgba normalizeColor "rgba(0,0,0,0)"
          = "rgba(0, 0, 0, 0)") as Hb.
  { unfold AnimatedInterpolation.colorToRgba. rewrite Hblack. vm_compute. reflexivity. }
  assert (AnimatedInterpolation.colorToRgba normalizeColor "rgba(255,255,255,1)"
          = "rgba(255, 255, 255, 1)") as Hw.
  { unfold AnimatedInterpolation.colorToRgba. rewrite Hwhite. vm_compute. reflexivity. }
  unfold AnimatedInterpolation.evaluate, AnimatedInterpolation.createInterpolation,
    Samples.config.
  cbn [AnimatedInterpolation.outputRange].
  unfold AnimatedInterpolation.createInterpolationFromStringOutputRange.
  cbn [map]. rewrite Hb, Hw.
  vm_compute. reflexivity.
Qed.

Lemma string_output_evaluation_witness :
  (exists mapper template,
     AnimatedInterpolation.createInterpolationFromStringOutputRange
       Samples.zeroNodes Samples.twoColors Samples.fade Samples.fadeStrings = Ok mapper
     /\ head (map (AnimatedInterpolation.colorToRgba Samples.twoColors)
                Samples.fadeStrings) = Some template
     /\ exists vals,
          mapper 0.5%float
          = Ok (Some (StringOutput.substitute
                        (AnimatedInterpolation.shapePieces template)
                        (imap (StringOutput.formatChannel
                                 (AnimatedInterpolation.isRgbOrRgba template))
                              vals))))
  /\ AnimatedInterpolation.evaluate Samples.zeroNodes Samples.twoColors Samples.fade
       0.5%float
     = Ok (Some (AnimatedInterpolation.VString "rgba(128, 128, 128, 0.5)")).
Proof.
  split.
  - destruct (AnimatedInterpolation.createInterpolationFromStringOutputRange
                Samples.zeroNodes Samples.twoColors Samples.fade Samples.fadeStrings)
      as [mapper|e] eqn:E.
    + destruct (proj1 string_output_evaluation unit Samples.zeroNodes
                  Samples.twoColors Samples.fade Samples.fadeStrings mapper E)
        as (template & Hhead & Hmap).
      exists mapper, template. split; [reflexivity|]. split; [exact Hhead|].
      destruct (Hmap 0.5%float) as (vals & _ & _ & Hvalue). eauto.
    + apply (f_equal is_ok) in E. vm_compute in E. discriminate E.
  - apply (proj2 string_output_evaluation unit Samples.zeroNodes Samples.twoColors);
      reflexivity.
Defined.

Module Totality.
Import AnimatedInterpolation Construction.

Section WithEnvironment.
Context {Node : Type} (getValue : Node -> outcome JS.Primitive)
        (normalizeColor : string -> option Z).

(** The mapper of a configuration that is not sent to the string branch. *)
Lemma createInterpolation_numeric (config : InterpolationConfigType)
    (mapper : float -> outcome (option JSValue)) :
  createInterpolation getValue normalizeColor config = Ok mapper ->
  (forall first rest, config.(outputRange) <> Strings (first :: rest)) ->
  2 <= length config.(inputRange)
  /\ length config.(inputRange) = length (toValues config.(outputRange))
  /\ forall x,
       mapper x
       = (value ← numericMapper getValue config.(inputRange) config.(outputRange)
                    (default linear config.(easing))
                    (resolveExtrapolate config.(extrapolateLeft) config.(extrapolate))
                    (resolveExtrapolate config.(extrapolateRight) config.(extrapolate))
                    x;
          Ok (ofPrimitive <$> (value : option JS.Primitive))).
Proof.
  unfold createInterpolation. intros H Hrange.
  assert (exists m, createNumericInterpolation getValue config = Ok m
                    /\ mapper = fun input : float =>
                                  value ← m input;
                                  Ok (ofPrimitive <$> (value : option JS.Primitive)))
    as (m & Hm & ->).
  { destruct config.(outputRange) as [l|[|first rest]|l];
      try (inv_bind H; injection H as <-; eauto).
    now destruct (Hrange first rest). }
  apply createNumericInterpolation_Ok in Hm as (Hn & Hlen & ->). auto.
Qed.

(** No operand of a constructed mapper is read from an absent slot. *)
Lemma createInterpolation_reads (config : InterpolationConfigType)
    (mapper : float -> outcome (option JSValue)) :
  createInterpolation getValue normalizeColor config = Ok mapper ->
  forall x, mapper x <> Ok None.
Proof.
  intros H x.
  destruct config.(outputRange) as [l|[|first rest]|l] eqn:Hrange.
  1, 2, 4:
    destruct (createInterpolation_numeric config mapper H) as (Hn & Hlen & ->);
      [rewrite Hrange; discriminate|];
    pose proof (numericMapper_total getValue config.(inputRange) config.(outputRange)
                  (default linear config.(easing))
                  (resolveExtrapolate config.(extrapolateLeft) config.(extrapolate))
                  (resolveExtrapolate config.(extrapolateRight) config.(extrapolate))
                  x Hn Hlen) as Hsome;
    destruct (numericMapper _ _ _ _ _ _ x) as [[v|]|e]; try discriminate;
    now destruct Hsome.
  unfold createInterpolation in H. rewrite Hrange in H.
  inv_bind H. injection H as <-.
  apply StringEvaluation.stringMapper_evaluates in Ha as (template & _ & Hmap).
  destruct (Hmap x) as (vals & _ & _ & ->). discriminate.
Qed.

(** Over numbers and over strings a constructed mapper returns a value. *)
Lemma createInterpolation_total (config : InterpolationConfigType)
    (mapper : float -> outcome (option JSValue)) :
  createInterpolation getValue normalizeColor config = Ok mapper ->
  (forall l, config.(outputRange) <> Nodes l) ->
  forall x, exists v, mapper x = Ok (Some v).
Proof.
  intros H Hnodes x.
  destruct config.(outputRange) as [l|[|first rest]|l] eqn:Hrange.
  - destruct (createInterpolation_numeric config mapper H) as (Hn & Hlen & ->);
      [rewrite Hrange; discriminate|].
    rewrite Hrange in *. cbn in Hlen. rewrite length_map in Hlen.
    destruct (numericMapper_number getValue config.(inputRange) l
                (default linear config.(easing))
                (resolveExtrapolate config.(extrapolateLeft) config.(extrapolate))
                (resolveExtrapolate config.(extrapolateRight) config.(extrapolate))
                x Hn Hlen) as [v ->].
    cbn. eauto.
  - destruct (createInterpolation_numeric config mapper H) as (Hn & Hlen & _);
      [rewrite Hrange; discriminate|].
    rewrite Hrange in Hlen. cbn in Hlen. lia.
  - unfold createInterpolation in H. rewrite Hrange in H.
    inv_bind H. injection H as <-.
    apply StringEvaluation.stringMapper_evaluates in Ha as (template & _ & Hmap).
    destruct (Hmap x) as (vals & _ & _ & ->). cbn. eauto.
  - now destruct (Hnodes l).
Qed.

(** Over nodes it reads the two nodes of the selected segment, in order,
    and throws what the first failing read throws. *)
Lemma createInterpolation_nodes (config : InterpolationConfigType)
    (mapper : float -> outcome (option JSValue)) (l : list Node) :
  createInterpolation getValue normalizeColor config = Ok mapper ->
  config.(outputRange) = Nodes l ->
  forall x,
    let i := findRange x config.(inputRange) in
    exists a b n n',
      config.(inputRange) !! i = Some a /\ config.(inputRange) !! (i + 1) = Some b
      /\ l !! i = Some n /\ l !! (i + 1) = Some n'
      /\ mapper x
         = (outputStartValue ← getValue n;
            outputEndValue ← getValue n';
            Ok (Some (ofPrimitive
                        (interpolateValues x a b outputStartValue outputEndValue
                           (default linear config.(easing))
                           (resolveExtrapolate config.(extrapolateLeft)
                              config.(extrapolate))
                           (resolveExtrapolate config.(extrapolateRight)
                              config.(extrapolate)))))).
Proof.
  intros H Hrange x i.
  destruct (createInterpolation_numeric config mapper H) as (Hn & Hlen & ->);
    [rewrite Hrange; discriminate|].
  destruct (numericMapper_reads getValue config.(inputRange) config.(outputRange)
              (default linear config.(easing))
              (resolveExtrapolate config.(extrapolateLeft) config.(extrapolate))
              (resolveExtrapolate config.(extrapolateRight) config.(extrapolate))
              x Hn Hlen) as (a & b & Ha & Hb & Hread).
  rewrite Hrange in Hread. destruct Hread as (n & n' & Hn1 & Hn2 & Hvalue).
  exists a, b, n, n'. repeat (split; [assumption|]).
  rewrite Hrange, Hvalue.
  destruct (getValue n) as [oa|e]; [|reflexivity].
  destruct (getValue n') as [ob|e]; reflexivity.
Qed.

End WithEnvironment.

End Totality.

(** C10, as stated, fails for an output range of nodes: the evaluation
    calls [__getValue()] of the two nodes of the selected segment, and that
    call throws when the node is an interpolation node whose own parent
    does not yield a number (line 345).  The mapper over [[0, 1]] and two
    such nodes is constructed and throws at [0.5]. *)
Lemma evaluation_in_bounds_counterexample :
  ~ (forall mapper,
       AnimatedInterpolation.createInterpolation Samples.textParented Samples.twoColors
         (Samples.config [0; 1]%float (AnimatedInterpolation.Nodes [tt; tt]) None None)
       = Ok mapper ->
       forall x, exists v, mapper x = Ok (Some v)).
Proof.
  destruct (AnimatedInterpolation.createInterpolation Samples.textParented
              Samples.twoColors
              (Samples.config [0; 1]%float (AnimatedInterpolation.Nodes [tt; tt])
                 None None)) as [mapper|e] eqn:E.
  - intros H. destruct (H mapper eq_refl 0.5%float) as [v Hv].
    destruct (Totality.createInterpolation_nodes _ _ _ _ [tt; tt] E eq_refl 0.5%float)
      as (a & b & n & n' & _ & _ & _ & _ & Hvalue).
    rewrite Hvalue in Hv. destruct n. discriminate Hv.
  - apply (f_equal is_ok) in E. vm_compute in E. discriminate E.
Qed.

(** C10, amended. For every number [x], NaN and the infinities included,
    and every input range of length [n >= 2], the segment search returns an
    index [i] with [0 <= i <= n - 2]; the reads at [i] and [i + 1] of the
    input range and of an output range of the same length are inside the
    arrays.  A mapper that was constructed reads no absent slot on any
    numeric input; over numbers or strings it returns a value on every
    input; over nodes it returns a value when the two nodes of the selected
    segment yield theirs, and throws what the first failing node throws. *)
Theorem evaluation_in_bounds :
  (forall (x : float) (inputRange : list float),
     2 <= length inputRange ->
     let i := AnimatedInterpolation.findRange x inputRange in
     0 <= i <= length inputRange - 2
     /\ is_Some (inputRange !! i) /\ is_Some (inputRange !! (i + 1))
     /\ forall (A : Type) (outputRange : list A),
          length outputRange = length inputRange ->
          is_Some (outputRange !! i) /\ is_Some (outputRange !! (i + 1)))
  /\ (forall (Node : Type) (getValue : Node -> outcome JS.Primitive)
             (normalizeColor : string -> option Z)
             (config : AnimatedInterpolation.InterpolationConfigType)
             (mapper : float -> outcome (option AnimatedInterpolation.JSValue)),
        AnimatedInterpolation.createInterpolation getValue normalizeColor config
          = Ok mapper ->
        forall x,
          mapper x <> Ok None
          /\ ((forall l, config.(AnimatedInterpolation.outputRange)
                          <> AnimatedInterpolation.Nodes l) ->
              exists v, mapper x = Ok (Some v))
          /\ (forall l, config.(AnimatedInterpolation.outputRange)
                          = AnimatedInterpolation.Nodes l ->
              let i := AnimatedInterpolation.findRange x
                         config.(AnimatedInterpolation.inputRange) in
              exists n n',
                l !! i = Some n /\ l !! (i + 1) = Some n'
                /\ match getValue n, getValue n' with
                   | Ok _, Ok _ => exists v, mapper x = Ok (Some v)
                   | Ok _, Throw e => mapper x = Throw e
                   | Throw e, _ => mapper x = Throw e
                   end)).
Proof.
  split.
  - intros x inputRange Hn i.
    pose proof (RangeSearchLoop.findRange_bound x inputRange Hn) as Hi. fold i in Hi.
    split; [lia|]. split; [apply lookup_lt_is_Some; lia|].
    split; [apply lookup_lt_is_Some; lia|].
    intros A outputRange Hlen. split; apply lookup_lt_is_Some; lia.
  - intros Node getValue normalizeColor config mapper H x.
    split; [now apply (Totality.createInterpolation_reads getValue normalizeColor config)|].
    split.
    + intros Hnodes.
      now apply (Totality.createInterpolation_total getValue normalizeColor config).
    + intros l Hrange i.
      destruct (Totality.createInterpolation_nodes getValue normalizeColor config
                  mapper l H Hrange x)
        as (a & b & n & n' & _ & _ & Hn1 & Hn2 & ->).
      exists n, n'. split; [assumption|]. split; [assumption|].
      destruct (getValue n) as [oa|e]; [|reflexivity].
      destruct (getValue n') as [ob|e]; [|reflexivity].
      cbn. eauto.
Qed.

Lemma evaluation_in_bounds_witness :
  (0 <= AnimatedInterpolation.findRange nan [0; 1; 2]%float <= 1)
  /\ exists mapper,
       AnimatedInterpolation.createInterpolation Samples.zeroNodes Samples.twoColors
         Samples.fade = Ok mapper
       /\ exists v, mapper infinity = Ok (Some v).
Proof.
  split.
  - apply (proj1 evaluation_in_bounds nan [0; 1; 2]%float). cbn. lia.
  - destruct (AnimatedInterpolation.createInterpolation Samples.zeroNodes
                Samples.twoColors Samples.fade) as [mapper|e] eqn:E.
    + exists mapper. split; [reflexivity|].
      apply (proj2 evaluation_in_bounds unit Samples.zeroNodes Samples.twoColors
               Samples.fade mapper E infinity).
      discriminate.
    + apply (f_equal is_ok) in E. vm_compute in E. discriminate E.
Defined.

(** ** The range mapper on one segment *)

Module ExtrapolationFacts.
Import AnimatedInterpolation Extrapolation.

Section Segment.
Variables (x inputMin inputMax outputMin outputMax : float).
Variable easing : float -> float.
Variables (eL eR : ExtrapolateType).

Lemma interpolate_extrapolated :
  interpolate x inputMin inputMax outputMin outputMax easing eL eR
  = match extrapolated x inputMin inputMax eL eR with
    | Return r => r
    | Next result =>
      mapSegment x result inputMin inputMax outputMin outputMax easing
    end.
Proof.
  unfold interpolate, extrapolated.
  destruct (extrapolateLeftStep x inputMin eL); reflexivity.
Qed.

Lemma left_identity :
  JS.lt x inputMin = true ->
  interpolate x inputMin inputMax outputMin outputMax easing "identity" eR = x.
Proof. intros H. unfold interpolate, extrapolateLeftStep. now rewrite H. Qed.

Lemma left_clamp :
  JS.lt x inputMin = true ->
  interpolate x inputMin inputMax outputMin outputMax easing "clamp" eR
  = interpolate inputMin inputMin inputMax outputMin outputMax easing "clamp" eR.
Proof.
  intros H. unfold interpolate, extrapolateLeftStep.
  rewrite H, FloatFacts.lt_irrefl.
  change (String.eqb "clamp" "identity") with false.
  change (String.eqb "clamp" "clamp") with true. cbv iota.
  destruct (extrapolateRightStep inputMin inputMax eR); [reflexivity|].
  unfold mapSegment.
  rewrite (FloatFacts.lt_le _ _ H), (FloatFacts.lt_le_refl_r _ _ H). reflexivity.
Qed.

Lemma left_extend :
  JS.lt x inputMin = true -> JS.le inputMin inputMax = true ->
  interpolate x inputMin inputMax outputMin outputMax easing "extend" eR
  = mapSegment x x inputMin inputMax outputMin outputMax easing.
Proof.
  intros H Hseg. unfold interpolate, extrapolateLeftStep.
  rewrite H.
  change (String.eqb "extend" "identity") with false.
  change (String.eqb "extend" "clamp") with false. cbv iota.
  destruct (String.eqb "extend" "extend");
    unfold extrapolateRightStep;
    now rewrite (FloatFacts.below_not_above _ _ _ H Hseg).
Qed.

Lemma right_identity :
  JS.lt x inputMin = false -> JS.gt x inputMax = true ->
  interpolate x inputMin inputMax outputMin outputMax easing eL "identity" = x.
Proof.
  intros Hl Hr. unfold interpolate, extrapolateLeftStep, extrapolateRightStep.
  now rewrite Hl, Hr.
Qed.

Lemma right_clamp :
  JS.lt x inputMin = false -> JS.gt x inputMax = true ->
  interpolate x inputMin inputMax outputMin outputMax easing eL "clamp"
  = mapSegment x inputMax inputMin inputMax outputMin outputMax easing.
Proof.
  intros Hl Hr. unfold interpolate, extrapolateLeftStep, extrapolateRightStep.
  now rewrite Hl, Hr.
Qed.

Lemma right_extend :
  JS.lt x inputMin = false -> JS.gt x inputMax = true ->
  interpolate x inputMin inputMax outputMin outputMax easing eL "extend"
  = mapSegment x x inputMin inputMax outputMin outputMax easing.
Proof.
  intros Hl Hr. unfold interpolate, extrapolateLeftStep, extrapolateRightStep.
  now rewrite Hl, Hr.
Qed.

(** Above a segment of positive width, clamp maps [x] as it maps
    [inputMax]. *)
Lemma right_clamp_mirror :
  JS.lt x inputMin = false -> JS.gt x inputMax = true ->
  JS.lt inputMin inputMax = true ->
  interpolate x inputMin inputMax outputMin outputMax easing eL "clamp"
  = interpolate inputMax inputMin inputMax outputMin outputMax easing eL "clamp".
Proof.
  intros Hl Hr Hwidth. rewrite (right_clamp Hl Hr).
  unfold interpolate, extrapolateLeftStep, extrapolateRightStep.
  pose proof (FloatFacts.le_not_gt _ _ (FloatFacts.lt_le _ _ Hwidth)) as Hback.
  unfold JS.gt in Hback. unfold JS.lt at 1. rewrite Hback.
  pose proof (FloatFacts.lt_irrefl inputMax) as Hself.
  unfold JS.gt. unfold JS.lt in Hself. rewrite Hself.
  unfold mapSegment. now rewrite (FloatFacts.lt_not_eq _ _ Hwidth).
Qed.

(** Above a segment of zero width, clamp yields [outputMax]: the test of
    line 151 reads the input, not its clamped replacement. *)
Lemma right_clamp_zero_width :
  JS.lt x inputMin = false -> JS.gt x inputMax = true ->
  JS.strict_eq inputMin inputMax = true ->
  JS.strict_eq outputMin outputMax = false ->
  interpolate x inputMin inputMax outputMin outputMax easing eL "clamp" = outputMax.
Proof.
  intros Hl Hr Hin Hout. rewrite (right_clamp Hl Hr). unfold mapSegment.
  now rewrite Hout, Hin, (FloatFacts.above_equal_bound _ _ _ Hin Hr).
Qed.

(** On a segment without equal or infinite bounds the mapping is the
    eased linear one. *)
Lemma mapSegment_linear (result : float) :
  JS.strict_eq outputMin outputMax = false ->
  JS.strict_eq inputMin inputMax = false ->
  JS.strict_eq inputMin JS.neg_Infinity = false ->
  JS.strict_eq inputMax JS.Infinity = false ->
  JS.strict_eq outputMin JS.neg_Infinity = false ->
  JS.strict_eq outputMax JS.Infinity = false ->
  mapSegment x result inputMin inputMax outputMin outputMax easing
  = JS.add (JS.mul (easing (JS.div (JS.sub result inputMin)
                                   (JS.sub inputMax inputMin)))
                   (JS.sub outputMax outputMin))
           outputMin.
Proof. intros H1 H2 H3 H4 H5 H6. unfold mapSegment. now rewrite H1, H2, H3, H4, H5, H6. Qed.

(** After the extrapolation blocks: a constant output segment. *)
Lemma constant_output (result : float) :
  extrapolated x inputMin inputMax eL eR = Next result ->
  JS.strict_eq outputMin outputMax = true ->
  interpolate x inputMin inputMax outputMin outputMax easing eL eR = outputMin.
Proof.
  intros Hx Hout. rewrite interpolate_extrapolated, Hx. unfold mapSegment.
  now rewrite Hout.
Qed.

(** After the extrapolation blocks: a zero-width input segment. *)
Lemma zero_width (result : float) :
  extrapolated x inputMin inputMax eL eR = Next result ->
  JS.strict_eq outputMin outputMax = false ->
  JS.strict_eq inputMin inputMax = true ->
  interpolate x inputMin inputMax outputMin outputMax easing eL eR
  = if JS.le x inputMin then outputMin else outputMax.
Proof.
  intros Hx Hout Hin. rewrite interpolate_extrapolated, Hx. unfold mapSegment.
  now rewrite Hout, Hin.
Qed.

End Segment.

End ExtrapolationFacts.

(** C3, as stated, fails at the high end: under clamp the value [6] above
    the zero-width segment [[5, 5]] is not mapped as [inputMax = 5] is.  The
    zero-width test of line 151 reads the input, so [6] yields
    [outputMax = 2], while [5] itself yields [outputMin = 1]. *)
Lemma extrapolation_policy_counterexample :
  ~ (forall x inputMin inputMax outputMin outputMax : float,
       JS.lt x inputMin = false -> JS.gt x inputMax = true ->
       AnimatedInterpolation.interpolate x inputMin inputMax outputMin outputMax
         AnimatedInterpolation.linear "extend" "clamp"
       = AnimatedInterpolation.interpolate inputMax inputMin inputMax
           outputMin outputMax AnimatedInterpolation.linear "extend" "clamp").
Proof.
  intros H. specialize (H 6 5 5 1 2 eq_refl eq_refl)%float.
  apply (f_equal (fun v => PrimFloat.eqb v 2)) in H.
  vm_compute in H. discriminate H.
Qed.

(** C3, amended. Below the segment ([x < inputMin]): [identity] returns [x]
    at once, whatever the outputs and the easing are; [clamp] maps [x] as it
    maps [inputMin]; [extend] maps [x] itself, unchanged, along the segment.
    Above the segment ([x > inputMax]): [identity] returns [x]; [clamp]
    continues with [inputMax] in the place of [x], which on a segment of
    positive width maps [x] as it maps [inputMax], and on a segment of zero
    width with distinct outputs yields [outputMax]; [extend] continues with
    [x].  On a segment of distinct finite bounds the mapping is the eased
    linear one.  Over [inputRange = [0,1]] and [outputRange = [0,10]] the
    input [-1] maps to [0] under clamp, [-1] under identity, [-10] under
    extend. *)
Theorem extrapolation_policy
    (x inputMin inputMax outputMin outputMax : float)
    (easing : float -> float)
    (eL eR : AnimatedInterpolation.ExtrapolateType) :
  (JS.lt x inputMin = true ->
     AnimatedInterpolation.interpolate x inputMin inputMax outputMin outputMax
       easing "identity" eR = x
     /\ AnimatedInterpolation.interpolate x inputMin inputMax outputMin outputMax
          easing "clamp" eR
        = AnimatedInterpolation.interpolate inputMin inputMin inputMax
            outputMin outputMax easing "clamp" eR
     /\ (JS.le inputMin inputMax = true ->
         AnimatedInterpolation.interpolate x inputMin inputMax outputMin outputMax
           easing "extend" eR
         = AnimatedInterpolation.mapSegment x x inputMin inputMax
             outputMin outputMax easing))
  /\ (JS.lt x inputMin = false -> JS.gt x inputMax = true ->
      AnimatedInterpolation.interpolate x inputMin inputMax outputMin outputMax
        easing eL "identity" = x
      /\ AnimatedInterpolation.interpolate x inputMin inputMax outputMin outputMax
           easing eL "clamp"
         = AnimatedInterpolation.mapSegment x inputMax inputMin inputMax
             outputMin outputMax easing
      /\ (JS.lt inputMin inputMax = true ->
          AnimatedInterpolation.interpolate x inputMin inputMax outputMin outputMax
            easing eL "clamp"
          = AnimatedInterpolation.interpolate inputMax inputMin inputMax
              outputMin outputMax easing eL "clamp")
      /\ (JS.strict_eq inputMin inputMax = true ->
          JS.strict_eq outputMin outputMax = false ->
          AnimatedInterpolation.interpolate x inputMin inputMax outputMin outputMax
            easing eL "clamp" = outputMax)
      /\ AnimatedInterpolation.interpolate x inputMin inputMax outputMin outputMax
           easing eL "extend"
         = AnimatedInterpolation.mapSegment x x inputMin inputMax
             outputMin outputMax easing)
  /\ (JS.strict_eq outputMin outputMax = false ->
      JS.strict_eq inputMin inputMax = false ->
      JS.strict_eq inputMin JS.neg_Infinity = false ->
      JS.strict_eq inputMax JS.Infinity = false ->
      JS.strict_eq outputMin JS.neg_Infinity = false ->
      JS.strict_eq outputMax JS.Infinity = false ->
      forall result,
        AnimatedInterpolation.mapSegment x result inputMin inputMax
          outputMin outputMax easing
        = JS.add (JS.mul (easing (JS.div (JS.sub result inputMin)
                                         (JS.sub inputMax inputMin)))
                         (JS.sub outputMax outputMin))
                 outputMin)
  /\ (forall (Node : Type) (getValue : Node -> outcome JS.Primitive)
             (normalizeColor : string -> option Z),
        let map extrapolateLeft :=
          AnimatedInterpolation.evaluate getValue normalizeColor
            (Samples.config [0; 1]%float
               (AnimatedInterpolation.Numbers [0; 10]%float)
               (Some extrapolateLeft) None)
            (-1)%float in
        map "clamp" = Ok (Some (AnimatedInterpolation.VNumber 0))
        /\ map "identity" = Ok (Some (AnimatedInterpolation.VNumber (-1)))
        /\ map "extend" = Ok (Some (AnimatedInterpolation.VNumber (-10)))).
Proof.
  split; [|split; [|split]].
  - intros Hlow. split; [|split].
    + now apply ExtrapolationFacts.left_identity.
    + now apply ExtrapolationFacts.left_clamp.
    + intros Hseg. now apply ExtrapolationFacts.left_extend.
  - intros Hlow Hhigh. split; [|split; [|split; [|split]]].
    + now apply ExtrapolationFacts.right_identity.
    + now apply ExtrapolationFacts.right_clamp.
    + intros Hwidth. now apply ExtrapolationFacts.right_clamp_mirror.
    + intros Hin Hout. now apply ExtrapolationFacts.right_clamp_zero_width.
    + now apply ExtrapolationFacts.right_extend.
  - intros H1 H2 H3 H4 H5 H6 result.
    now apply ExtrapolationFacts.mapSegment_linear.
  - intros Node getValue normalizeColor map. unfold map.
    split; [|split]; vm_compute; reflexivity.
Qed.

Lemma extrapolation_policy_witness :
  AnimatedInterpolation.interpolate (-1) 0 1 0 10 AnimatedInterpolation.linear
    "clamp" "extend"
  = AnimatedInterpolation.interpolate 0 0 1 0 10 AnimatedInterpolation.linear
      "clamp" "extend"
  /\ AnimatedInterpolation.interpolate 2 0 1 0 10 AnimatedInterpolation.linear
       "extend" "identity" = 2%float
  /\ AnimatedInterpolation.interpolate 2 0 1 0 10 AnimatedInterpolation.linear
       "extend" "clamp"
     = AnimatedInterpolation.interpolate 1 0 1 0 10 AnimatedInterpolation.linear
         "extend" "clamp"
  /\ AnimatedInterpolation.interpolate 6 5 5 1 2 AnimatedInterpolation.linear
       "extend" "clamp" = 2%float
  /\ AnimatedInterpolation.mapSegment (-1) (-1) 0 1 0 10 AnimatedInterpolation.linear
     = (-10)%float.
Proof.
  split; [|split; [|split; [|split]]].
  - apply (proj1 (extrapolation_policy (-1) 0 1 0 10 AnimatedInterpolation.linear
                    "extend" "extend")).
    reflexivity.
  - exact (proj1 (proj1 (proj2 (extrapolation_policy 2 0 1 0 10
                                  AnimatedInterpolation.linear "extend" "extend"))
                    eq_refl eq_refl)).
  - destruct (proj1 (proj2 (extrapolation_policy 2 0 1 0 10
                              AnimatedInterpolation.linear "extend" "extend"))
                eq_refl eq_refl) as (_ & _ & Hmirror & _).
    exact (Hmirror eq_refl).
  - destruct (proj1 (proj2 (extrapolation_policy 6 5 5 1 2
                              AnimatedInterpolation.linear "extend" "extend"))
                eq_refl eq_refl) as (_ & _ & _ & Hzero & _).
    exact (Hzero eq_refl eq_refl).
  - rewrite (proj1 (proj2 (proj2 (extrapolation_policy (-1) 0 1 0 10
                                    AnimatedInterpolation.linear "extend" "extend"))));
      reflexivity.
Defined.

Module DegenerateFacts.
Import AnimatedInterpolation Extrapolation.

(** Under [extend] on both sides the extrapolation blocks pass [x] on. *)
Lemma extrapolated_extend (x inputMin inputMax : float) :
  extrapolated x inputMin inputMax "extend" "extend" = Next x.
Proof.
  unfold extrapolated, extrapolateLeftStep.
  destruct (JS.lt x inputMin); cbn -[JS.gt];
    unfold extrapolateRightStep; destruct (JS.gt x inputMax); reflexivity.
Qed.

(** The mapper over [inputRange = [5,5]], [outputRange = [1,2]]. *)
Lemma step_at_five {Node} (getValue : Node -> outcome JS.Primitive)
    (normalizeColor : string -> option Z) (x : float) :
  evaluate getValue normalizeColor
    (Samples.config [5; 5]%float (Numbers [1; 2]%float) None None) x
  = Ok (Some (VNumber (if JS.le x 5 then 1%float else 2%float))).
Proof.
  rewrite <- (ExtrapolationFacts.zero_width x 5 5 1 2 linear "extend" "extend" x
                (extrapolated_extend x 5 5) eq_refl eq_refl).
  transitivity
    (Ok (Some (ofPrimitive (Node := Node)
                 (interpolateValues x 5 5 (JS.PNumber 1) (JS.PNumber 2) linear
                    "extend" "extend")))); [reflexivity|].
  now rewrite Construction.interpolateValues_numbers.
Qed.

End DegenerateFacts.

(** C4, as stated, fails: the claim lets the zero-width test see the input
    after the extrapolation step, which under clamp has replaced [6] by
    [inputMax = 5] and would so select [outputMin = 1]; the code tests the
    original input and returns [outputMax = 2]. *)
Lemma degenerate_segment_counterexample :
  ~ (forall result,
       Extrapolation.extrapolated 6 5 5 "extend" "clamp"
         = AnimatedInterpolation.Next result ->
       AnimatedInterpolation.interpolate 6 5 5 1 2 AnimatedInterpolation.linear
         "extend" "clamp"
       = if JS.le result 5 then 1%float else 2%float).
Proof.
  intros H. specialize (H 5%float eq_refl).
  apply (f_equal (fun v => PrimFloat.eqb v 1)) in H.
  vm_compute in H. discriminate H.
Qed.

(** C4, amended. When the extrapolation blocks do not return: a constant
    output segment ([outputMin == outputMax]) yields that constant whatever
    [x] is; a zero-width input segment ([inputMin == inputMax]) yields
    [outputMin] when the original input [x], not its clamped replacement,
    satisfies [x <= inputMin], and [outputMax] otherwise.  Over
    [inputRange = [5,5]] and [outputRange = [1,2]] the mapper yields [1] for
    [x <= 5] and [2] for [x > 5]. *)
Theorem degenerate_segment :
  (forall (x inputMin inputMax outputMin outputMax : float)
          (easing : float -> float)
          (eL eR : AnimatedInterpolation.ExtrapolateType) (result : float),
     Extrapolation.extrapolated x inputMin inputMax eL eR
       = AnimatedInterpolation.Next result ->
     (JS.strict_eq outputMin outputMax = true ->
        AnimatedInterpolation.interpolate x inputMin inputMax outputMin outputMax
          easing eL eR = outputMin)
     /\ (JS.strict_eq outputMin outputMax = false ->
         JS.strict_eq inputMin inputMax = true ->
         AnimatedInterpolation.interpolate x inputMin inputMax outputMin outputMax
           easing eL eR
         = if JS.le x inputMin then outputMin else outputMax))
  /\ (forall (Node : Type) (getValue : Node -> outcome JS.Primitive)
             (normalizeColor : string -> option Z) (x : float),
        let map :=
          AnimatedInterpolation.evaluate getValue normalizeColor
            (Samples.config [5; 5]%float
               (AnimatedInterpolation.Numbers [1; 2]%float) None None) in
        (JS.le x 5 = true -> map x = Ok (Some (AnimatedInterpolation.VNumber 1)))
        /\ (JS.gt x 5 = true -> map x = Ok (Some (AnimatedInterpolation.VNumber 2)))).
Proof.
  split.
  - intros x inputMin inputMax outputMin outputMax easing eL eR result Hx. split.
    + intros Hout. now apply (ExtrapolationFacts.constant_output _ _ _ _ _ _ _ _ result).
    + intros Hout Hin. now apply (ExtrapolationFacts.zero_width _ _ _ _ _ _ _ _ result).
  - intros Node getValue normalizeColor x map. unfold map.
    rewrite DegenerateFacts.step_at_five. split.
    + intros ->. reflexivity.
    + intros Hgt. now rewrite (FloatFacts.gt_not_le _ _ Hgt).
Qed.

Lemma degenerate_segment_witness :
  AnimatedInterpolation.interpolate 6 5 5 1 2 AnimatedInterpolation.linear
    "extend" "clamp" = 2%float
  /\ AnimatedInterpolation.evaluate Samples.zeroNodes Samples.twoColors
       (Samples.config [5; 5]%float (AnimatedInterpolation.Numbers [1; 2]%float)
          None None) 7%float
     = Ok (Some (AnimatedInterpolation.VNumber 2)).
Proof.
  split.
  - rewrite (proj2 (proj1 degenerate_segment 6 5 5 1 2 AnimatedInterpolation.linear
                      "extend" "clamp" 5 eq_refl)%float); reflexivity.
  - apply (proj2 (proj2 degenerate_segment unit Samples.zeroNodes Samples.twoColors
                    7%float)).
    reflexivity.
Defined.

(** C1 at the failing input.  The configuration [inputRange = [5,5]],
    [outputRange = [1,2]] is accepted by the scripting tier, which maps [5]
    to [1] and [6] to [2]; the native evaluator, fed the exported
    configuration, computes [0/0] and [1/0]: NaN and +Infinity.  The export
    is the same in every build: the development-only validation, when it
    runs and accepts the configuration, changes nothing of it. *)
Theorem native_evaluator_diverges :
  let config : @AnimatedInterpolation.InterpolationConfigType unit :=
    Samples.config [5; 5]%float (AnimatedInterpolation.Numbers [1; 2]%float)
      None None in
  AnimatedInterpolation.evaluate Samples.zeroNodes Samples.twoColors config 5
    = Ok (Some (AnimatedInterpolation.VNumber 1))
  /\ AnimatedInterpolation.evaluate Samples.zeroNodes Samples.twoColors config 6
     = Ok (Some (AnimatedInterpolation.VNumber 2))
  /\ exists exported,
       (forall (dev : bool) validateInterpolation,
          AnimatedInterpolation.__getNativeConfig (fun _ : unit => Ok (Some 1%Z))
            dev validateInterpolation tt config
          = (_ ← (if dev then validateInterpolation config else Ok tt); Ok exported))
       /\ InterpolationAnimatedNode.update exported
            (fun _ => InterpolationAnimatedNode.ValueNode 5) = Ok (Some nan)
       /\ InterpolationAnimatedNode.update exported
            (fun _ => InterpolationAnimatedNode.ValueNode 6) = Ok (Some infinity).
Proof.
  cbv zeta. split; [vm_compute; reflexivity|]. split; [vm_compute; reflexivity|].
  eexists. split.
  - intros dev validateInterpolation. unfold AnimatedInterpolation.__getNativeConfig.
    destruct (if dev then validateInterpolation _ else Ok tt) as [[]|e];
      [vm_compute|]; reflexivity.
  - split; vm_compute; reflexivity.
Qed.

(** ** Which configurations construct *)

Module ValidityFacts.
Import AnimatedInterpolation Construction Validity.

Lemma outcome_unit (r : outcome unit) (u : unit) : r = Ok u <-> r = Ok tt.
Proof. now destruct u. Qed.

Lemma for_each_Ok (body : nat -> outcome unit) (indices : list nat) :
  for_each body indices = Ok tt <-> Forall (fun i => body i = Ok tt) indices.
Proof.
  induction indices as [|i rest IH]; cbn.
  - split; [constructor|reflexivity].
  - split.
    + intros H. inv_bind H. destruct a. constructor; [assumption|now apply IH].
    + intros H. inversion H as [|? ? Hi Hrest]; subst. rewrite Hi. cbn.
      now apply IH.
Qed.

Lemma invariant_iff (c : bool) (msg : string) : invariant c msg = Ok tt <-> c = true.
Proof. destruct c; cbn; split; congruence. Qed.

Lemma checkInfiniteRange_iff {Node} (name : string) (arr : list (@JSValue Node)) :
  checkInfiniteRange name arr = Ok tt
  <-> 2 <= length arr /\ fullyInfinite arr = false.
Proof.
  unfold checkInfiniteRange, fullyInfinite. split.
  - intros H. inv_bind H. apply invariant_Ok, Nat.leb_le in Ha.
    apply invariant_iff in H. split; [assumption|].
    destruct (length arr =? 2)%nat, (value_strict_ne (arr !! 0%nat) _),
      (value_strict_ne (arr !! 1%nat) _); cbn in *; congruence.
  - intros [Hlen Hinf]. apply Nat.leb_le in Hlen. rewrite Hlen. cbn.
    apply invariant_iff.
    destruct (length arr =? 2)%nat, (value_strict_ne (arr !! 0%nat) _),
      (value_strict_ne (arr !! 1%nat) _); cbn in *; congruence.
Qed.

Lemma checkValidInputRange_iff (arr : list float) :
  checkValidInputRange arr = Ok tt <-> 2 <= length arr /\ nonDecreasing arr.
Proof.
  unfold checkValidInputRange, nonDecreasing. split.
  - intros H. inv_bind H. apply invariant_Ok, Nat.leb_le in Ha.
    split; [assumption|]. apply for_each_Ok in H.
    intros i Hi. rewrite Forall_forall in H.
    eapply invariant_Ok. apply H. apply elem_of_seq. lia.
  - intros [Hlen Hmono]. apply Nat.leb_le in Hlen. rewrite Hlen. cbn.
    apply for_each_Ok, Forall_forall. intros i Hi%elem_of_seq.
    apply (proj2 (invariant_iff _ _)). apply Hmono. lia.
Qed.

Section Numeric.
Context {Node : Type} (getValue : Node -> outcome JS.Primitive).

(** The conditions the non-string branch checks. *)
Definition numericValid (config : @InterpolationConfigType Node) : Prop :=
  2 <= length config.(inputRange)
  /\ length config.(inputRange) = length (toValues config.(outputRange))
  /\ nonDecreasing config.(inputRange)
  /\ fullyInfinite (map (@VNumber Node) config.(inputRange)) = false
  /\ fullyInfinite (toValues config.(outputRange)) = false.

Lemma createNumericInterpolation_iff (config : InterpolationConfigType)
    (mapper : float -> outcome (option JS.Primitive)) :
  createNumericInterpolation getValue config = Ok mapper
  <-> numericValid config
      /\ mapper = numericMapper getValue config.(inputRange) config.(outputRange)
                    (default linear config.(easing))
                    (resolveExtrapolate config.(extrapolateLeft) config.(extrapolate))
                    (resolveExtrapolate config.(extrapolateRight) config.(extrapolate)).
Proof.
  unfold createNumericInterpolation, numericValid. split.
  - intros H. inv_bind H. inv_bind H. inv_bind H. inv_bind H.
    destruct a, a0, a1, a2.
    apply checkInfiniteRange_iff in Ha as [_ Hout].
    apply checkInfiniteRange_iff in Ha0 as [Hlen Hin]. rewrite length_map in Hlen.
    apply checkValidInputRange_iff in Ha1 as [_ Hmono].
    apply invariant_iff, Nat.eqb_eq in Ha2.
    injection H as <-. auto 10.
  - intros [(Hlen & Hlens & Hmono & Hin & Hout) ->].
    assert (checkInfiniteRange "outputRange" (toValues config.(outputRange)) = Ok tt)
      as ->.
    { apply checkInfiniteRange_iff. split; [|assumption]. rewrite <- Hlens. exact Hlen. }
    cbn.
    assert (checkInfiniteRange "inputRange" (map (@VNumber Node) config.(inputRange))
            = Ok tt) as ->.
    { apply checkInfiniteRange_iff. split; [|assumption]. now rewrite length_map. }
    cbn.
    rewrite (proj2 (checkValidInputRange_iff _)) by auto. cbn.
    rewrite (proj2 (invariant_iff _ _)) by now apply Nat.eqb_eq. reflexivity.
Qed.

End Numeric.

Lemma checkPattern_iff (arr : list string) :
  checkPattern arr = Ok tt
  <-> exists first, arr !! 0 = Some first
        /\ forall i s, arr !! i = Some s -> removeShape s = removeShape first.
Proof.
  unfold checkPattern. destruct (arr !! 0) as [first|] eqn:Hfirst.
  - rewrite for_each_Ok, Forall_forall. split.
    + intros H. exists first. split; [reflexivity|]. intros i s Hs.
      destruct i as [|i]; [congruence|].
      specialize (H (S i)). rewrite Hs in H.
      symmetry. apply String.eqb_eq. eapply invariant_Ok.
      apply H. apply elem_of_seq. apply lookup_lt_Some in Hs. lia.
    + intros (first' & [= <-] & H) i Hi%elem_of_seq.
      destruct (arr !! i) as [s|] eqn:Hs; [|reflexivity].
      apply (proj2 (invariant_iff _ _)). apply String.eqb_eq. symmetry. eauto.
  - split; [discriminate|]. intros (first & ? & _). discriminate.
Qed.

End ValidityFacts.

Module ConstructionFacts.
Import AnimatedInterpolation Construction Validity ValidityFacts.
Import StringShape StringShapeFacts StringConstruction.

#[local] Arguments channelAt : simpl never.

Lemma channelAt_cons (j : nat) (s : string) (strings : list string) :
  channelAt j (s :: strings)
  = match matchesOf (shapePieces s) !! j with
    | Some m => JS.stringToNumber m :: channelAt j strings
    | None => channelAt j strings
    end.
Proof.
  unfold channelAt. destruct (matchesOf (shapePieces s) !! j) eqn:E.
  - change (omap ?f (s :: strings))
      with (match f s with Some y => y :: omap f strings | None => omap f strings end).
    cbv beta. now rewrite E.
  - change (omap ?f (s :: strings))
      with (match f s with Some y => y :: omap f strings | None => omap f strings end).
    cbv beta. now rewrite E.
Qed.

Lemma channelAt_length (j : nat) (strings : list string) :
  Forall (fun s => j < length (matchesOf (shapePieces s))) strings ->
  length (channelAt j strings) = length strings.
Proof.
  induction 1 as [|s strings Hs _ IH]; [reflexivity|].
  rewrite channelAt_cons.
  destruct (lookup_lt_is_Some_2 _ _ Hs) as [m ->]. cbn [length]. now rewrite IH.
Qed.

Lemma fullyInfinite_strings {Node} (l : list string) :
  fullyInfinite (Node := Node) (map VString l) = false.
Proof.
  unfold fullyInfinite. destruct l as [|s l]; [reflexivity|].
  cbn. now rewrite andb_false_r.
Qed.

Lemma fullyInfinite_nodes {Node} (l : list Node) :
  fullyInfinite (map VNode l) = false.
Proof.
  unfold fullyInfinite. destruct l as [|s l]; [reflexivity|].
  cbn. now rewrite andb_false_r.
Qed.

Section WithEnvironment.
Context {Node : Type} (getValue : Node -> outcome JS.Primitive)
        (normalizeColor : string -> option Z).

(** Every string of a range that constructs has a numeric token. *)
Lemma string_construction_tokens (config : InterpolationConfigType)
    (strings : list string) (mapper : float -> outcome (option string)) :
  createInterpolationFromStringOutputRange getValue normalizeColor config strings
    = Ok mapper ->
  Forall (fun s => matchesOf (shapePieces s) <> [])
         (map (colorToRgba normalizeColor) strings).
Proof.
  intros H. unfold createInterpolationFromStringOutputRange in H.
  inv_bind H. inv_bind H.
  destruct (head _) as [template|]; [|discriminate].
  destruct (matchShape template) as [firstMatches|]; [|discriminate].
  inv_bind H. apply collectChannels_Ok in Ha1 as (_ & Hall & _).
  eapply Forall_impl; [exact Hall|]. cbn. intros s (ms & Hms & _).
  apply matchShape_Some in Hms as [-> Hne]. exact Hne.
Qed.

(** A configuration that constructs meets every condition. *)
Lemma createInterpolation_wellFormed (config : InterpolationConfigType)
    (mapper : float -> outcome (option JSValue)) :
  createInterpolation getValue normalizeColor config = Ok mapper ->
  wellFormed normalizeColor config.
Proof.
  unfold createInterpolation. intros H.
  assert (forall m, createNumericInterpolation getValue config = Ok m ->
            (forall l s, config.(outputRange) = Strings l -> s ∈ l -> False) ->
            wellFormed normalizeColor config) as Hnumeric.
  { intros m Hm Hstr.
    apply createNumericInterpolation_iff in Hm as [(H1 & H2 & H3 & H4 & H5) _].
    repeat (split; [assumption|]). intros l s t Hl Hs _. destruct (Hstr l s Hl Hs). }
  destruct config.(outputRange) as [l|[|first rest]|l] eqn:Hrange.
  - inv_bind H. apply (Hnumeric a Ha). discriminate.
  - inv_bind H. apply (Hnumeric a Ha). intros l s [= <-] Hs.
    now apply elem_of_nil in Hs.
  - inv_bind H. clear H Hnumeric. rename a into m.
    unfold wellFormed. rewrite Hrange.
    set (strings := first :: rest) in *.
    pose proof (string_construction_tokens _ _ _ Ha) as Htokens.
    apply createInterpolationFromStringOutputRange_Ok in Ha
      as (Hlen & Hpattern & template & interpolations & Hhead & Hne & Hk & Hall & _).
    destruct interpolations as [|f interpolations].
    { destruct (matchesOf (shapePieces template)); [congruence|discriminate]. }
    specialize (Hall 0 f eq_refl).
    apply createNumericInterpolation_iff in Hall as [(H1 & H2 & H3 & H4 & _) _].
    cbn [inputRange outputRange withOutputRange toValues] in H1, H2, H3, H4.
    rewrite length_map in H2.
    rewrite channelAt_length in H2.
    2:{ eapply Forall_impl; [exact Htokens|]. cbn. intros s Hs.
        destruct (matchesOf (shapePieces s)); [congruence|cbn; lia]. }
    rewrite length_map in H2.
    split; [assumption|]. split; [cbn; now rewrite length_map|].
    split; [assumption|]. split; [assumption|].
    split; [apply fullyInfinite_strings|].
    intros l s t [= <-] Hs Ht.
    apply checkPattern_iff in Hpattern as (first' & _ & Hsame).
    unfold skeleton.
    assert (forall u, u ∈ strings ->
              removeShape (colorToRgba normalizeColor u) = removeShape first') as Hu.
    { intros u Hin. apply list_elem_of_lookup in Hin as [i Hi].
      apply (Hsame i). rewrite list_lookup_fmap, Hi. reflexivity. }
    now rewrite (Hu s Hs), (Hu t Ht).
  - inv_bind H. apply (Hnumeric a Ha). discriminate.
Qed.

(** A well-formed configuration over numbers or nodes constructs. *)
Lemma createInterpolation_numeric_succeeds (config : InterpolationConfigType) :
  wellFormed normalizeColor config ->
  (forall l, config.(outputRange) <> Strings l) ->
  exists mapper, createInterpolation getValue normalizeColor config = Ok mapper.
Proof.
  intros (H1 & H2 & H3 & H4 & H5 & _) Hnum. unfold createInterpolation.
  assert (exists m, createNumericInterpolation getValue config = Ok m) as [m Hm].
  { eexists. apply createNumericInterpolation_iff. split; [|reflexivity].
    repeat split; assumption. }
  destruct config.(outputRange) as [l|l|l] eqn:Hrange.
  - rewrite Hm. cbn. eauto.
  - now destruct (Hnum l).
  - rewrite Hm. cbn. eauto.
Qed.

(** A well-formed configuration over strings constructs when its strings
    carry the same positive number of tokens and no channel is the span
    [(-Infinity, +Infinity)]. *)
Lemma createInterpolation_strings_succeeds (config : InterpolationConfigType)
    (l : list string) (k : nat) :
  wellFormed normalizeColor config ->
  config.(outputRange) = Strings l ->
  1 <= k ->
  (forall s, s ∈ l -> length (tokens normalizeColor s) = k) ->
  (forall j, j < k ->
     fullyInfinite (Node := Node)
       (map VNumber (channelAt j (map (colorToRgba normalizeColor) l))) = false) ->
  exists mapper, createInterpolation getValue normalizeColor config = Ok mapper.
Proof.
  intros (H1 & H2 & H3 & H4 & _ & Hskel) Hrange Hk Htokens Hchannels.
  unfold createInterpolation. rewrite Hrange.
  rewrite Hrange in H2. cbn in H2. rewrite length_map in H2.
  destruct l as [|first rest]; [cbn in H2; lia|].
  set (strings := first :: rest) in *.
  set (normalized := map (colorToRgba normalizeColor) strings).
  assert (exists m, createInterpolationFromStringOutputRange getValue normalizeColor
                      config strings = Ok m) as [m ->]; [|cbn; eauto].
  unfold createInterpolationFromStringOutputRange. fold normalized.
  assert (invariant (2 <=? length strings)%nat "Bad output range" = Ok tt) as ->.
  { apply invariant_iff, Nat.leb_le. lia. }
  cbn [mbind outcome_bind].
  assert (checkPattern normalized = Ok tt) as ->.
  { apply checkPattern_iff. exists (colorToRgba normalizeColor first).
    split; [reflexivity|]. intros i s Hs.
    unfold normalized in Hs. rewrite list_lookup_fmap in Hs.
    destruct (strings !! i) as [u|] eqn:Hu; [|discriminate]. injection Hs as <-.
    apply (Hskel strings u first Hrange).
    - eapply list_elem_of_lookup_2; eassumption.
    - apply list_elem_of_here. }
  cbn [mbind outcome_bind].
  change (head normalized) with (Some (colorToRgba normalizeColor first)).
  cbv beta iota.
  assert (Forall (fun s => length (matchesOf (shapePieces s)) = k) normalized) as Hall.
  { apply Forall_fmap, Forall_forall. intros s Hs. apply (Htokens s Hs). }
  assert (length (matchesOf (shapePieces (colorToRgba normalizeColor first))) = k)
    as Hfirst.
  { apply (Htokens first). apply list_elem_of_here. }
  destruct (matchShape (colorToRgba normalizeColor first)) as [firstMatches|] eqn:Hm.
  2:{ unfold matchShape in Hm.
      destruct (matchesOf (shapePieces (colorToRgba normalizeColor first)));
        [cbn in Hfirst; lia|discriminate]. }
  apply matchShape_Some in Hm as [Hm _]. rewrite Hm in Hfirst.
  destruct (collectChannels_succeeds normalized (map (fun _ => []) firstMatches))
    as [outputRanges Hcollect].
  { eapply Forall_impl; [exact Hall|]. cbn. intros s Hs. rewrite length_map, Hs.
    split; [|lia]. destruct (matchesOf (shapePieces s)); [cbn in Hs; lia|discriminate]. }
  rewrite Hcollect. cbn [mbind outcome_bind].
  apply collectChannels_Ok in Hcollect as (Hlen & _ & Hget).
  rewrite length_map in Hlen.
  set (build := fun channel : list float =>
         numericMapper getValue config.(inputRange) (Numbers channel)
           (default linear config.(easing))
           (resolveExtrapolate config.(extrapolateLeft) config.(extrapolate))
           (resolveExtrapolate config.(extrapolateRight) config.(extrapolate))).
  assert (mapM (fun channel =>
                  createNumericInterpolation getValue
                    (withOutputRange config (Numbers channel))) outputRanges
          = Ok (map build outputRanges)) as ->; [|cbn; eauto].
  apply mapM_Ok, Forall2_fmap_r, Forall_Forall2_diag, Forall_lookup.
  intros j channel Hj. cbn.
  apply createNumericInterpolation_iff. split; [|reflexivity].
  pose proof (lookup_lt_Some _ _ _ Hj) as Hjk. rewrite Hlen, Hfirst in Hjk.
  rewrite Hget, list_lookup_fmap in Hj.
  destruct (firstMatches !! j); [|discriminate]. cbn in Hj. injection Hj as <-.
  unfold numericValid. cbn [inputRange outputRange withOutputRange toValues].
  rewrite length_map, channelAt_length.
  2:{ eapply Forall_impl; [exact Hall|]. cbn. intros u Hu. lia. }
  split; [assumption|].
  split; [rewrite H2; unfold strings; cbn [length]; now rewrite length_map|].
  split; [assumption|]. split; [assumption|]. exact (Hchannels j Hjk).
Qed.

End WithEnvironment.

End ConstructionFacts.

Module SampleFacts.
Import AnimatedInterpolation Validity.

Lemma nonDecreasing_unit_interval : nonDecreasing [0; 1]%float.
Proof.
  intros i Hi. cbn in Hi. assert (i = 1) as -> by lia. reflexivity.
Qed.

Lemma wellFormed_plain : wellFormed Samples.twoColors Samples.plain.
Proof.
  split; [cbn; lia|]. split; [reflexivity|].
  split; [exact nonDecreasing_unit_interval|].
  split; [reflexivity|]. split; [reflexivity|].
  intros l s t [= <-] Hs Ht.
  rewrite !elem_of_cons, elem_of_nil in Hs, Ht.
  destruct Hs as [->|[->|[]]], Ht as [->|[->|[]]]; reflexivity.
Qed.

Lemma wellFormed_fade : wellFormed Samples.twoColors Samples.fade.
Proof.
  split; [cbn; lia|]. split; [reflexivity|].
  split; [exact nonDecreasing_unit_interval|].
  split; [reflexivity|]. split; [reflexivity|].
  intros l s t [= <-] Hs Ht. unfold Samples.fadeStrings in *.
  rewrite !elem_of_cons, elem_of_nil in Hs, Ht.
  destruct Hs as [->|[->|[]]], Ht as [->|[->|[]]]; vm_compute; reflexivity.
Qed.

Lemma wellFormed_tenfold : wellFormed Samples.twoColors Samples.tenfold.
Proof.
  split; [cbn; lia|]. split; [reflexivity|].
  split; [exact nonDecreasing_unit_interval|].
  split; [reflexivity|]. split; [reflexivity|].
  intros l s t [=].
Qed.

End SampleFacts.

(** C5, as stated, fails in its converse: the two strings ["a", "a"] over
    [inputRange = [0,1]] meet every listed condition, and construction
    throws (a TypeError, for there is no numeric token to map). *)
Lemma construction_errors_counterexample :
  ~ (Validity.wellFormed Samples.twoColors Samples.plain ->
     exists mapper,
       AnimatedInterpolation.createInterpolation Samples.zeroNodes Samples.twoColors
         Samples.plain = Ok mapper).
Proof.
  intros H. destruct (H SampleFacts.wellFormed_plain) as [mapper Hm].
  apply (f_equal is_ok) in Hm. vm_compute in Hm. discriminate Hm.
Qed.

(** C5, amended. A configuration that is malformed: an input range shorter
    than 2, ranges of different lengths, an input range with a position
    that is not [>=] its predecessor, an input or output range that is the
    sole span [(-Infinity, +Infinity)], or output strings whose
    colour-normalized skeletons differ, makes construction throw, so no
    mapper exists to be evaluated.  Conversely construction succeeds on a
    configuration meeting the conditions whose output range holds numbers
    or nodes, and on one whose output range holds strings when, in
    addition, the normalized strings all carry the same positive number of
    numeric tokens and no channel of tokens is the span
    [(-Infinity, +Infinity)].  [["1px", "2deg"]] is rejected. *)
Theorem construction_errors :
  (forall (Node : Type) (getValue : Node -> outcome JS.Primitive)
          (normalizeColor : string -> option Z)
          (config : AnimatedInterpolation.InterpolationConfigType),
     (Validity.malformed normalizeColor config ->
      exists e,
        AnimatedInterpolation.createInterpolation getValue normalizeColor config
          = Throw e)
     /\ (Validity.wellFormed normalizeColor config ->
         (forall l, config.(AnimatedInterpolation.outputRange)
                    <> AnimatedInterpolation.Strings l) ->
         exists mapper,
           AnimatedInterpolation.createInterpolation getValue normalizeColor config
             = Ok mapper)
     /\ (Validity.wellFormed normalizeColor config ->
         forall l k,
           config.(AnimatedInterpolation.outputRange)
             = AnimatedInterpolation.Strings l ->
           1 <= k ->
           (forall s, s ∈ l -> length (Validity.tokens normalizeColor s) = k) ->
           (forall j, j < k ->
              Validity.fullyInfinite (Node := Node)
                (map AnimatedInterpolation.VNumber
                   (StringShape.channelAt j
                      (map (AnimatedInterpolation.colorToRgba normalizeColor) l)))
              = false) ->
           exists mapper,
             AnimatedInterpolation.createInterpolation getValue normalizeColor config
               = Ok mapper))
  /\ AnimatedInterpolation.createInterpolation Samples.zeroNodes Samples.twoColors
       Samples.mixedUnits
     = Throw (InvariantViolation "invalid pattern ").
Proof.
  split; [|vm_compute; reflexivity].
  intros Node getValue normalizeColor config. split; [|split].
  - intros Hbad.
    destruct (AnimatedInterpolation.createInterpolation getValue normalizeColor config)
      as [mapper|e] eqn:E; [|eauto].
    exfalso.
    apply ConstructionFacts.createInterpolation_wellFormed in E
      as (H1 & H2 & H3 & H4 & H5 & H6).
    destruct Hbad as [Hb|[Hb|[(i & Hi & Hb)|[Hb|[Hb|(l & s & t & Hl & Hs & Ht & Hb)]]]]].
    + lia.
    + contradiction.
    + rewrite (H3 i Hi) in Hb. discriminate Hb.
    + congruence.
    + congruence.
    + exact (Hb (H6 l s t Hl Hs Ht)).
  - apply ConstructionFacts.createInterpolation_numeric_succeeds.
  - intros Hwf l k. now apply ConstructionFacts.createInterpolation_strings_succeeds.
Qed.

Lemma construction_errors_witness :
  (exists e,
     AnimatedInterpolation.createInterpolation Samples.zeroNodes Samples.twoColors
       (Samples.config [0]%float (AnimatedInterpolation.Numbers [1]%float) None None)
     = Throw e)
  /\ (exists mapper,
        AnimatedInterpolation.createInterpolation Samples.zeroNodes Samples.twoColors
          Samples.tenfold = Ok mapper)
  /\ (exists mapper,
        AnimatedInterpolation.createInterpolation Samples.zeroNodes Samples.twoColors
          Samples.fade = Ok mapper).
Proof.
  split; [|split].
  - apply (proj1 (proj1 construction_errors unit Samples.zeroNodes Samples.twoColors _)).
    left. cbn. lia.
  - apply (proj1 (proj2 (proj1 construction_errors unit Samples.zeroNodes
                           Samples.twoColors Samples.tenfold))).
    + exact SampleFacts.wellFormed_tenfold.
    + intros l [=].
  - apply (proj2 (proj2 (proj1 construction_errors unit Samples.zeroNodes
                           Samples.twoColors Samples.fade))
             SampleFacts.wellFormed_fade Samples.fadeStrings 4).
    + reflexivity.
    + lia.
    + intros s Hs. unfold Samples.fadeStrings in Hs.
      rewrite !elem_of_cons, elem_of_nil in Hs.
      destruct Hs as [->|[->|[]]]; vm_compute; reflexivity.
    + intros j Hj.
      destruct j as [|[|[|[|j]]]]; [vm_compute; reflexivity ..|lia].
Defined.

(** ** Promotion *)

Module PromotionFacts.
Import AnimatedInterpolation Promotion.

(** Induction over a node, its parent and its output nodes. *)
Lemma node_induction (P : AnimatedNode -> Prop) :
  (forall id, P (OtherAnimatedNode id)) ->
  (forall id _parent _config,
     P _parent -> Forall P (nodeEntries _config.(outputRange)) ->
     P (AnimatedInterpolationNode id _parent _config)) ->
  forall n, P n.
Proof.
  intros Hother Hinterp. fix IH 1. intros [id|id _parent _config].
  - apply Hother.
  - apply Hinterp; [apply IH|].
    destruct _config as [input [l|l|l] e ex el er]; cbn; try constructor.
    revert l. fix each 1. intros [|value rest]; constructor; [apply IH|apply each].
Qed.

Lemma makeNative_interpolation (id : nat) (_parent : AnimatedNode)
    (_config : InterpolationConfigType) (g : NativeGraph) :
  __makeNative (AnimatedInterpolationNode id _parent _config) g
  = super__makeNative id
      (fold_left (fun g value => __makeNative value g)
         (nodeEntries _config.(outputRange)) (__makeNative _parent g)).
Proof.
  cbn [__makeNative]. f_equal.
  destruct (outputRange _config) as [l|l|l]; reflexivity.
Qed.

Lemma reachable_interpolation (id : nat) (_parent : AnimatedNode)
    (_config : InterpolationConfigType) :
  reachable (AnimatedInterpolationNode id _parent _config)
  = AnimatedInterpolationNode id _parent _config
    :: reachable _parent ++ flat_map reachable (nodeEntries _config.(outputRange)).
Proof.
  cbn [reachable]. do 2 f_equal.
  destruct (outputRange _config) as [l|l|l]; reflexivity.
Qed.

Lemma reachable_self (n : AnimatedNode) : n ∈ reachable n.
Proof. destruct n; cbn [reachable]; apply list_elem_of_here. Qed.

Lemma precedes_extend (a b : nat) (g suffix : NativeGraph) :
  precedes a b g -> precedes a b (g ++ suffix).
Proof.
  intros (before & after & -> & Ha). exists before, (after ++ suffix).
  split; [|assumption]. now rewrite <- app_assoc.
Qed.

Lemma super__makeNative_spec (id : nat) (g : NativeGraph) :
  (id ∈ g /\ super__makeNative id g = g)
  \/ ((id ∉ g) /\ super__makeNative id g = g ++ [id]).
Proof. unfold super__makeNative. destruct (decide (id ∈ g)); auto. Qed.

Section Graph.
Variable root : AnimatedNode.
Hypothesis Hidentified : identified root.

(** What promoting a node reachable from [root] keeps and achieves. *)
Let promotes (n : AnimatedNode) : Prop :=
  forall g,
    (forall m, m ∈ reachable n -> m ∈ reachable root) ->
    NoDup g -> ordered root g ->
    NoDup (__makeNative n g)
    /\ ordered root (__makeNative n g)
    /\ (exists suffix, __makeNative n g = g ++ suffix)
    /\ forall m, m ∈ reachable n -> node_id m ∈ __makeNative n g.

(** The last step: the node's own counterpart, after its dependencies. *)
Lemma super_step (n : AnimatedNode) (g : NativeGraph) :
  n ∈ reachable root ->
  NoDup g -> ordered root g ->
  (forall d, d ∈ dependencies n -> node_id d ∈ g) ->
  NoDup (super__makeNative (node_id n) g)
  /\ ordered root (super__makeNative (node_id n) g)
  /\ (exists suffix, super__makeNative (node_id n) g = g ++ suffix)
  /\ node_id n ∈ super__makeNative (node_id n) g.
Proof using Hidentified.
  intros Hn Hnodup Hordered Hdeps.
  destruct (super__makeNative_spec (node_id n) g) as [[Hin ->]|[Hnotin ->]].
  - split; [assumption|]. split; [assumption|].
    split; [exists []; now rewrite app_nil_r|assumption].
  - split.
    { apply NoDup_app. split; [assumption|]. split.
      - intros x Hx Hx'. apply list_elem_of_singleton in Hx'. now subst.
      - apply NoDup_singleton. }
    split.
    { intros m d Hm Hd Hmg. apply elem_of_app in Hmg as [Hmg|Hmg].
      - apply precedes_extend. now apply Hordered.
      - apply list_elem_of_singleton in Hmg.
        assert (m = n) as -> by now apply Hidentified.
        exists g, []. split; [congruence|]. now apply Hdeps. }
    split; [eauto|]. apply elem_of_app. right. apply list_elem_of_here.
Qed.

Lemma promotes_all : forall n, promotes n.
Proof using Hidentified.
  induction n as [id|id _parent _config IHparent IHentries] using node_induction;
    intros g Hsub Hnodup Hordered.
  - destruct (super_step (OtherAnimatedNode id) g) as (H1 & H2 & H3 & H4);
      try assumption.
    { apply Hsub, reachable_self. }
    { intros d Hd. now apply elem_of_nil in Hd. }
    cbn [__makeNative]. repeat (split; [assumption|]).
    intros m Hm. cbn [reachable] in Hm. apply list_elem_of_singleton in Hm.
    now subst.
  - set (n := AnimatedInterpolationNode id _parent _config) in *.
    assert (Hreach := reachable_interpolation id _parent _config). fold n in Hreach.
    assert (Hmake := makeNative_interpolation id _parent _config g). fold n in Hmake.
    rewrite Hmake. clear Hmake.
    (* the parent *)
    destruct (IHparent g) as (Hn1 & Ho1 & [s1 Hs1] & Hin1); try assumption.
    { intros m Hm. apply Hsub. rewrite Hreach.
      apply list_elem_of_further, elem_of_app. now left. }
    set (g1 := __makeNative _parent g) in *.
    (* the output nodes, one after the other *)
    assert (forall entries g',
              Forall promotes entries ->
              (forall v m, v ∈ entries -> m ∈ reachable v -> m ∈ reachable root) ->
              NoDup g' -> ordered root g' ->
              let g'' := fold_left (fun g value => __makeNative value g) entries g' in
              NoDup g'' /\ ordered root g''
              /\ (exists suffix, g'' = g' ++ suffix)
              /\ forall v m, v ∈ entries -> m ∈ reachable v -> node_id m ∈ g'')
      as Hfold.
    { induction entries as [|v rest IH]; intros g' Hall Hin Hnd Hord.
      - cbn. split; [assumption|]. split; [assumption|].
        split; [exists []; now rewrite app_nil_r|].
        intros v m Hv. now apply elem_of_nil in Hv.
      - inversion Hall as [|? ? Hv Hrest]; subst. cbn [fold_left].
        destruct (Hv g') as (Hn2 & Ho2 & [s2 Hs2] & Hin2); try assumption.
        { intros m Hm. apply (Hin v); [apply list_elem_of_here|assumption]. }
        destruct (IH (__makeNative v g') Hrest) as (Hn3 & Ho3 & [s3 Hs3] & Hin3);
          try assumption.
        { intros w m Hw. apply Hin. now apply list_elem_of_further. }
        cbn zeta in *. split; [assumption|]. split; [assumption|]. split.
        + exists (s2 ++ s3). rewrite Hs3, Hs2. now rewrite app_assoc.
        + intros w m Hw Hm. apply elem_of_cons in Hw as [->|Hw].
          * rewrite Hs3. apply elem_of_app. left. now apply Hin2.
          * now apply (Hin3 w). }
    destruct (Hfold (nodeEntries _config.(outputRange)) g1 IHentries)
      as (Hn2 & Ho2 & [s2 Hs2] & Hin2); try assumption.
    { intros v m Hv Hm. apply Hsub. rewrite Hreach.
      apply list_elem_of_further, elem_of_app. right.
      apply list_elem_of_In, in_flat_map. exists v.
      split; now apply list_elem_of_In. }
    cbn zeta in Hn2, Ho2, Hs2, Hin2.
    set (g2 := fold_left _ _ g1) in *.
    (* the node itself *)
    destruct (super_step n g2) as (Hn3 & Ho3 & [s3 Hs3] & Hin3); try assumption.
    { apply Hsub, reachable_self. }
    { intros d Hd. cbn [dependencies n] in Hd. apply elem_of_cons in Hd as [->|Hd].
      - rewrite Hs2. apply elem_of_app. left. apply Hin1, reachable_self.
      - apply (Hin2 d); [assumption|apply reachable_self]. }
    change (node_id n) with id in *.
    split; [assumption|]. split; [assumption|]. split.
    { exists (s1 ++ s2 ++ s3). rewrite Hs3, Hs2, Hs1. now rewrite !app_assoc. }
    intros m Hm. rewrite Hreach in Hm. apply elem_of_cons in Hm as [->|Hm].
    + exact Hin3.
    + rewrite Hs3. apply elem_of_app. left.
      apply elem_of_app in Hm as [Hm|Hm].
      * rewrite Hs2. apply elem_of_app. left. now apply Hin1.
      * apply list_elem_of_In, in_flat_map in Hm as (v & Hv & Hm).
        apply (Hin2 v); now apply list_elem_of_In.
Qed.

End Graph.

End PromotionFacts.

Module PromotionSample.
Import AnimatedInterpolation Promotion.

Lemma reachable_blend :
  reachable Samples.blend
  = [Samples.blend; Samples.source; Samples.left; Samples.source;
     Samples.right; Samples.source].
Proof. reflexivity. Qed.

Lemma identified_blend : identified Samples.blend.
Proof.
  intros m1 m2 H1 H2 Hid. rewrite reachable_blend in H1, H2.
  rewrite !elem_of_cons, elem_of_nil in H1, H2.
  destruct H1 as [->|[->|[->|[->|[->|[->|[]]]]]]],
           H2 as [->|[->|[->|[->|[->|[->|[]]]]]]];
    try reflexivity; cbn in Hid; discriminate Hid.
Qed.

End PromotionSample.

(** C9. Promoting an interpolation node promotes its parent, then every
    node of its output range in order, then constructs its own native
    counterpart (the base-class step, which does nothing for a node that is
    already promoted).  From a graph whose counterparts were constructed in
    dependency order and once each, the graph after promotion is again so:
    no identity occurs twice, every node reachable from the promoted one
    has a counterpart, and every dependency's counterpart was constructed
    before the node's own.  A node over two output nodes that share its
    parent promotes the parent, the two nodes, then itself, once each. *)
Theorem promotion_order (root : AnimatedInterpolation.AnimatedNode)
    (g : AnimatedInterpolation.NativeGraph) :
  Promotion.identified root -> NoDup g -> Promotion.ordered root g ->
  NoDup (AnimatedInterpolation.__makeNative root g)
  /\ Promotion.ordered root (AnimatedInterpolation.__makeNative root g)
  /\ (exists suffix, AnimatedInterpolation.__makeNative root g = g ++ suffix)
  /\ (forall m, m ∈ Promotion.reachable root ->
        AnimatedInterpolation.node_id m ∈ AnimatedInterpolation.__makeNative root g)
  /\ (forall id _parent _config g0,
        AnimatedInterpolation.__makeNative
          (AnimatedInterpolation.AnimatedInterpolationNode id _parent _config) g0
        = AnimatedInterpolation.super__makeNative id
            (fold_left (fun g value => AnimatedInterpolation.__makeNative value g)
               (AnimatedInterpolation.nodeEntries
                  _config.(AnimatedInterpolation.outputRange))
               (AnimatedInterpolation.__makeNative _parent g0)))
  /\ AnimatedInterpolation.__makeNative Samples.blend [] = [1; 2; 3; 4].
Proof.
  intros Hid Hnodup Hordered.
  destruct (PromotionFacts.promotes_all root Hid root g) as (H1 & H2 & H3 & H4);
    try assumption; [auto|].
  split; [assumption|]. split; [assumption|]. split; [assumption|].
  split; [assumption|]. split; [|reflexivity].
  intros id _parent _config g0. apply PromotionFacts.makeNative_interpolation.
Qed.

Lemma promotion_order_witness :
  NoDup (AnimatedInterpolation.__makeNative Samples.blend [])
  /\ Promotion.ordered Samples.blend
       (AnimatedInterpolation.__makeNative Samples.blend []).
Proof.
  destruct (promotion_order Samples.blend []) as (H1 & H2 & _).
  - exact PromotionSample.identified_blend.
  - constructor.
  - intros m d _ _ Hm. now apply elem_of_nil in Hm.
  - split; assumption.
Defined.

Module ExportFacts.
Import AnimatedInterpolation Construction.

Lemma mapM_Throw {A B} (f : A -> outcome B) (xs : list A) (x : A) (e : error) :
  x ∈ xs -> f x = Throw e -> exists e', mapM f xs = Throw e'.
Proof.
  induction xs as [|y xs IH]; intros Hin Hx.
  - now apply elem_of_nil in Hin.
  - cbn. apply elem_of_cons in Hin as [<-|Hin].
    + rewrite Hx. cbn. eauto.
    + destruct (f y) as [b|e0]; cbn; [|eauto].
      destruct (IH Hin Hx) as [e' ->]. cbn. eauto.
Qed.

End ExportFacts.

(** C7. The export transformation of an output range passes a number
    through unchanged, turns a string that ends in ["deg"] into
    [degrees * PI / 180] with [degrees = parseFloat(string) || 0], reads any
    other string as [parseFloat(string) || 0], and resolves a node to its
    native tag; a node without a tag makes the whole transformation throw.
    [["0deg", "90deg"]] exports as [[0, 1.5707963267948966]]. *)
Theorem export_transformation :
  (forall (Node : Type) (getNativeTag : Node -> outcome (option Z)),
     let transform := AnimatedInterpolation.transformOutputValue getNativeTag in
     (forall x, transform (AnimatedInterpolation.VNumber x) = Ok x)
     /\ (forall s, JS.endsWith s "deg" = true ->
           transform (AnimatedInterpolation.VString s)
           = Ok (JS.div (JS.mul (JS.orZero (JS.parseFloat s)) JS.Math_PI) 180))
     /\ (forall s, JS.endsWith s "deg" = false ->
           transform (AnimatedInterpolation.VString s)
           = Ok (JS.orZero (JS.parseFloat s)))
     /\ (forall n t, getNativeTag n = Ok (Some t) -> t <> 0%Z ->
           transform (AnimatedInterpolation.VNode n) = Ok (JS.ofZ t))
     /\ (forall n range, getNativeTag n = Ok None ->
           AnimatedInterpolation.VNode n ∈ range ->
           exists e,
             AnimatedInterpolation.__transformOutputRange getNativeTag range
             = Throw e)
     /\ (forall range exported,
           AnimatedInterpolation.__transformOutputRange getNativeTag range
             = Ok exported ->
           Forall2 (fun value y => transform value = Ok y) range exported))
  /\ (forall (Node : Type) (getNativeTag : Node -> outcome (option Z)),
        AnimatedInterpolation.__transformOutputRange getNativeTag
          [AnimatedInterpolation.VString "0deg"; AnimatedInterpolation.VString "90deg"]
        = Ok [0%float; 0x1.921fb54442d18p+0%float])
  /\ JS.numberToString 0x1.921fb54442d18p+0%float = "1.5707963267948966".
Proof.
  split; [|split; [|vm_compute; reflexivity]].
  - intros Node getNativeTag transform. unfold transform.
    split; [reflexivity|]. split; [|split; [|split; [|split]]].
    + intros s Hs. cbn. now rewrite Hs.
    + intros s Hs. cbn. now rewrite Hs.
    + intros n t Ht Hne. cbn. rewrite Ht. cbn.
      destruct (Z.eqb_spec t 0); [contradiction|reflexivity].
    + intros n range Hn Hin.
      apply (ExportFacts.mapM_Throw _ _ (AnimatedInterpolation.VNode n)
               (InvariantViolation "There must be a native tag for this value."));
        [assumption|].
      cbn. now rewrite Hn.
    + intros range exported H. now apply StringShapeFacts.mapM_Ok.
  - intros Node getNativeTag. vm_compute. reflexivity.
Qed.

Lemma export_transformation_witness :
  AnimatedInterpolation.transformOutputValue (fun _ : unit => Ok (Some 7%Z))
    (AnimatedInterpolation.VString "45deg")
  = Ok (JS.div (JS.mul (JS.orZero (JS.parseFloat "45deg")) JS.Math_PI) 180)
  /\ AnimatedInterpolation.transformOutputValue (fun _ : unit => Ok (Some 7%Z))
       (AnimatedInterpolation.VNode tt) = Ok (JS.ofZ 7)
  /\ exists e,
       AnimatedInterpolation.__transformOutputRange (fun _ : unit => Ok None)
         [AnimatedInterpolation.VNumber 1; AnimatedInterpolation.VNode tt]
       = Throw e.
Proof.
  pose proof (proj1 export_transformation unit (fun _ => Ok (Some 7%Z))) as H.
  cbv zeta in H. destruct H as (_ & Hdeg & _ & Hnode & _).
  split; [apply Hdeg; reflexivity|].
  split; [apply Hnode; [reflexivity|lia]|].
  pose proof (proj1 export_transformation unit (fun _ => Ok None)) as H.
  cbv zeta in H. destruct H as (_ & _ & _ & _ & Hmissing & _).
  apply (Hmissing tt); [reflexivity|].
  apply list_elem_of_further, list_elem_of_here.
Defined.

(** C8 at the failing input.  An output-range entry that is neither a
    number, a string nor a node (a boolean, [undefined], [null]) raises
    nothing in the export transformation: [invariant(true, ...)] never
    throws, and the entry is exported as 0 beside the other entries. *)
Theorem incompatible_entry_exports_zero :
  forall (Node : Type) (getNativeTag : Node -> outcome (option Z)),
    AnimatedInterpolation.transformOutputValue getNativeTag
      (AnimatedInterpolation.VBoolean true) = Ok 0%float
    /\ AnimatedInterpolation.transformOutputValue getNativeTag
         AnimatedInterpolation.VUndefined = Ok 0%float
    /\ AnimatedInterpolation.transformOutputValue getNativeTag
         AnimatedInterpolation.VNull = Ok 0%float
    /\ AnimatedInterpolation.__transformOutputRange getNativeTag
         [AnimatedInterpolation.VNumber 1; AnimatedInterpolation.VUndefined]
       = Ok [1%float; 0%float].
Proof.
  intros Node getNativeTag. repeat split.
Qed.

(** ** The native evaluator beside the scripting-tier one *)

Module NativeFacts.
Import AnimatedInterpolation Native.

Lemma findRangeIndex_loop_findRange_loop (value : float) (ranges : list float) :
  forall fuel index,
    InterpolationAnimatedNode.findRangeIndex_loop fuel index value ranges
    = Ok (findRange_loop fuel index value ranges).
Proof.
  induction fuel as [|fuel IH]; intros index; [reflexivity|].
  cbn [InterpolationAnimatedNode.findRangeIndex_loop findRange_loop].
  destruct (Z.ltb_spec (Z.of_nat index) (Z.of_nat (length ranges) - 1)) as [Hlt|Hge];
    [|reflexivity].
  destruct (ranges !! index) as [r|] eqn:Hr.
  - unfold JS.ge. destruct (PrimFloat.leb value r); [reflexivity|apply IH].
  - apply lookup_ge_None in Hr. lia.
Qed.

Lemma extrapolateSwitch_known (result bound : float) (e side : string) :
  knownType e ->
  InterpolationAnimatedNode.extrapolateSwitch result bound e side
  = Ok (if String.eqb e "identity" then Return result
        else if String.eqb e "clamp" then Next bound else Next result).
Proof. intros [->|[->| ->]]; reflexivity. Qed.

Lemma extrapolateSwitch_unknown (result bound : float) (e side : string) :
  ~ knownType e ->
  exists msg,
    InterpolationAnimatedNode.extrapolateSwitch result bound e side
    = Throw (JavaException "JSApplicationIllegalArgumentException" msg).
Proof.
  intros Hunknown. unfold InterpolationAnimatedNode.extrapolateSwitch,
    InterpolationAnimatedNode.EXTRAPOLATE_TYPE_IDENTITY,
    InterpolationAnimatedNode.EXTRAPOLATE_TYPE_CLAMP,
    InterpolationAnimatedNode.EXTRAPOLATE_TYPE_EXTEND.
  destruct (String.eqb_spec e "identity") as [->|_].
  { destruct Hunknown. left. reflexivity. }
  destruct (String.eqb_spec e "clamp") as [->|_].
  { destruct Hunknown. right. left. reflexivity. }
  destruct (String.eqb_spec e "extend") as [->|_].
  { destruct Hunknown. right. right. reflexivity. }
  eauto.
Qed.

End NativeFacts.

Module NativeEvaluation.
Import AnimatedInterpolation Native NativeFacts.

Lemma findRangeIndex_findRange (value : float) (ranges : list float) :
  InterpolationAnimatedNode.findRangeIndex value ranges
  = Ok (findRange value ranges).
Proof.
  unfold InterpolationAnimatedNode.findRangeIndex, findRange.
  now rewrite findRangeIndex_loop_findRange_loop.
Qed.

Lemma interpolate_known (value inputMin inputMax outputMin outputMax : float)
    (eL eR : string) :
  knownType eL -> knownType eR ->
  InterpolationAnimatedNode.interpolate value inputMin inputMax outputMin outputMax
    eL eR
  = Ok match Extrapolation.extrapolated value inputMin inputMax eL eR with
       | Return r => r
       | Next result => nativeFormula result inputMin inputMax outputMin outputMax
       end.
Proof.
  intros HL HR.
  unfold InterpolationAnimatedNode.interpolate, Extrapolation.extrapolated,
    extrapolateLeftStep, extrapolateRightStep, JS.lt, JS.gt.
  destruct (PrimFloat.ltb value inputMin).
  - rewrite (extrapolateSwitch_known _ _ _ _ HL). cbn [mbind outcome_bind].
    destruct HL as [->|[->| ->]]; cbn [String.eqb Ascii.eqb Bool.eqb]; cbv iota.
    + reflexivity.
    + destruct (PrimFloat.ltb inputMax inputMin).
      * rewrite (extrapolateSwitch_known _ _ _ _ HR). cbn [mbind outcome_bind].
        destruct HR as [->|[->| ->]]; reflexivity.
      * reflexivity.
    + destruct (PrimFloat.ltb inputMax value).
      * rewrite (extrapolateSwitch_known _ _ _ _ HR). cbn [mbind outcome_bind].
        destruct HR as [->|[->| ->]]; reflexivity.
      * reflexivity.
  - cbn [mbind outcome_bind]. destruct (PrimFloat.ltb inputMax value).
    + rewrite (extrapolateSwitch_known _ _ _ _ HR). cbn [mbind outcome_bind].
      destruct HR as [->|[->| ->]]; reflexivity.
    + reflexivity.
Qed.

Lemma unknown_left_is_extend (x inputMin : float) (eL : string) :
  ~ knownType eL ->
  extrapolateLeftStep x inputMin eL = extrapolateLeftStep x inputMin "extend".
Proof.
  intros Hunknown. unfold extrapolateLeftStep.
  destruct (String.eqb_spec eL "identity") as [->|_].
  { destruct Hunknown. left. reflexivity. }
  destruct (String.eqb_spec eL "clamp") as [->|_].
  { destruct Hunknown. right. left. reflexivity. }
  destruct (JS.lt x inputMin); [|reflexivity].
  destruct (String.eqb eL "extend"); reflexivity.
Qed.

Lemma unknown_right_is_extend (x inputMax : float) (eR : string) :
  ~ knownType eR ->
  extrapolateRightStep x inputMax eR = extrapolateRightStep x inputMax "extend".
Proof.
  intros Hunknown. unfold extrapolateRightStep.
  destruct (String.eqb_spec eR "identity") as [->|_].
  { destruct Hunknown. left. reflexivity. }
  destruct (String.eqb_spec eR "clamp") as [->|_].
  { destruct Hunknown. right. left. reflexivity. }
  destruct (JS.gt x inputMax); [|reflexivity].
  destruct (String.eqb eR "extend"); reflexivity.
Qed.

End NativeEvaluation.

(** X1. The native segment search returns, for every value and every array
    of ranges, the index the scripting-tier [findRange] returns, and never
    reads outside the array. *)
Theorem native_search_agrees (value : float) (ranges : list float) :
  InterpolationAnimatedNode.findRangeIndex value ranges
  = Ok (AnimatedInterpolation.findRange value ranges).
Proof. apply NativeEvaluation.findRangeIndex_findRange. Qed.

(** X2. With extrapolation types among identity, clamp and extend, the
    native [interpolate] goes through the same extrapolation step as the
    scripting-tier one: where that step returns (identity outside the
    segment) both return the input; otherwise the scripting tier continues
    with [mapSegment] and the native tier with its single formula, on the
    same, possibly clamped, value. *)
Theorem native_extrapolation_agrees
    (value inputMin inputMax outputMin outputMax : float)
    (easing : float -> float) (eL eR : string) :
  Native.knownType eL -> Native.knownType eR ->
  InterpolationAnimatedNode.interpolate value inputMin inputMax outputMin outputMax
    eL eR
  = Ok match Extrapolation.extrapolated value inputMin inputMax eL eR with
       | AnimatedInterpolation.Return r => r
       | AnimatedInterpolation.Next result =>
         Native.nativeFormula result inputMin inputMax outputMin outputMax
       end
  /\ AnimatedInterpolation.interpolate value inputMin inputMax outputMin outputMax
       easing eL eR
     = match Extrapolation.extrapolated value inputMin inputMax eL eR with
       | AnimatedInterpolation.Return r => r
       | AnimatedInterpolation.Next result =>
         AnimatedInterpolation.mapSegment value result inputMin inputMax
           outputMin outputMax easing
       end.
Proof.
  intros HL HR. split.
  - now apply NativeEvaluation.interpolate_known.
  - apply ExtrapolationFacts.interpolate_extrapolated.
Qed.

Lemma native_extrapolation_agrees_witness :
  InterpolationAnimatedNode.interpolate 2 0 1 0 10 "extend" "identity" = Ok 2%float
  /\ AnimatedInterpolation.interpolate 2 0 1 0 10 AnimatedInterpolation.linear
       "extend" "identity" = 2%float.
Proof.
  destruct (native_extrapolation_agrees 2 0 1 0 10 AnimatedInterpolation.linear
              "extend" "identity") as [H1 H2].
  - right. right. reflexivity.
  - left. reflexivity.
  - split; [exact H1|exact H2].
Defined.

(** X3. An extrapolation type that is none of identity, clamp and extend is
    treated by the scripting-tier [interpolate] as extend, on either side,
    and never raises; the native [interpolate] throws
    JSApplicationIllegalArgumentException when such a type is consulted,
    that is when the value lies below [inputMin] (left type) or, being not
    below, above [inputMax] (right type), and evaluates normally for a
    value inside the segment. *)
Theorem unknown_extrapolation_type
    (value inputMin inputMax outputMin outputMax : float)
    (easing : float -> float) (eL eR : string) :
  (~ Native.knownType eL ->
     AnimatedInterpolation.interpolate value inputMin inputMax outputMin outputMax
       easing eL eR
     = AnimatedInterpolation.interpolate value inputMin inputMax outputMin outputMax
         easing "extend" eR)
  /\ (~ Native.knownType eR ->
      AnimatedInterpolation.interpolate value inputMin inputMax outputMin outputMax
        easing eL eR
      = AnimatedInterpolation.interpolate value inputMin inputMax outputMin outputMax
          easing eL "extend")
  /\ (~ Native.knownType eL -> JS.lt value inputMin = true ->
      exists msg,
        InterpolationAnimatedNode.interpolate value inputMin inputMax
          outputMin outputMax eL eR
        = Throw (JavaException "JSApplicationIllegalArgumentException" msg))
  /\ (~ Native.knownType eR -> JS.lt value inputMin = false ->
      JS.gt value inputMax = true ->
      exists msg,
        InterpolationAnimatedNode.interpolate value inputMin inputMax
          outputMin outputMax eL eR
        = Throw (JavaException "JSApplicationIllegalArgumentException" msg))
  /\ (JS.lt value inputMin = false -> JS.gt value inputMax = false ->
      InterpolationAnimatedNode.interpolate value inputMin inputMax
        outputMin outputMax eL eR
      = Ok (Native.nativeFormula value inputMin inputMax outputMin outputMax)).
Proof.
  split; [|split; [|split; [|split]]].
  - intros Hunknown. unfold AnimatedInterpolation.interpolate.
    now rewrite NativeEvaluation.unknown_left_is_extend.
  - intros Hunknown. unfold AnimatedInterpolation.interpolate.
    destruct (AnimatedInterpolation.extrapolateLeftStep value inputMin eL);
      [reflexivity|].
    now rewrite NativeEvaluation.unknown_right_is_extend.
  - intros Hunknown Hlow. unfold InterpolationAnimatedNode.interpolate.
    unfold JS.lt in Hlow. rewrite Hlow.
    destruct (NativeFacts.extrapolateSwitch_unknown value inputMin eL "left" Hunknown)
      as [msg ->].
    exists msg. reflexivity.
  - intros Hunknown Hlow Hhigh. unfold InterpolationAnimatedNode.interpolate.
    unfold JS.lt in Hlow. unfold JS.gt in Hhigh. rewrite Hlow.
    cbn [mbind outcome_bind]. rewrite Hhigh.
    destruct (NativeFacts.extrapolateSwitch_unknown value inputMax eR "right" Hunknown)
      as [msg ->].
    exists msg. reflexivity.
  - intros Hlow Hhigh. unfold InterpolationAnimatedNode.interpolate.
    unfold JS.lt in Hlow. unfold JS.gt in Hhigh. rewrite Hlow.
    cbn [mbind outcome_bind]. rewrite Hhigh. reflexivity.
Qed.

Lemma unknown_extrapolation_type_witness :
  AnimatedInterpolation.interpolate (-1) 0 1 0 10 AnimatedInterpolation.linear
    "wrap" "extend"
  = AnimatedInterpolation.interpolate (-1) 0 1 0 10 AnimatedInterpolation.linear
      "extend" "extend"
  /\ exists msg,
       InterpolationAnimatedNode.interpolate (-1) 0 1 0 10 "wrap" "extend"
       = Throw (JavaException "JSApplicationIllegalArgumentException" msg).
Proof.
  assert (~ Native.knownType "wrap") as Hwrap.
  { intros [H|[H|H]]; discriminate H. }
  destruct (unknown_extrapolation_type (-1) 0 1 0 10 AnimatedInterpolation.linear
              "wrap" "extend") as (H1 & _ & H3 & _).
  split; [exact (H1 Hwrap)|]. apply (H3 Hwrap). reflexivity.
Defined.

Module NativeRanges.
Import AnimatedInterpolation Native NativeFacts.

Lemma aget_lookup {A} (a : list A) (i : nat) (x : A) :
  a !! i = Some x -> InterpolationAnimatedNode.aget a i = Ok x.
Proof. unfold InterpolationAnimatedNode.aget. now intros ->. Qed.

End NativeRanges.

(** X4. On an input range of length at least 2, an output range of the same
    length and known extrapolation types, the native evaluation over arrays
    never throws: it reads the segment [findRange] selects, inside both
    arrays, and returns what the native [interpolate] gives on that
    segment. *)
Theorem native_evaluation_total (value : float) (inputRange outputRange : list float)
    (eL eR : string) (getNodeById : Z -> InterpolationAnimatedNode.NativeNode) :
  2 <= length inputRange -> length outputRange = length inputRange ->
  Native.knownType eL -> Native.knownType eR ->
  let i := AnimatedInterpolation.findRange value inputRange in
  exists inputMin inputMax outputMin outputMax,
    inputRange !! i = Some inputMin /\ inputRange !! (i + 1) = Some inputMax
    /\ outputRange !! i = Some outputMin /\ outputRange !! (i + 1) = Some outputMax
    /\ InterpolationAnimatedNode.interpolateRanges value inputRange (Some outputRange)
         None eL eR getNodeById
       = Ok match Extrapolation.extrapolated value inputMin inputMax eL eR with
            | AnimatedInterpolation.Return r => r
            | AnimatedInterpolation.Next result =>
              Native.nativeFormula result inputMin inputMax outputMin outputMax
            end.
Proof.
  intros Hn Hlen HL HR i.
  pose proof (RangeSearchLoop.findRange_bound value inputRange Hn) as Hi. fold i in Hi.
  destruct (lookup_lt_is_Some_2 inputRange i) as [inputMin H1]; [lia|].
  destruct (lookup_lt_is_Some_2 inputRange (i + 1)) as [inputMax H2]; [lia|].
  destruct (lookup_lt_is_Some_2 outputRange i) as [outputMin H3]; [lia|].
  destruct (lookup_lt_is_Some_2 outputRange (i + 1)) as [outputMax H4]; [lia|].
  exists inputMin, inputMax, outputMin, outputMax.
  repeat (split; [assumption|]).
  unfold InterpolationAnimatedNode.interpolateRanges.
  rewrite NativeEvaluation.findRangeIndex_findRange. cbn [mbind outcome_bind]. fold i.
  rewrite (NativeRanges.aget_lookup _ _ _ H3), (NativeRanges.aget_lookup _ _ _ H4).
  cbn [mbind outcome_bind].
  rewrite (NativeRanges.aget_lookup _ _ _ H1), (NativeRanges.aget_lookup _ _ _ H2).
  cbn [mbind outcome_bind fst snd].
  now apply NativeEvaluation.interpolate_known.
Qed.

Lemma native_evaluation_total_witness :
  exists v,
    InterpolationAnimatedNode.interpolateRanges 1.5 [0; 1; 2]%float
      (Some [10; 20; 30]%float) None "clamp" "clamp"
      (fun _ => InterpolationAnimatedNode.NullNode) = Ok v.
Proof.
  destruct (native_evaluation_total 1.5 [0; 1; 2]%float [10; 20; 30]%float
              "clamp" "clamp" (fun _ => InterpolationAnimatedNode.NullNode))
    as (a & b & c & d & _ & _ & _ & _ & H).
  - cbn. lia.
  - reflexivity.
  - right. left. reflexivity.
  - right. left. reflexivity.
  - eexists. exact H.
Defined.

(** X5. When the output range holds node identifiers, the native evaluation
    looks up the two nodes of the selected segment; if one of the lookups
    yields no node or a node that is not a value node, it throws
    JSApplicationCausedNativeException instead of computing with a
    default. *)
Theorem native_illegal_node (value : float) (inputRange : list float)
    (animations : list Z) (outputRange : option (list float)) (eL eR : string)
    (getNodeById : Z -> InterpolationAnimatedNode.NativeNode) (startId endId : Z) :
  let i := AnimatedInterpolation.findRange value inputRange in
  animations !! i = Some startId -> animations !! (i + 1) = Some endId ->
  (forall v, getNodeById startId <> InterpolationAnimatedNode.ValueNode v)
  \/ (forall v, getNodeById endId <> InterpolationAnimatedNode.ValueNode v) ->
  InterpolationAnimatedNode.interpolateRanges value inputRange outputRange
    (Some animations) eL eR getNodeById
  = Throw (JavaException "JSApplicationCausedNativeException"
             "Illegal node ID set in outputRange of Animated.interpolate node").
Proof.
  intros i Hstart Hend Hbad.
  unfold InterpolationAnimatedNode.interpolateRanges.
  rewrite NativeEvaluation.findRangeIndex_findRange. cbn [mbind outcome_bind]. fold i.
  rewrite (NativeRanges.aget_lookup _ _ _ Hstart), (NativeRanges.aget_lookup _ _ _ Hend).
  cbn [mbind outcome_bind].
  destruct (getNodeById startId) as [| |s] eqn:Hs; try reflexivity.
  destruct (getNodeById endId) as [| |e] eqn:He; try reflexivity.
  destruct Hbad as [Hbad|Hbad]; [destruct (Hbad s)|destruct (Hbad e)]; reflexivity.
Qed.

Lemma native_illegal_node_witness :
  InterpolationAnimatedNode.interpolateRanges 0.5 [0; 1]%float None
    (Some [7; 8]%Z) "extend" "extend"
    (fun id => if (id =? 7)%Z then InterpolationAnimatedNode.ValueNode 1
               else InterpolationAnimatedNode.NullNode)
  = Throw (JavaException "JSApplicationCausedNativeException"
             "Illegal node ID set in outputRange of Animated.interpolate node").
Proof.
  apply (native_illegal_node 0.5 [0; 1]%float [7; 8]%Z None "extend" "extend" _ 7 8).
  - reflexivity.
  - reflexivity.
  - right. intros v. discriminate.
Defined.

(** ** The order of binary64 values along an input range *)

Module OrderFacts.
Import AnimatedInterpolation Validity.

Ltac compare_cases e1 e2 e3 m1 m2 m3 H2 :=
  repeat match goal with
         | |- context [PosDef.Pos.compare_cont Eq ?p ?q] =>
           change (PosDef.Pos.compare_cont Eq p q) with (Pos.compare p q)
         | H : context [PosDef.Pos.compare_cont Eq ?p ?q] |- _ =>
           change (PosDef.Pos.compare_cont Eq p q) with (Pos.compare p q) in H
         end;
  destruct (Z.compare_spec e1 e2), (Z.compare_spec e2 e3), (Z.compare_spec e1 e3);
  subst; try lia; try congruence;
  destruct (Pos.compare_spec m1 m2), (Pos.compare_spec m2 m3), (Pos.compare_spec m1 m3);
  subst; cbn in *; try lia; try congruence.

Lemma SFcompare_le_lt_trans (x y z : spec_float) :
  (SFcompare x y = Some Lt \/ SFcompare x y = Some Eq) ->
  SFcompare y z = Some Lt ->
  SFcompare x z = Some Lt.
Proof.
  destruct x as [s1|s1| |s1 m1 e1], y as [s2|s2| |s2 m2 e2], z as [s3|s3| |s3 m3 e3];
    cbn; try destruct s1; try destruct s2; try destruct s3; cbn;
    try congruence; try (intros [?|?] ?; congruence).
  all: intros [H1|H1] H2; compare_cases e1 e2 e3 m1 m2 m3 H2.
Qed.

Lemma SFcompare_le_le_trans (x y z : spec_float) :
  (SFcompare x y = Some Lt \/ SFcompare x y = Some Eq) ->
  (SFcompare y z = Some Lt \/ SFcompare y z = Some Eq) ->
  SFcompare x z = Some Lt \/ SFcompare x z = Some Eq.
Proof.
  intros Hxy [Hyz|Hyz].
  - left. eauto using SFcompare_le_lt_trans.
  - destruct Hxy as [Hxy|Hxy].
    + left. eapply FloatFacts.SFcompare_lt_le_trans; eauto.
    + right. revert Hxy Hyz.
      destruct x as [s1|s1| |s1 m1 e1], y as [s2|s2| |s2 m2 e2],
               z as [s3|s3| |s3 m3 e3];
        cbn; try destruct s1; try destruct s2; try destruct s3; cbn;
        try congruence.
      all: intros H1 H2; compare_cases e1 e2 e3 m1 m2 m3 H2.
Qed.

Lemma le_cases (a b : float) :
  JS.le a b = true
  <-> (SFcompare (Prim2SF a) (Prim2SF b) = Some Lt
       \/ SFcompare (Prim2SF a) (Prim2SF b) = Some Eq).
Proof.
  unfold JS.le. rewrite leb_spec. unfold SFleb.
  destruct (SFcompare _ _) as [[]|]; split; intros H; auto;
    try discriminate; destruct H; discriminate.
Qed.

Lemma lt_cases (a b : float) :
  JS.lt a b = true <-> SFcompare (Prim2SF a) (Prim2SF b) = Some Lt.
Proof.
  unfold JS.lt. rewrite ltb_spec. unfold SFltb.
  destruct (SFcompare _ _) as [[]|]; split; intros H; auto; discriminate.
Qed.

Lemma le_trans (a b c : float) :
  JS.le a b = true -> JS.le b c = true -> JS.le a c = true.
Proof. rewrite !le_cases. apply SFcompare_le_le_trans. Qed.

Lemma le_lt_trans (a b c : float) :
  JS.le a b = true -> JS.lt b c = true -> JS.lt a c = true.
Proof. rewrite le_cases, !lt_cases. apply SFcompare_le_lt_trans. Qed.

(** [a <= b] makes both operands numbers. *)
Lemma le_refl_l (a b : float) : JS.le a b = true -> JS.le a a = true.
Proof.
  rewrite !le_cases. intros H. right. apply FloatFacts.SFcompare_refl.
  destruct H as [H|H]; eauto using FloatFacts.SFcompare_some_l.
Qed.

Lemma le_refl_r (a b : float) : JS.le a b = true -> JS.le b b = true.
Proof.
  rewrite !le_cases. intros H. right. apply FloatFacts.SFcompare_refl.
  destruct H as [H|H]; eauto using FloatFacts.SFcompare_some_r.
Qed.

Lemma SFcompare_numbers (x y : spec_float) :
  x <> S754_nan -> y <> S754_nan -> exists c, SFcompare x y = Some c.
Proof.
  destruct x as [s1|s1| |s1 m1 e1], y as [s2|s2| |s2 m2 e2]; cbn;
    intros Hx Hy; try congruence; eauto.
Qed.

(** Two numbers are comparable: if not [a <= b] then [b < a]. *)
Lemma not_le_lt (a b : float) :
  JS.le a a = true -> JS.le b b = true -> JS.le a b = false -> JS.lt b a = true.
Proof.
  intros Ha Hb. apply le_cases in Ha. apply le_cases in Hb.
  assert (Prim2SF a <> S754_nan) as Hna
    by (destruct Ha; eauto using FloatFacts.SFcompare_some_l).
  assert (Prim2SF b <> S754_nan) as Hnb
    by (destruct Hb; eauto using FloatFacts.SFcompare_some_l).
  destruct (SFcompare_numbers _ _ Hna Hnb) as [c Hc].
  unfold JS.le, JS.lt. rewrite leb_spec, ltb_spec. unfold SFleb, SFltb.
  rewrite (FloatFacts.SFcompare_antisym (Prim2SF a) (Prim2SF b)), Hc.
  destruct c; cbn; congruence.
Qed.

Lemma lt_not_lt (a b : float) : JS.lt a b = true -> JS.lt b a = false.
Proof.
  intros H. destruct (JS.lt b a) eqn:E; [|reflexivity].
  pose proof (FloatFacts.gt_not_le b a H) as Hgt.
  apply FloatFacts.lt_le in E. congruence.
Qed.

Section Range.
Variable inputRange : list float.
Hypothesis Hlength : 2 <= length inputRange.
Hypothesis Hmono : nonDecreasing inputRange.

Lemma adjacent (i : nat) (a b : float) :
  inputRange !! i = Some a -> inputRange !! (S i) = Some b -> JS.le a b = true.
Proof using Hmono Hlength.
  intros Ha Hb. pose proof (lookup_lt_Some _ _ _ Hb) as Hlt.
  specialize (Hmono (S i)). unfold ge_at in Hmono.
  replace (S i - 1) with i in Hmono by lia. rewrite Ha, Hb in Hmono.
  apply Hmono. lia.
Qed.

Lemma is_number (i : nat) (a : float) :
  inputRange !! i = Some a -> JS.le a a = true.
Proof using Hmono Hlength.
  intros Ha. pose proof (lookup_lt_Some _ _ _ Ha) as Hlt.
  destruct i as [|i].
  - destruct (lookup_lt_is_Some_2 inputRange 1) as [b Hb]; [lia|].
    eapply le_refl_l, adjacent; eassumption.
  - destruct (lookup_lt_is_Some_2 inputRange i) as [b Hb]; [lia|].
    eapply le_refl_r, adjacent; eassumption.
Qed.

Lemma sorted (i j : nat) (a b : float) :
  i <= j -> inputRange !! i = Some a -> inputRange !! j = Some b ->
  JS.le a b = true.
Proof using Hmono Hlength.
  intros Hij Ha. revert b. induction Hij as [|j Hij IH]; intros b Hb.
  - assert (a = b) as <- by congruence. eapply is_number; eassumption.
  - destruct (lookup_lt_is_Some_2 inputRange j) as [c Hc].
    { apply lookup_lt_Some in Hb. lia. }
    eapply le_trans; [apply IH; eassumption|]. eapply adjacent; eassumption.
Qed.

End Range.

End OrderFacts.

Module SegmentFacts.
Import AnimatedInterpolation Validity RangeSearch.

Lemma find_seq_Some (P : nat -> bool) (len start k : nat) :
  List.find P (seq start len) = Some k ->
  start <= k < start + len /\ P k = true /\ forall j, start <= j < k -> P j = false.
Proof.
  revert start. induction len as [|len IH]; intros start; cbn; [discriminate|].
  destruct (P start) eqn:Hstart.
  - intros [= <-]. split; [lia|]. split; [assumption|]. intros j Hj. lia.
  - intros H. apply IH in H as (Hk & HP & Hbefore).
    split; [lia|]. split; [assumption|]. intros j Hj.
    destruct (decide (j = start)) as [->|Hne]; [assumption|]. apply Hbefore. lia.
Qed.

Lemma find_seq_None (P : nat -> bool) (len start : nat) :
  List.find P (seq start len) = None ->
  forall j, start <= j < start + len -> P j = false.
Proof.
  revert start. induction len as [|len IH]; intros start; cbn; [intros _ j Hj; lia|].
  destruct (P start) eqn:Hstart; [discriminate|].
  intros H j Hj. destruct (decide (j = start)) as [->|Hne]; [assumption|].
  apply (IH (S start)); [assumption|lia].
Qed.

Section Range.
Variable inputRange : list float.
Variables first last : float.
Hypothesis Hlength : 2 <= length inputRange.
Hypothesis Hmono : nonDecreasing inputRange.
Hypothesis Hfirst : inputRange !! 0 = Some first.
Hypothesis Hlast : inputRange !! (length inputRange - 1) = Some last.

(** The position the scan stops at. *)
Lemma scan_position (x : float) :
  let k := firstGe_spec x inputRange in
  1 <= k <= length inputRange - 1
  /\ findRange x inputRange = k - 1
  /\ (forall j, 1 <= j < k -> geAt inputRange x j = false)
  /\ (k < length inputRange - 1 -> geAt inputRange x k = true).
Proof using Hlength.
  intros k. split; [apply RangeSearchLoop.firstGe_spec_range; assumption|].
  split; [apply RangeSearchLoop.findRange_scan; assumption|].
  unfold k, firstGe_spec.
  destruct (List.find _ _) as [i|] eqn:Hfind; cbn.
  - apply find_seq_Some in Hfind as (Hi & HP & Hbefore). auto.
  - split; [|lia]. intros j Hj. eapply find_seq_None; [exact Hfind|lia].
Qed.

Lemma below_first (x : float) :
  JS.lt x first = true -> findRange x inputRange = 0.
Proof using Hlength Hmono Hfirst.
  intros Hx. destruct (scan_position x) as (Hk & -> & Hbefore & _).
  destruct (decide (firstGe_spec x inputRange = 1)) as [->|Hne]; [reflexivity|].
  exfalso. destruct (lookup_lt_is_Some_2 inputRange 1) as [b Hb]; [lia|].
  specialize (Hbefore 1). unfold geAt in Hbefore. rewrite Hb in Hbefore.
  assert (JS.ge b x = true) as Hge.
  { apply FloatFacts.lt_le. eapply FloatFacts.lt_le_trans; [exact Hx|].
    eapply OrderFacts.adjacent; eassumption. }
  rewrite Hge in Hbefore. discriminate Hbefore. lia.
Qed.

Lemma at_first : findRange first inputRange = 0.
Proof using Hlength Hmono Hfirst.
  destruct (scan_position first) as (Hk & -> & Hbefore & _).
  destruct (decide (firstGe_spec first inputRange = 1)) as [->|Hne]; [reflexivity|].
  exfalso. destruct (lookup_lt_is_Some_2 inputRange 1) as [b Hb]; [lia|].
  specialize (Hbefore 1). unfold geAt in Hbefore. rewrite Hb in Hbefore.
  assert (JS.ge b first = true) as Hge by (eapply OrderFacts.adjacent; eassumption).
  rewrite Hge in Hbefore. discriminate Hbefore. lia.
Qed.

Lemma above_last (x : float) :
  JS.gt x last = true -> findRange x inputRange = length inputRange - 2.
Proof using Hlength Hmono Hlast.
  intros Hx. destruct (scan_position x) as (Hk & -> & _ & Hstop).
  destruct (decide (firstGe_spec x inputRange = length inputRange - 1)) as [->|Hne];
    [lia|].
  exfalso. set (k := firstGe_spec x inputRange) in *.
  destruct (lookup_lt_is_Some_2 inputRange k) as [b Hb]; [lia|].
  assert (geAt inputRange x k = true) as Hge by (apply Hstop; lia).
  unfold geAt in Hge. rewrite Hb in Hge.
  assert (JS.lt b x = true) as Hlt.
  { eapply OrderFacts.le_lt_trans; [|exact Hx].
    eapply (OrderFacts.sorted inputRange Hlength Hmono k (length inputRange - 1));
      [lia|eassumption|eassumption]. }
  pose proof (FloatFacts.gt_not_le x b Hlt) as Hnot. unfold JS.ge, JS.le in *.
  congruence.
Qed.

Lemma enclosing (x : float) :
  JS.le first x = true -> JS.le x last = true ->
  exists a b,
    inputRange !! findRange x inputRange = Some a
    /\ inputRange !! (findRange x inputRange + 1) = Some b
    /\ JS.le a x = true /\ JS.le x b = true.
Proof using Hlength Hmono Hfirst Hlast.
  intros Hlow Hhigh. destruct (scan_position x) as (Hk & -> & Hbefore & Hstop).
  set (k := firstGe_spec x inputRange) in *.
  destruct (lookup_lt_is_Some_2 inputRange (k - 1)) as [a Ha]; [lia|].
  destruct (lookup_lt_is_Some_2 inputRange k) as [b Hb]; [lia|].
  exists a, b. split; [assumption|].
  split; [now replace (k - 1 + 1) with k by lia|]. split.
  - destruct (decide (k = 1)) as [Hk1|Hk1].
    + rewrite Hk1 in Ha. cbn in Ha. congruence.
    + specialize (Hbefore (k - 1)). unfold geAt in Hbefore. rewrite Ha in Hbefore.
      apply FloatFacts.lt_le, OrderFacts.not_le_lt.
      * eapply OrderFacts.le_refl_r; eassumption.
      * eapply OrderFacts.is_number; eassumption.
      * apply Hbefore. lia.
  - destruct (decide (k = length inputRange - 1)) as [Hend|Hend].
    + rewrite Hend in Hb. congruence.
    + assert (geAt inputRange x k = true) as Hge by (apply Hstop; lia).
      unfold geAt in Hge. now rewrite Hb in Hge.
Qed.

End Range.

End SegmentFacts.

Module NumericMapperFacts.
Import AnimatedInterpolation Construction Validity ValidityFacts.

Section WithEnvironment.
Context {Node : Type} (getValue : Node -> outcome JS.Primitive)
        (normalizeColor : string -> option Z).

(** What a mapper constructed over numbers is. *)
Lemma createInterpolation_numbers (config : InterpolationConfigType)
    (outputs : list float) (mapper : float -> outcome (option JSValue)) :
  createInterpolation getValue normalizeColor config = Ok mapper ->
  config.(outputRange) = Numbers outputs ->
  2 <= length config.(inputRange)
  /\ length outputs = length config.(inputRange)
  /\ nonDecreasing config.(inputRange)
  /\ forall x,
       mapper x
       = (value ← numericMapper getValue config.(inputRange) (Numbers outputs)
                    (default linear config.(easing))
                    (resolveExtrapolate config.(extrapolateLeft) config.(extrapolate))
                    (resolveExtrapolate config.(extrapolateRight) config.(extrapolate))
                    x;
          Ok (ofPrimitive <$> (value : option JS.Primitive))).
Proof.
  unfold createInterpolation. intros H Hrange. rewrite Hrange in H.
  inv_bind H. injection H as <-.
  apply createNumericInterpolation_iff in Ha as [(H1 & H2 & H3 & _) ->].
  rewrite Hrange in *. cbn in H2. rewrite length_map in H2. auto.
Qed.

Lemma numericMapper_at (inputRange outputs : list float) (easing : float -> float)
    (eL eR : ExtrapolateType) (x a b oa ob : float) :
  inputRange !! findRange x inputRange = Some a ->
  inputRange !! (findRange x inputRange + 1) = Some b ->
  outputs !! findRange x inputRange = Some oa ->
  outputs !! (findRange x inputRange + 1) = Some ob ->
  numericMapper getValue inputRange (Numbers outputs) easing eL eR x
  = Ok (Some (JS.PNumber (interpolate x a b oa ob easing eL eR))).
Proof.
  intros Ha Hb Hoa Hob. unfold numericMapper. cbn [outputValueAt].
  rewrite Hoa, Hob, Ha, Hb.
  cbn [mbind outcome_bind option_bind fmap option_fmap option_map].
  now rewrite interpolateValues_numbers.
Qed.

(** The value of a mapper over numbers on the segment it selects. *)
Lemma mapper_at (config : @InterpolationConfigType Node) (outputs : list float)
    (mapper : float -> outcome (option (@JSValue Node))) (x a b oa ob : float) :
  (forall x,
     mapper x
     = (value ← numericMapper getValue config.(inputRange) (Numbers outputs)
                  (default linear config.(easing))
                  (resolveExtrapolate config.(extrapolateLeft) config.(extrapolate))
                  (resolveExtrapolate config.(extrapolateRight) config.(extrapolate))
                  x;
        Ok (ofPrimitive <$> (value : option JS.Primitive)))) ->
  config.(inputRange) !! findRange x config.(inputRange) = Some a ->
  config.(inputRange) !! (findRange x config.(inputRange) + 1) = Some b ->
  outputs !! findRange x config.(inputRange) = Some oa ->
  outputs !! (findRange x config.(inputRange) + 1) = Some ob ->
  mapper x
  = Ok (Some (VNumber
                (interpolate x a b oa ob (default linear config.(easing))
                   (resolveExtrapolate config.(extrapolateLeft) config.(extrapolate))
                   (resolveExtrapolate config.(extrapolateRight) config.(extrapolate))))).
Proof.
  intros Hmapper Ha Hb Hoa Hob.
  rewrite Hmapper, (numericMapper_at _ _ _ _ _ x a b oa ob Ha Hb Hoa Hob).
  reflexivity.
Qed.

End WithEnvironment.

End NumericMapperFacts.

(** X6. A numeric mapper that was constructed, asked for an input between
    the first and the last entry of its input range, evaluates on a segment
    that encloses the input ([inputRange[i] <= x <= inputRange[i+1]]), and
    applies no extrapolation there, whatever the extrapolation types are:
    its value is the segment mapping of [x] itself. *)
Theorem within_range_evaluation
    (Node : Type) (getValue : Node -> outcome JS.Primitive)
    (normalizeColor : string -> option Z)
    (config : AnimatedInterpolation.InterpolationConfigType)
    (outputs : list float)
    (mapper : float -> outcome (option AnimatedInterpolation.JSValue))
    (first last x : float) :
  AnimatedInterpolation.createInterpolation getValue normalizeColor config = Ok mapper ->
  config.(AnimatedInterpolation.outputRange) = AnimatedInterpolation.Numbers outputs ->
  config.(AnimatedInterpolation.inputRange) !! 0 = Some first ->
  config.(AnimatedInterpolation.inputRange)
    !! (length config.(AnimatedInterpolation.inputRange) - 1) = Some last ->
  JS.le first x = true -> JS.le x last = true ->
  let i := AnimatedInterpolation.findRange x config.(AnimatedInterpolation.inputRange) in
  exists a b oa ob,
    config.(AnimatedInterpolation.inputRange) !! i = Some a
    /\ config.(AnimatedInterpolation.inputRange) !! (i + 1) = Some b
    /\ outputs !! i = Some oa /\ outputs !! (i + 1) = Some ob
    /\ JS.le a x = true /\ JS.le x b = true
    /\ mapper x
       = Ok (Some (AnimatedInterpolation.VNumber
                     (AnimatedInterpolation.mapSegment x x a b oa ob
                        (default AnimatedInterpolation.linear
                           config.(AnimatedInterpolation.easing))))).
Proof.
  intros Hm Hrange Hfirst Hlast Hlow Hhigh i.
  destruct (NumericMapperFacts.createInterpolation_numbers _ _ _ _ _ Hm Hrange)
    as (Hn & Hlen & Hmono & Hmapper).
  destruct (SegmentFacts.enclosing _ first last Hn Hmono Hfirst Hlast x Hlow Hhigh)
    as (a & b & Ha & Hb & Hax & Hxb).
  fold i in Ha, Hb.
  pose proof (lookup_lt_Some _ _ _ Hb) as Hi.
  destruct (lookup_lt_is_Some_2 outputs i) as [oa Hoa]; [lia|].
  destruct (lookup_lt_is_Some_2 outputs (i + 1)) as [ob Hob]; [lia|].
  exists a, b, oa, ob. repeat (split; [assumption|]).
  rewrite (NumericMapperFacts.mapper_at getValue config outputs mapper x a b oa ob
             Hmapper Ha Hb Hoa Hob).
  do 3 f_equal.
  unfold AnimatedInterpolation.interpolate,
    AnimatedInterpolation.extrapolateLeftStep,
    AnimatedInterpolation.extrapolateRightStep.
  pose proof (FloatFacts.le_not_gt a x Hax) as H1. unfold JS.gt in H1.
  pose proof (FloatFacts.le_not_gt x b Hxb) as H2.
  unfold JS.lt. now rewrite H1, H2.
Qed.

Lemma within_range_evaluation_witness :
  exists mapper,
    AnimatedInterpolation.createInterpolation Samples.zeroNodes Samples.twoColors
      Samples.tenfold = Ok mapper
    /\ exists a b oa ob,
         mapper 0.5%float
         = Ok (Some (AnimatedInterpolation.VNumber
                       (AnimatedInterpolation.mapSegment 0.5 0.5 a b oa ob
                          AnimatedInterpolation.linear))).
Proof.
  destruct (AnimatedInterpolation.createInterpolation Samples.zeroNodes
              Samples.twoColors Samples.tenfold) as [mapper|e] eqn:E.
  - exists mapper. split; [reflexivity|].
    destruct (within_range_evaluation unit Samples.zeroNodes Samples.twoColors
                Samples.tenfold [0; 10]%float mapper 0 1 0.5 E)
      as (a & b & oa & ob & _ & _ & _ & _ & _ & _ & H); try reflexivity.
    exists a, b, oa, ob. exact H.
  - apply (f_equal is_ok) in E. vm_compute in E. discriminate E.
Defined.

(** X7. A numeric mapper that was constructed, asked for an input below the
    first entry of its input range, selects the first segment; it returns
    the input itself when the left extrapolation is identity and the value
    it gives at that first entry when it is clamp.  Asked for an input above
    the last entry it selects the last segment, and returns the input
    itself when the right extrapolation is identity. *)
Theorem outside_range_evaluation
    (Node : Type) (getValue : Node -> outcome JS.Primitive)
    (normalizeColor : string -> option Z)
    (config : AnimatedInterpolation.InterpolationConfigType)
    (outputs : list float)
    (mapper : float -> outcome (option AnimatedInterpolation.JSValue))
    (first last x : float) :
  AnimatedInterpolation.createInterpolation getValue normalizeColor config = Ok mapper ->
  config.(AnimatedInterpolation.outputRange) = AnimatedInterpolation.Numbers outputs ->
  config.(AnimatedInterpolation.inputRange) !! 0 = Some first ->
  config.(AnimatedInterpolation.inputRange)
    !! (length config.(AnimatedInterpolation.inputRange) - 1) = Some last ->
  let left := AnimatedInterpolation.resolveExtrapolate
                config.(AnimatedInterpolation.extrapolateLeft)
                config.(AnimatedInterpolation.extrapolate) in
  let right := AnimatedInterpolation.resolveExtrapolate
                 config.(AnimatedInterpolation.extrapolateRight)
                 config.(AnimatedInterpolation.extrapolate) in
  (JS.lt x first = true ->
     AnimatedInterpolation.findRange x config.(AnimatedInterpolation.inputRange) = 0)
  /\ (JS.gt x last = true ->
      AnimatedInterpolation.findRange x config.(AnimatedInterpolation.inputRange)
      = length config.(AnimatedInterpolation.inputRange) - 2)
  /\ (JS.lt x first = true -> left = "identity" ->
      mapper x = Ok (Some (AnimatedInterpolation.VNumber x)))
  /\ (JS.lt x first = true -> left = "clamp" -> mapper x = mapper first)
  /\ (JS.gt x last = true -> right = "identity" ->
      mapper x = Ok (Some (AnimatedInterpolation.VNumber x))).
Proof.
  intros Hm Hrange Hfirst Hlast left right.
  destruct (NumericMapperFacts.createInterpolation_numbers _ _ _ _ _ Hm Hrange)
    as (Hn & Hlen & Hmono & Hmapper).
  set (inputs := config.(AnimatedInterpolation.inputRange)) in *.
  assert (forall i, i <= length inputs - 2 ->
            exists a b oa ob,
              inputs !! i = Some a /\ inputs !! (i + 1) = Some b
              /\ outputs !! i = Some oa /\ outputs !! (i + 1) = Some ob) as Hsegment.
  { intros i Hi.
    destruct (lookup_lt_is_Some_2 inputs i) as [a Ha]; [lia|].
    destruct (lookup_lt_is_Some_2 inputs (i + 1)) as [b Hb]; [lia|].
    destruct (lookup_lt_is_Some_2 outputs i) as [oa Hoa]; [lia|].
    destruct (lookup_lt_is_Some_2 outputs (i + 1)) as [ob Hob]; [lia|].
    exists a, b, oa, ob. auto. }
  split; [|split; [|split; [|split]]].
  - intros Hx. exact (SegmentFacts.below_first inputs first Hn Hmono Hfirst x Hx).
  - intros Hx. exact (SegmentFacts.above_last inputs last Hn Hmono Hlast x Hx).
  - intros Hx Hleft.
    pose proof (SegmentFacts.below_first inputs first Hn Hmono Hfirst x Hx) as Hi.
    destruct (Hsegment 0) as (a & b & oa & ob & Ha & Hb & Hoa & Hob); [lia|].
    assert (a = first) as -> by congruence.
    rewrite (NumericMapperFacts.mapper_at getValue config outputs mapper x first b oa ob
               Hmapper)
      by (fold inputs; rewrite Hi; assumption).
    fold left. rewrite Hleft. do 3 f_equal.
    now apply ExtrapolationFacts.left_identity.
  - intros Hx Hleft.
    pose proof (SegmentFacts.below_first inputs first Hn Hmono Hfirst x Hx) as Hi.
    pose proof (SegmentFacts.at_first inputs first Hn Hmono Hfirst) as Hi'.
    destruct (Hsegment 0) as (a & b & oa & ob & Ha & Hb & Hoa & Hob); [lia|].
    assert (a = first) as -> by congruence.
    rewrite (NumericMapperFacts.mapper_at getValue config outputs mapper x first b oa ob
               Hmapper)
      by (fold inputs; rewrite Hi; assumption).
    rewrite (NumericMapperFacts.mapper_at getValue config outputs mapper first first b
               oa ob Hmapper)
      by (fold inputs; rewrite Hi'; assumption).
    fold left. rewrite Hleft. do 3 f_equal.
    now apply ExtrapolationFacts.left_clamp.
  - intros Hx Hright.
    pose proof (SegmentFacts.above_last inputs last Hn Hmono Hlast x Hx) as Hi.
    destruct (Hsegment (length inputs - 2)) as (a & b & oa & ob & Ha & Hb & Hoa & Hob);
      [lia|].
    replace (length inputs - 2 + 1) with (length inputs - 1) in Hb, Hob by lia.
    assert (b = last) as -> by congruence.
    assert (JS.lt x a = false) as Hlow.
    { apply OrderFacts.lt_not_lt. eapply OrderFacts.le_lt_trans; [|exact Hx].
      eapply (OrderFacts.sorted inputs Hn Hmono (length inputs - 2) (length inputs - 1));
        [lia|eassumption|eassumption]. }
    rewrite (NumericMapperFacts.mapper_at getValue config outputs mapper x a last oa ob
               Hmapper).
    + fold right. rewrite Hright. do 3 f_equal.
      now apply ExtrapolationFacts.right_identity.
    + fold inputs. now rewrite Hi.
    + fold inputs. rewrite Hi.
      now replace (length inputs - 2 + 1) with (length inputs - 1) by lia.
    + fold inputs. now rewrite Hi.
    + fold inputs. rewrite Hi.
      now replace (length inputs - 2 + 1) with (length inputs - 1) by lia.
Qed.

Lemma outside_range_evaluation_witness :
  exists mapper,
    AnimatedInterpolation.createInterpolation Samples.zeroNodes Samples.twoColors
      (Samples.config [0; 1; 2]%float (AnimatedInterpolation.Numbers [10; 20; 30]%float)
         (Some "clamp") (Some "identity")) = Ok mapper
    /\ AnimatedInterpolation.findRange (-3) [0; 1; 2]%float = 0
    /\ AnimatedInterpolation.findRange 7 [0; 1; 2]%float = 1
    /\ mapper (-3)%float = mapper 0%float
    /\ mapper 7%float = Ok (Some (AnimatedInterpolation.VNumber 7)).
Proof.
  destruct (AnimatedInterpolation.createInterpolation Samples.zeroNodes
              Samples.twoColors _) as [mapper|e] eqn:E.
  - exists mapper. split; [reflexivity|].
    pose proof (fun x => outside_range_evaluation unit Samples.zeroNodes
                  Samples.twoColors _ [10; 20; 30]%float mapper 0 2 x E
                  eq_refl eq_refl eq_refl) as H.
    cbv zeta in H. split; [|split; [|split]].
    + apply (proj1 (H (-3)%float)); reflexivity.
    + apply (proj1 (proj2 (H 7%float))); reflexivity.
    + apply (proj1 (proj2 (proj2 (proj2 (H (-3)%float))))); reflexivity.
    + apply (proj2 (proj2 (proj2 (proj2 (H 7%float))))); reflexivity.
  - apply (f_equal is_ok) in E. vm_compute in E. discriminate E.
Defined.

Module ExportConfigFacts.
Import AnimatedInterpolation.

Lemma transform_numbers {Node} (getNativeTag : Node -> outcome (option Z))
    (l : list float) :
  __transformOutputRange getNativeTag (map VNumber l) = Ok l.
Proof.
  unfold __transformOutputRange. induction l as [|x l IH]; [reflexivity|].
  cbn [map mapM transformOutputValue mbind outcome_bind]. now rewrite IH.
Qed.

Lemma orExtend_resolve (own shared : option ExtrapolateType) :
  own <> Some "" -> shared <> Some "" ->
  orExtend own shared = resolveExtrapolate own shared.
Proof.
  intros Hown Hshared. unfold orExtend, resolveExtrapolate.
  destruct own as [[|c s]|]; [now destruct Hown|reflexivity|].
  destruct shared as [[|c s]|]; [now destruct Hshared|reflexivity|reflexivity].
Qed.

End ExportConfigFacts.

(** X8. Exporting a node whose output range holds numbers, in a
    production build or in a development build whose validation accepts
    the configuration, yields the parent's native tag, the input range and
    the output range unchanged, the flag for node-valued output unset, and
    the discriminator ["interpolation"]; in a development build whose
    validation throws, the export throws that error before anything else
    is done.  The exported extrapolation types are those the scripting-tier
    mapper uses, provided no extrapolation field is the empty string. *)
Theorem export_numeric_config
    (Node : Type) (getNativeTag : Node -> outcome (option Z))
    (dev : bool)
    (validateInterpolation : AnimatedInterpolation.InterpolationConfigType -> outcome unit)
    (_parent : Node)
    (config : AnimatedInterpolation.InterpolationConfigType)
    (outputs : list float) (tag : option Z) :
  getNativeTag _parent = Ok tag ->
  config.(AnimatedInterpolation.outputRange) = AnimatedInterpolation.Numbers outputs ->
  (dev = false \/ validateInterpolation config = Ok tt ->
   AnimatedInterpolation.__getNativeConfig getNativeTag dev validateInterpolation
     _parent config
   = Ok {| AnimatedInterpolation.native_parent := tag;
           AnimatedInterpolation.native_inputRange :=
             config.(AnimatedInterpolation.inputRange);
           AnimatedInterpolation.native_outputRange := outputs;
           AnimatedInterpolation.isOutputRangeAnimations := false;
           AnimatedInterpolation.native_extrapolateLeft :=
             AnimatedInterpolation.orExtend
               config.(AnimatedInterpolation.extrapolateLeft)
               config.(AnimatedInterpolation.extrapolate);
           AnimatedInterpolation.native_extrapolateRight :=
             AnimatedInterpolation.orExtend
               config.(AnimatedInterpolation.extrapolateRight)
               config.(AnimatedInterpolation.extrapolate);
           AnimatedInterpolation.native_type := "interpolation" |})
  /\ (forall e, dev = true -> validateInterpolation config = Throw e ->
        AnimatedInterpolation.__getNativeConfig getNativeTag dev validateInterpolation
          _parent config
        = Throw e)
  /\ (config.(AnimatedInterpolation.extrapolate) <> Some "" ->
      (config.(AnimatedInterpolation.extrapolateLeft) <> Some "" ->
       AnimatedInterpolation.orExtend
         config.(AnimatedInterpolation.extrapolateLeft)
         config.(AnimatedInterpolation.extrapolate)
       = AnimatedInterpolation.resolveExtrapolate
           config.(AnimatedInterpolation.extrapolateLeft)
           config.(AnimatedInterpolation.extrapolate))
      /\ (config.(AnimatedInterpolation.extrapolateRight) <> Some "" ->
          AnimatedInterpolation.orExtend
            config.(AnimatedInterpolation.extrapolateRight)
            config.(AnimatedInterpolation.extrapolate)
          = AnimatedInterpolation.resolveExtrapolate
              config.(AnimatedInterpolation.extrapolateRight)
              config.(AnimatedInterpolation.extrapolate))).
Proof.
  intros Htag Hrange. split; [|split].
  - intros Hvalid. unfold AnimatedInterpolation.__getNativeConfig.
    assert ((if dev then validateInterpolation config else Ok tt) = Ok tt) as ->.
    { destruct Hvalid as [->|Hvalid]; [reflexivity|]. now destruct dev. }
    rewrite Htag, Hrange. cbn [mbind outcome_bind AnimatedInterpolation.toValues].
    rewrite ExportConfigFacts.transform_numbers. cbn [mbind outcome_bind].
    destruct outputs; reflexivity.
  - intros e -> Hthrow. unfold AnimatedInterpolation.__getNativeConfig.
    now rewrite Hthrow.
  - intros Hshared. split; intros Hown;
      now apply ExportConfigFacts.orExtend_resolve.
Qed.

Lemma export_numeric_config_witness :
  (exists exported,
     AnimatedInterpolation.__getNativeConfig (fun _ : unit => Ok (Some 3%Z))
       true (fun _ => Ok tt) tt Samples.tenfold = Ok exported
     /\ AnimatedInterpolation.native_outputRange exported = [0; 10]%float
     /\ AnimatedInterpolation.native_extrapolateLeft exported = "extend")
  /\ AnimatedInterpolation.__getNativeConfig (fun _ : unit => Ok (Some 3%Z))
       true (fun _ => Throw (InvariantViolation "easing")) tt Samples.tenfold
     = Throw (InvariantViolation "easing").
Proof.
  split.
  - eexists. split.
    + apply (proj1 (export_numeric_config unit (fun _ => Ok (Some 3%Z)) true
                      (fun _ => Ok tt) tt Samples.tenfold [0; 10]%float (Some 3%Z)
                      eq_refl eq_refl)).
      now right.
    + split; reflexivity.
  - apply (proj1 (proj2 (export_numeric_config unit (fun _ => Ok (Some 3%Z)) true
                           (fun _ => Throw (InvariantViolation "easing")) tt
                           Samples.tenfold [0; 10]%float (Some 3%Z) eq_refl eq_refl)));
      reflexivity.
Defined.

(** An empty extrapolation field breaks that agreement: the mapper
    reads it as a type of its own (and so extends), the export replaces it
    by the shared field. *)
Lemma export_empty_extrapolation :
  AnimatedInterpolation.resolveExtrapolate (Some "") (Some "clamp") = ""
  /\ AnimatedInterpolation.orExtend (Some "") (Some "clamp") = "clamp".
Proof. split; reflexivity. Qed.

(** ** Colour channels *)

Module ColorFacts.
Import AnimatedInterpolation.

Local Open Scope Z_scope.

Lemma toInt32_mod (z : Z) : JS.toInt32 z mod 2 ^ 32 = z mod 2 ^ 32.
Proof.
  unfold JS.toInt32.
  rewrite Zminus_mod, Zmod_mod, <- Zminus_mod.
  f_equal. lia.
Qed.

Lemma land_mod (a b : Z) :
  Z.land a b mod 2 ^ 32 = Z.land (a mod 2 ^ 32) (b mod 2 ^ 32).
Proof.
  apply Z.bits_inj'. intros i Hi. rewrite Z.land_spec.
  destruct (Z.ltb_spec i 32) as [Hlt|Hge].
  - rewrite !Z.mod_pow2_bits_low by lia. now rewrite Z.land_spec.
  - rewrite !Z.mod_pow2_bits_high by lia. reflexivity.
Qed.

(** [(c & mask) >>> shift] on the bits of [c] and [mask]. *)
Lemma ushr_bitand (c mask shift : Z) :
  0 <= shift < 32 ->
  JS.ushr (JS.bitand c mask) shift
  = Z.shiftr (Z.land (c mod 2 ^ 32) (mask mod 2 ^ 32)) shift.
Proof.
  intros Hshift. unfold JS.ushr, JS.bitand, JS.toUint32.
  rewrite toInt32_mod, land_mod, !toInt32_mod.
  rewrite (Z.mod_small shift) by lia. now rewrite (Z.mod_small shift 32) by lia.
Qed.

(** The byte of [c] that starts at bit [shift]. *)
Lemma byte_at (c shift : Z) :
  0 <= shift -> shift + 8 <= 32 ->
  Z.shiftr (Z.land (c mod 2 ^ 32) (Z.shiftl (Z.ones 8) shift)) shift
  = (c / 2 ^ shift) mod 2 ^ 8.
Proof.
  intros H0 H32. apply Z.bits_inj'. intros i Hi.
  rewrite Z.shiftr_spec, Z.land_spec, Z.shiftl_spec by lia.
  replace (i + shift - shift) with i by lia.
  destruct (Z.ltb_spec i 8) as [Hlt|Hge].
  - rewrite !Z.mod_pow2_bits_low by lia.
    rewrite Z.ones_spec_low, andb_true_r by lia.
    now rewrite Z.div_pow2_bits by lia.
  - rewrite Z.ones_spec_high, andb_false_r by lia.
    now rewrite Z.mod_pow2_bits_high by lia.
Qed.

End ColorFacts.

Module ColorChannels.
Import AnimatedInterpolation ColorFacts.

Local Open Scope Z_scope.

Lemma channel (c shift : Z) :
  0 <= shift -> shift + 8 <= 32 ->
  JS.ushr (JS.bitand c (Z.shiftl (Z.ones 8) shift)) shift = (c / 2 ^ shift) mod 2 ^ 8.
Proof.
  intros H0 H32. rewrite ushr_bitand by lia.
  rewrite (Z.mod_small (Z.shiftl (Z.ones 8) shift)).
  - now apply byte_at.
  - rewrite Z.shiftl_mul_pow2 by lia. change (Z.ones 8) with 255.
    assert (0 < 2 ^ shift) by (apply Z.pow_pos_nonneg; lia).
    assert (2 ^ shift <= 2 ^ 24) by (apply Z.pow_le_mono_r; lia).
    change (2 ^ 32) with (256 * 2 ^ 24). nia.
Qed.

Lemma low_byte (c : Z) : JS.bitand c 255 = c mod 2 ^ 8.
Proof.
  unfold JS.bitand. change (JS.toInt32 255) with (Z.ones 8).
  rewrite Z.land_ones by lia.
  assert (JS.toInt32 c mod 2 ^ 8 = c mod 2 ^ 8) as ->.
  { apply Z.bits_inj'. intros i Hi.
    destruct (Z.ltb_spec i 8) as [Hlt|Hge].
    - rewrite !Z.mod_pow2_bits_low by lia.
      rewrite <- (Z.mod_pow2_bits_low (JS.toInt32 c) 32 i) by lia.
      rewrite toInt32_mod. now rewrite Z.mod_pow2_bits_low by lia.
    - now rewrite !Z.mod_pow2_bits_high by lia. }
  pose proof (Z.mod_pos_bound c (2 ^ 8) ltac:(lia)) as Hbound.
  unfold JS.toInt32. rewrite Z.mod_small; lia.
Qed.

End ColorChannels.

(** X9. [colorToRgba] leaves a string the normalizer does not know as it
    is, and prints a colour [c] as ["rgba(R, G, B, A)"] where [R], [G], [B]
    are the bytes of [c] at bits 24, 16 and 8, each between 0 and 255, and
    [A] is the low byte divided by 255: the sign the 32-bit [&] gives the
    top byte does not reach the result of [>>>]. *)
Theorem color_channels (normalizeColor : string -> option Z) (input : string) :
  (normalizeColor input = None ->
     AnimatedInterpolation.colorToRgba normalizeColor input = input)
  /\ (forall c, normalizeColor input = Some c ->
        let byte (shift : Z) := ((c / 2 ^ shift) mod 2 ^ 8)%Z in
        AnimatedInterpolation.colorToRgba normalizeColor input
        = JS.concat ["rgba("; JS.numberToString (JS.ofZ (byte 24%Z)); ", ";
                     JS.numberToString (JS.ofZ (byte 16%Z)); ", ";
                     JS.numberToString (JS.ofZ (byte 8%Z)); ", ";
                     JS.numberToString (JS.div (JS.ofZ (byte 0%Z)) 255); ")"]
        /\ (forall shift, (0 <= byte shift < 256)%Z)).
Proof.
  split.
  - intros Hnone. unfold AnimatedInterpolation.colorToRgba. now rewrite Hnone.
  - intros c Hc byte. split.
    + unfold AnimatedInterpolation.colorToRgba. rewrite Hc.
      change 4278190080%Z with (Z.shiftl (Z.ones 8) 24).
      change 16711680%Z with (Z.shiftl (Z.ones 8) 16).
      change 65280%Z with (Z.shiftl (Z.ones 8) 8).
      rewrite !ColorChannels.channel by lia.
      rewrite ColorChannels.low_byte.
      unfold byte. now rewrite Z.pow_0_r, Z.div_1_r.
    + intros shift. unfold byte. apply Z.mod_pos_bound. lia.
Qed.

Lemma color_channels_witness :
  AnimatedInterpolation.colorToRgba Samples.twoColors "rgba(255,255,255,1)"
  = "rgba(255, 255, 255, 1)".
Proof.
  rewrite (proj1 (proj2 (color_channels Samples.twoColors "rgba(255,255,255,1)")
                    4294967295%Z eq_refl)).
  vm_compute. reflexivity.
Defined.

(** ** The matches of the shape expression *)

Module TokenFacts.
Import AnimatedInterpolation Tokens.

Lemma shapePieces_cons (c : ascii) (rest : string) :
  shapePieces (String c rest)
  = if isShapeChar c then
      match shapePieces rest with
      | Match m :: pieces => Match (String c m) :: pieces
      | pieces => Match (String c EmptyString) :: pieces
      end
    else Literal c :: shapePieces rest.
Proof. reflexivity. Qed.

Lemma reassemble (s : string) : JS.concat (map pieceText (shapePieces s)) = s.
Proof.
  induction s as [|c rest IH]; [reflexivity|].
  rewrite shapePieces_cons. destruct (isShapeChar c).
  - destruct (shapePieces rest) as [|[l|m] pieces]; rewrite <- IH; reflexivity.
  - rewrite <- IH at 2. reflexivity.
Qed.

Lemma pieces_wellShaped (s : string) : forallb wellShaped (shapePieces s) = true.
Proof.
  induction s as [|c rest IH]; [reflexivity|].
  rewrite shapePieces_cons. destruct (isShapeChar c) eqn:Hc.
  - destruct (shapePieces rest) as [|[l|m] pieces]; cbn in *; rewrite ?Hc; cbn; auto.
    apply andb_prop in IH as [Hm Hrest]. apply andb_prop in Hm as [_ Hm].
    now rewrite Hm, Hrest.
  - cbn. now rewrite Hc, IH.
Qed.

Lemma pieces_separated (s : string) : separated (shapePieces s) = true.
Proof.
  induction s as [|c rest IH]; [reflexivity|].
  rewrite shapePieces_cons. destruct (isShapeChar c).
  - destruct (shapePieces rest) as [|[l|m] pieces]; cbn in *; auto.
  - cbn. exact IH.
Qed.

Lemma removeShape_keepChars (s : string) :
  removeShape s = keepChars (fun c => negb (isShapeChar c)) s.
Proof.
  unfold removeShape. induction s as [|c rest IH]; [reflexivity|].
  rewrite shapePieces_cons. cbn [keepChars]. destruct (isShapeChar c).
  - cbn [negb]. rewrite <- IH.
    destruct (shapePieces rest) as [|[l|m] pieces]; reflexivity.
  - cbn [negb]. rewrite <- IH. reflexivity.
Qed.

Lemma matchShape_None (s : string) :
  matchShape s = None <-> keepChars isShapeChar s = EmptyString.
Proof.
  unfold matchShape.
  assert (matchesOf (shapePieces s) = [] <-> keepChars isShapeChar s = EmptyString)
    as Hiff.
  { induction s as [|c rest IH]; [easy|].
    rewrite shapePieces_cons. cbn [keepChars]. destruct (isShapeChar c).
    - destruct (shapePieces rest) as [|[l|m] pieces]; cbn; easy.
    - exact IH. }
  destruct (matchesOf (shapePieces s)); split; intros H;
    try reflexivity; try discriminate.
  - now apply Hiff.
  - apply Hiff in H. discriminate.
Qed.

End TokenFacts.

(** X10. The matches of [stringShapeRegex] in a string are its maximal,
    non-empty runs of digits, dots and minus signs: cutting a string into
    matches and the characters between them loses nothing (joined again the
    pieces give the string), no two matches are adjacent, no character
    between matches belongs to the class; so [s.replace(stringShapeRegex, '')]
    is [s] without the characters of the class, and [s.match(...)] is
    [null] exactly when [s] has no such character. *)
Theorem shape_matches (s : string) :
  JS.concat (map Tokens.pieceText (AnimatedInterpolation.shapePieces s)) = s
  /\ forallb Tokens.wellShaped (AnimatedInterpolation.shapePieces s) = true
  /\ Tokens.separated (AnimatedInterpolation.shapePieces s) = true
  /\ AnimatedInterpolation.removeShape s
     = Tokens.keepChars (fun c => negb (AnimatedInterpolation.isShapeChar c)) s
  /\ (AnimatedInterpolation.matchShape s = None
      <-> Tokens.keepChars AnimatedInterpolation.isShapeChar s = EmptyString).
Proof.
  split; [apply TokenFacts.reassemble|].
  split; [apply TokenFacts.pieces_wellShaped|].
  split; [apply TokenFacts.pieces_separated|].
  split; [apply TokenFacts.removeShape_keepChars|apply TokenFacts.matchShape_None].
Qed.

(** ** The text of a colour *)

Module NumberTextFacts.
Import AnimatedInterpolation Tokens Colors.

Lemma allChars_app (p : ascii -> bool) (a b : string) :
  allChars p (a ++ b) = allChars p a && allChars p b.
Proof.
  induction a as [|c a IH]; [reflexivity|].
  change (String c a ++ b)%string with (String c (a ++ b)).
  cbn [allChars]. now rewrite IH, andb_assoc.
Qed.

Lemma allChars_impl (p q : ascii -> bool) (s : string) :
  (forall c, p c = true -> q c = true) ->
  allChars p s = true -> allChars q s = true.
Proof.
  intros Hpq. induction s as [|c s IH]; [reflexivity|].
  cbn [allChars]. intros H. apply andb_prop in H as [Hc Hs].
  now rewrite (Hpq c Hc), IH.
Qed.

Lemma digit_shape (c : ascii) : JS.isDigit c = true -> isShapeChar c = true.
Proof. unfold isShapeChar. now intros ->. Qed.

Lemma allChars_zeros (n : nat) : allChars JS.isDigit (JS.zeros n) = true.
Proof. induction n as [|n IH]; [reflexivity|]. cbn [JS.zeros allChars]. now rewrite IH. Qed.

Lemma allChars_takePrefix (p : ascii -> bool) (n : nat) (s : string) :
  allChars p s = true -> allChars p (JS.takePrefix n s) = true.
Proof.
  revert s. induction n as [|n IH]; intros [|c s]; try reflexivity.
  cbn [JS.takePrefix allChars]. intros H. apply andb_prop in H as [Hc Hs].
  now rewrite Hc, IH.
Qed.

Lemma allChars_dropPrefix (p : ascii -> bool) (n : nat) (s : string) :
  allChars p s = true -> allChars p (JS.dropPrefix n s) = true.
Proof.
  revert s. induction n as [|n IH]; intros [|c s]; try easy.
  cbn [JS.dropPrefix allChars]. intros H. apply andb_prop in H as [Hc Hs].
  now apply IH.
Qed.

Lemma digits_uint (d : Decimal.uint) :
  allChars JS.isDigit (DecimalString.NilEmpty.string_of_uint d) = true.
Proof. induction d; cbn [DecimalString.NilEmpty.string_of_uint allChars]; auto. Qed.

Lemma digitsOf_digits (z : Z) :
  allChars JS.isDigit (JS.digitsOf z) = true /\ JS.digitsOf z <> "".
Proof.
  unfold JS.digitsOf, DecimalString.NilZero.string_of_uint.
  destruct (N.to_uint (Z.to_N z)) eqn:E; try (split; [reflexivity|discriminate]);
    (split; [apply digits_uint|discriminate]).
Qed.

(** Without exponent notation a number prints in digits and a dot. *)
Lemma formatPositive_plain (s k n : Z) :
  (-6 < n <= 21)%Z ->
  allChars isShapeChar (JS.formatPositive s k n) = true
  /\ JS.formatPositive s k n <> "".
Proof.
  intros Hn. unfold JS.formatPositive.
  destruct (digitsOf_digits s) as [Hdigits Hne].
  pose proof (allChars_impl _ _ _ digit_shape Hdigits) as Hshape.
  destruct ((k <=? n)%Z && (n <=? 21)%Z) eqn:H1.
  { split.
    - rewrite allChars_app, Hshape.
      apply (allChars_impl _ _ _ digit_shape), allChars_zeros.
    - destruct (JS.digitsOf s); [congruence|discriminate]. }
  destruct ((0 <? n)%Z && (n <=? 21)%Z) eqn:H2.
  { split.
    - rewrite !allChars_app, allChars_takePrefix, allChars_dropPrefix by assumption.
      reflexivity.
    - destruct (JS.takePrefix (Z.to_nat n) (JS.digitsOf s)); discriminate. }
  destruct ((-6 <? n)%Z && (n <=? 0)%Z) eqn:H3.
  { split; [|discriminate].
    change ("0." ++ ?t)%string with (String "0" (String "." t)).
    cbn [allChars]. rewrite allChars_app, Hshape.
    rewrite (allChars_impl _ _ _ digit_shape (allChars_zeros _)). reflexivity. }
  exfalso.
  apply andb_false_iff in H2, H3.
  rewrite Z.ltb_ge, Z.leb_gt in H2. rewrite Z.ltb_ge, Z.leb_gt in H3. lia.
Qed.

Lemma scan_stop (fuel : nat) (num : Z) (den : positive) (n : Z) :
  let r := JS.decimalExponent_from fuel num den n in
  (JS.below_pow10 num den r = true /\ (n <= r)%Z) \/ r = (n + Z.of_nat fuel)%Z.
Proof.
  revert n. induction fuel as [|fuel IH]; intros n; cbn [JS.decimalExponent_from].
  - right. lia.
  - destruct (JS.below_pow10 num den n) eqn:Hn.
    + left. split; [assumption|lia].
    + destruct (IH (n + 1)%Z) as [[H1 H2]|H].
      * left. split; [assumption|lia].
      * right. cbv zeta in H. lia.
Qed.

Lemma scan_upper (fuel : nat) (num : Z) (den : positive) (n hi : Z) :
  JS.below_pow10 num den hi = true -> (n <= hi)%Z -> (hi - n < Z.of_nat fuel)%Z ->
  (JS.decimalExponent_from fuel num den n <= hi)%Z.
Proof.
  intros Hhi. revert n. induction fuel as [|fuel IH]; intros n Hle Hfuel;
    cbn [JS.decimalExponent_from]; [lia|].
  destruct (JS.below_pow10 num den n) eqn:Hn; [assumption|].
  assert (n <> hi) by congruence. apply IH; lia.
Qed.

(** The decimal exponent of a moderate ratio. *)
Lemma decimalExponent_moderate (num : Z) (den : positive) :
  (Zpos den <= 1000 * num)%Z -> (num < 1000 * Zpos den)%Z ->
  (-3 < JS.decimalExponent num den <= 3)%Z.
Proof.
  intros Hlow Hhigh. unfold JS.decimalExponent.
  assert (JS.below_pow10 num den 3 = true) as H3.
  { unfold JS.below_pow10. apply Z.ltb_lt. change (10 ^ 3)%Z with 1000%Z. lia. }
  assert (forall m, (m <= -3)%Z -> JS.below_pow10 num den m = false) as Hbelow.
  { intros m Hm. destruct m as [|p|p]; try lia.
    unfold JS.below_pow10. apply Z.ltb_ge.
    assert (10 ^ 3 <= 10 ^ Zpos p)%Z by (apply Z.pow_le_mono_r; lia).
    change (10 ^ 3)%Z with 1000%Z in *. nia. }
  pose proof (scan_upper 700 num den (-330) 3 H3 ltac:(lia) ltac:(lia)) as Hup.
  split; [|assumption].
  destruct (scan_stop 700 num den (-330)) as [[Hr _]|Hr]; cbv zeta in *; [|lia].
  destruct (Z_lt_le_dec (-3) (JS.decimalExponent_from 700 num den (-330)))
    as [|Hle]; [assumption|].
  rewrite (Hbelow _ Hle) in Hr. discriminate.
Qed.

Lemma shortestDigits_exponent (fuel : nat) (x : float) (num : Z) (den : positive)
    (n k : Z) :
  let n' := snd (JS.shortestDigits_from fuel x num den n k) in
  n' = n \/ n' = (n + 1)%Z.
Proof.
  revert k. induction fuel as [|fuel IH]; intros k; cbn [JS.shortestDigits_from].
  - left. reflexivity.
  - cbv zeta.
    repeat match goal with
           | |- context [if ?b then _ else _] => destruct b
           end; cbn [snd]; auto.
Qed.

(** A moderate number prints in digits and a dot. *)
Lemma numberToString_plain (x : float) :
  moderate x = true ->
  allChars isShapeChar (JS.numberToString x) = true /\ JS.numberToString x <> "".
Proof.
  unfold moderate, JS.numberToString.
  destruct (Prim2SF x) as [sign|sign| |sign m e]; try discriminate.
  - intros _. split; [reflexivity|discriminate].
  - destruct sign; [discriminate|].
    destruct (JS.exactRatio m e) as [num den]. intros H.
    apply andb_prop in H as [Hlow Hhigh].
    apply Z.leb_le in Hlow. apply Z.ltb_lt in Hhigh.
    pose proof (decimalExponent_moderate num den Hlow Hhigh) as Hn.
    pose proof (shortestDigits_exponent 17 (PrimFloat.abs x) num den
                  (JS.decimalExponent num den) 1) as Hn'.
    destruct (JS.shortestDigits_from 17 (PrimFloat.abs x) num den
                (JS.decimalExponent num den) 1) as [[s k] n].
    cbn [snd] in Hn'.
    destruct (JS.stripZeros 17 s k) as [s' k'].
    change ("" ++ ?t)%string with t.
    apply formatPositive_plain. lia.
Qed.

Lemma bytes_moderate : forallb moderateByte (seq 0 256) = true.
Proof. vm_compute. reflexivity. Qed.

Lemma byte_moderate (b : Z) :
  (0 <= b < 256)%Z ->
  moderate (JS.ofZ b) = true /\ moderate (JS.div (JS.ofZ b) 255) = true.
Proof.
  intros Hb. pose proof bytes_moderate as H.
  rewrite forallb_forall in H. specialize (H (Z.to_nat b)).
  unfold moderateByte in H. rewrite Z2Nat.id in H by lia.
  apply andb_prop, H, in_seq. lia.
Qed.

(** The channels of a colour print in digits and a dot. *)
Lemma byteText_plain (b : Z) :
  (0 <= b < 256)%Z ->
  allChars isShapeChar (byteText b) = true /\ byteText b <> "".
Proof. intros Hb. apply numberToString_plain, byte_moderate, Hb. Qed.

Lemma alphaText_plain (b : Z) :
  (0 <= b < 256)%Z ->
  allChars isShapeChar (alphaText b) = true /\ alphaText b <> "".
Proof. intros Hb. apply numberToString_plain, byte_moderate, Hb. Qed.

End NumberTextFacts.

Module ColorTokenFacts.
Import AnimatedInterpolation Tokens Colors Validity.
Import ValidityFacts TokenFacts NumberTextFacts.

Lemma append_cons (c : ascii) (s t : string) :
  (String c s ++ t)%string = String c (s ++ t).
Proof. reflexivity. Qed.

Lemma append_nil (t : string) : ("" ++ t)%string = t.
Proof. reflexivity. Qed.

Lemma shapePieces_literal (c : ascii) (s : string) :
  isShapeChar c = false -> shapePieces (String c s) = Literal c :: shapePieces s.
Proof. intros Hc. now rewrite shapePieces_cons, Hc. Qed.

(** A run of characters of the class that a character outside it ends is
    one match. *)
Lemma shapePieces_run (m : string) (d : ascii) (rest : string) :
  allChars isShapeChar m = true -> m <> "" -> isShapeChar d = false ->
  shapePieces (m ++ String d rest) = Match m :: Literal d :: shapePieces rest.
Proof.
  intros Hm Hne Hd. induction m as [|c m IH]; [congruence|].
  cbn [allChars] in Hm. apply andb_prop in Hm as [Hc Hm].
  change (String c m ++ String d rest)%string with (String c (m ++ String d rest)).
  rewrite shapePieces_cons, Hc.
  destruct m as [|c' m].
  - change ("" ++ String d rest)%string with (String d rest).
    now rewrite shapePieces_literal.
  - now rewrite IH.
Qed.

Section WithNormalizer.
Variable normalizeColor : string -> option Z.

Lemma colorToRgba_bytes (input : string) (c : Z) :
  normalizeColor input = Some c ->
  colorToRgba normalizeColor input
  = JS.concat ["rgba("; byteText (byte c 24); ", "; byteText (byte c 16); ", ";
               byteText (byte c 8); ", "; alphaText (byte c 0); ")"].
Proof.
  intros Hc. unfold colorToRgba. rewrite Hc.
  change 4278190080%Z with (Z.shiftl (Z.ones 8) 24).
  change 16711680%Z with (Z.shiftl (Z.ones 8) 16).
  change 65280%Z with (Z.shiftl (Z.ones 8) 8).
  rewrite !ColorChannels.channel by lia.
  rewrite ColorChannels.low_byte.
  unfold byteText, alphaText, byte. now rewrite Z.pow_0_r, Z.div_1_r.
Qed.

Lemma byte_bound (c shift : Z) : (0 <= byte c shift < 256)%Z.
Proof. unfold byte. apply Z.mod_pos_bound. lia. Qed.

Lemma color_pieces (r g b a : string) :
  allChars isShapeChar r = true -> r <> "" ->
  allChars isShapeChar g = true -> g <> "" ->
  allChars isShapeChar b = true -> b <> "" ->
  allChars isShapeChar a = true -> a <> "" ->
  shapePieces (JS.concat ["rgba("; r; ", "; g; ", "; b; ", "; a; ")"])
  = [Literal "r"; Literal "g"; Literal "b"; Literal "a"; Literal "(";
     Match r; Literal ","; Literal " ";
     Match g; Literal ","; Literal " ";
     Match b; Literal ","; Literal " ";
     Match a; Literal ")"].
Proof.
  intros Hr Hr' Hg Hg' Hb Hb' Ha Ha'.
  unfold JS.concat. cbn [fold_right].
  rewrite ?append_cons, ?append_nil.
  rewrite !shapePieces_literal by reflexivity.
  rewrite (shapePieces_run r) by (assumption || reflexivity).
  rewrite shapePieces_literal by reflexivity.
  rewrite (shapePieces_run g) by (assumption || reflexivity).
  rewrite shapePieces_literal by reflexivity.
  rewrite (shapePieces_run b) by (assumption || reflexivity).
  rewrite shapePieces_literal by reflexivity.
  rewrite (shapePieces_run a) by (assumption || reflexivity).
  reflexivity.
Qed.

Lemma color_tokens (input : string) (c : Z) :
  normalizeColor input = Some c ->
  tokens normalizeColor input
  = [byteText (byte c 24); byteText (byte c 16); byteText (byte c 8);
     alphaText (byte c 0)]
  /\ skeleton normalizeColor input = "rgba(, , , )".
Proof.
  intros Hc. unfold tokens, skeleton, removeShape.
  rewrite (colorToRgba_bytes input c Hc).
  destruct (byteText_plain _ (byte_bound c 24)) as [Hr Hr'].
  destruct (byteText_plain _ (byte_bound c 16)) as [Hg Hg'].
  destruct (byteText_plain _ (byte_bound c 8)) as [Hb Hb'].
  destruct (alphaText_plain _ (byte_bound c 0)) as [Ha Ha'].
  rewrite (color_pieces _ _ _ _ Hr Hr' Hg Hg' Hb Hb' Ha Ha').
  split; reflexivity.
Qed.

Lemma colors_pattern (colors : list string) :
  colors <> [] ->
  (forall s, s ∈ colors -> is_Some (normalizeColor s)) ->
  checkPattern (map (colorToRgba normalizeColor) colors) = Ok tt.
Proof.
  intros Hne Hknown. destruct colors as [|first rest]; [congruence|].
  assert (forall s, s ∈ first :: rest ->
            removeShape (colorToRgba normalizeColor s) = "rgba(, , , )") as Hskel.
  { intros s Hs. destruct (Hknown s Hs) as [c Hc].
    apply (proj2 (color_tokens s c Hc)). }
  apply checkPattern_iff. exists (colorToRgba normalizeColor first).
  split; [reflexivity|]. intros i s Hs.
  rewrite list_lookup_fmap in Hs.
  destruct ((first :: rest) !! i) as [u|] eqn:Hu; [|discriminate].
  injection Hs as <-.
  rewrite (Hskel u) by (eapply list_elem_of_lookup_2; eassumption).
  rewrite (Hskel first) by apply list_elem_of_here. reflexivity.
Qed.

End WithNormalizer.

End ColorTokenFacts.

(** X11. Whatever notation a colour was written in, once the normalizer
    knows it, its text after [colorToRgba] has the four matches the shape
    expression finds in ["rgba(R, G, B, A)"], the printed bytes of the
    colour, and the skeleton ["rgba(, , , )"]: no channel prints with an
    exponent or a sign.  So [checkPattern] accepts every output range of
    recognised colours. *)
Theorem color_pattern (normalizeColor : string -> option Z) :
  (forall input c, normalizeColor input = Some c ->
     Validity.tokens normalizeColor input
     = [Colors.byteText (Colors.byte c 24); Colors.byteText (Colors.byte c 16);
        Colors.byteText (Colors.byte c 8); Colors.alphaText (Colors.byte c 0)]
     /\ Validity.skeleton normalizeColor input = "rgba(, , , )")
  /\ (forall colors, colors <> [] ->
        (forall s, s ∈ colors -> is_Some (normalizeColor s)) ->
        AnimatedInterpolation.checkPattern
          (map (AnimatedInterpolation.colorToRgba normalizeColor) colors) = Ok tt).
Proof.
  split.
  - apply ColorTokenFacts.color_tokens.
  - apply ColorTokenFacts.colors_pattern.
Qed.

Lemma color_pattern_witness :
  Validity.skeleton Samples.twoColors "rgba(255,255,255,1)" = "rgba(, , , )"
  /\ AnimatedInterpolation.checkPattern
       (map (AnimatedInterpolation.colorToRgba Samples.twoColors) Samples.fadeStrings)
     = Ok tt.
Proof.
  destruct (color_pattern Samples.twoColors) as [H1 H2]. split.
  - apply (proj2 (H1 "rgba(255,255,255,1)" 4294967295%Z eq_refl)).
  - apply H2; [discriminate|].
    intros s Hs. unfold Samples.fadeStrings in Hs.
    apply elem_of_cons in Hs as [->|Hs]; [eexists; reflexivity|].
    apply elem_of_cons in Hs as [->|Hs]; [eexists; reflexivity|].
    now apply elem_of_nil in Hs.
Defined.

(** ** The value of an interpolation node *)

Module NodeValueFacts.
Import AnimatedInterpolation Construction Extrapolation.

(** Two equal strings as output bounds: the string, once the
    extrapolation blocks have not returned. *)
Lemma interpolateValues_same_string (x a b : float) (s : string)
    (easing : float -> float) (eL eR : ExtrapolateType) (result : float) :
  extrapolated x a b eL eR = Next result ->
  interpolateValues x a b (JS.PString s) (JS.PString s) easing eL eR = JS.PString s.
Proof.
  unfold extrapolated, interpolateValues. intros H.
  destruct (extrapolateLeftStep x a eL) as [r|result']; [discriminate|].
  rewrite H. unfold mapSegmentValues. cbn [JS.strict_eq_values].
  now rewrite String.eqb_refl.
Qed.

Section WithEnvironment.
Context {Node : Type} (getValue : Node -> outcome JS.Primitive)
        (normalizeColor : string -> option Z).

Lemma mapper_number (config : InterpolationConfigType)
    (mapper : float -> outcome (option JSValue)) (l : list float) (x : float) :
  createInterpolation getValue normalizeColor config = Ok mapper ->
  config.(outputRange) = Numbers l ->
  exists y, mapper x = Ok (Some (VNumber y)).
Proof.
  intros H Hrange.
  destruct (Totality.createInterpolation_numeric getValue normalizeColor config mapper H)
    as (Hn & Hlen & ->); [rewrite Hrange; discriminate|].
  rewrite Hrange in *. cbn in Hlen. rewrite length_map in Hlen.
  destruct (numericMapper_number getValue config.(inputRange) l
              (default linear config.(easing))
              (resolveExtrapolate config.(extrapolateLeft) config.(extrapolate))
              (resolveExtrapolate config.(extrapolateRight) config.(extrapolate))
              x Hn Hlen) as [v ->].
  exists v. reflexivity.
Qed.

Lemma mapper_string (config : InterpolationConfigType)
    (mapper : float -> outcome (option JSValue)) (l : list string) (x : float) :
  createInterpolation getValue normalizeColor config = Ok mapper ->
  config.(outputRange) = Strings l ->
  exists s, mapper x = Ok (Some (VString s)).
Proof.
  intros H Hrange. destruct l as [|first rest].
  - destruct (Totality.createInterpolation_numeric getValue normalizeColor config
                mapper H) as (Hn & Hlen & _); [rewrite Hrange; discriminate|].
    rewrite Hrange in Hlen. cbn in Hlen. lia.
  - unfold createInterpolation in H. rewrite Hrange in H.
    inv_bind H. injection H as <-.
    apply StringEvaluation.stringMapper_evaluates in Ha as (template & _ & Hmap).
    destruct (Hmap x) as (vals & _ & _ & ->). eexists. reflexivity.
Qed.

End WithEnvironment.

End NodeValueFacts.

(** X12. A node whose mapper was constructed, read with a parent whose
    value is the number [x]: over numbers [__getValue()] returns a number
    and over strings a string, and never fails.  Over nodes it resolves the
    two nodes of the selected segment, in order: a read that throws makes
    it throw the same error; two numbers give the number [interpolate]
    computes from them; and twice the same string gives that string, unless
    an identity extrapolation has returned the input before.  With a parent
    whose value is not a number it throws the invariant violation. *)
Theorem node_value
    (Node : Type) (getValue : Node -> outcome JS.Primitive)
    (normalizeColor : string -> option Z)
    (config : AnimatedInterpolation.InterpolationConfigType)
    (mapper : float -> outcome (option AnimatedInterpolation.JSValue)) :
  AnimatedInterpolation.createInterpolation getValue normalizeColor config = Ok mapper ->
  let read (parentValue : AnimatedInterpolation.JSValue) :=
    AnimatedInterpolation.interpolation__getValue mapper parentValue in
  let easing := default AnimatedInterpolation.linear
                  config.(AnimatedInterpolation.easing) in
  let left := AnimatedInterpolation.resolveExtrapolate
                config.(AnimatedInterpolation.extrapolateLeft)
                config.(AnimatedInterpolation.extrapolate) in
  let right := AnimatedInterpolation.resolveExtrapolate
                 config.(AnimatedInterpolation.extrapolateRight)
                 config.(AnimatedInterpolation.extrapolate) in
  (forall x,
     match config.(AnimatedInterpolation.outputRange) with
     | AnimatedInterpolation.Numbers _ =>
       exists y, read (AnimatedInterpolation.VNumber x)
                 = Ok (Some (AnimatedInterpolation.VNumber y))
     | AnimatedInterpolation.Strings _ =>
       exists s, read (AnimatedInterpolation.VNumber x)
                 = Ok (Some (AnimatedInterpolation.VString s))
     | AnimatedInterpolation.Nodes l =>
       let i := AnimatedInterpolation.findRange x
                  config.(AnimatedInterpolation.inputRange) in
       exists a b n n',
         config.(AnimatedInterpolation.inputRange) !! i = Some a
         /\ config.(AnimatedInterpolation.inputRange) !! (i + 1) = Some b
         /\ l !! i = Some n /\ l !! (i + 1) = Some n'
         /\ (forall e, getValue n = Throw e ->
               read (AnimatedInterpolation.VNumber x) = Throw e)
         /\ (forall v e, getValue n = Ok v -> getValue n' = Throw e ->
               read (AnimatedInterpolation.VNumber x) = Throw e)
         /\ (forall oa ob,
               getValue n = Ok (JS.PNumber oa) -> getValue n' = Ok (JS.PNumber ob) ->
               read (AnimatedInterpolation.VNumber x)
               = Ok (Some (AnimatedInterpolation.VNumber
                             (AnimatedInterpolation.interpolate x a b oa ob
                                easing left right))))
         /\ (forall s result,
               getValue n = Ok (JS.PString s) -> getValue n' = Ok (JS.PString s) ->
               Extrapolation.extrapolated x a b left right
                 = AnimatedInterpolation.Next result ->
               read (AnimatedInterpolation.VNumber x)
               = Ok (Some (AnimatedInterpolation.VString s)))
     end)
  /\ (forall parentValue,
        (forall x, parentValue <> AnimatedInterpolation.VNumber x) ->
        read parentValue
        = Throw (InvariantViolation
                   "Cannot interpolate an input which is not a number.")).
Proof.
  intros H read easing left right. split.
  - intros x. unfold read. cbn [AnimatedInterpolation.interpolation__getValue].
    destruct config.(AnimatedInterpolation.outputRange) as [l|l|l] eqn:Hrange.
    + exact (NodeValueFacts.mapper_number getValue normalizeColor config mapper l x
               H Hrange).
    + exact (NodeValueFacts.mapper_string getValue normalizeColor config mapper l x
               H Hrange).
    + cbv zeta.
      destruct (Totality.createInterpolation_nodes getValue normalizeColor config
                  mapper l H Hrange x)
        as (a & b & n & n' & Ha & Hb & Hn1 & Hn2 & ->).
      exists a, b, n, n'. repeat (split; [assumption|]).
      split; [|split; [|split]].
      * intros e ->. reflexivity.
      * intros v e -> ->. reflexivity.
      * intros oa ob -> ->. cbn [mbind outcome_bind].
        now rewrite Construction.interpolateValues_numbers.
      * intros s result -> -> Hnext. cbn [mbind outcome_bind].
        now rewrite (NodeValueFacts.interpolateValues_same_string _ _ _ _ _ _ _ result).
  - intros parentValue Hnot. unfold read.
    destruct parentValue as [x| | | | |]; try reflexivity. now destruct (Hnot x).
Qed.

Lemma node_value_witness :
  exists mapper,
    AnimatedInterpolation.createInterpolation Samples.zeroNodes Samples.twoColors
      Samples.fade = Ok mapper
    /\ (exists s, AnimatedInterpolation.interpolation__getValue mapper
                    (AnimatedInterpolation.VNumber 0.5)
                  = Ok (Some (AnimatedInterpolation.VString s)))
    /\ AnimatedInterpolation.interpolation__getValue mapper
         (AnimatedInterpolation.VString "0.5")
       = Throw (InvariantViolation
                  "Cannot interpolate an input which is not a number.").
Proof.
  destruct (AnimatedInterpolation.createInterpolation Samples.zeroNodes
              Samples.twoColors Samples.fade) as [mapper|e] eqn:E.
  - exists mapper. split; [reflexivity|].
    destruct (node_value unit Samples.zeroNodes Samples.twoColors Samples.fade
                mapper E) as [H1 H2].
    split.
    + exact (H1 0.5%float).
    + apply H2. intros x. discriminate.
  - apply (f_equal is_ok) in E. vm_compute in E. discriminate E.
Defined.
